(** * polartools.absorption: loading and normalising x-ray absorption data

    A shallow embedding of [polartools/absorption.py] and of the parts of
    NumPy, SciPy, larch and lmfit it calls, followed by the properties of the
    loaders, of the multi-scan aggregation and of the edge normalisation.

    Numbers.  A NumPy [float64] is modelled by [float]: a real number or one
    of the three special values of IEEE 754.  Arithmetic on the items of
    arrays is exact on finite values (no rounding, no overflow, no signed
    zero); the special values follow IEEE 754.  The sum of two Python
    floats, which decides where the post-edge window starts and ends, is
    rounded: the rounding to [float64] is the parameter [round64], and
    every property below holds for every rounding.  Equality of two
    [float]s below is equality of values, so that [NaN = NaN] holds
    (Python's [==] on floats is [F.eqb]).

    Errors.  A Python exception is a [Raise e] in the [result] monad. *)

From Stdlib Require Import Reals Lra Sorted.
From stdpp Require Import base decidable option list strings gmap.

Set Default Proof Using "Type".

(** ** Exceptions and the error monad *)

Inductive exn :=
  | ValueError
  | KeyError
  | IndexError
  | TypeError
  | NameError
  | NotASpecDataFile
  | SpecDataFileNotFound
  | ExternalError.

Inductive result (A : Type) :=
  | Ok (a : A)
  | Raise (e : exn).
Arguments Ok {A} a.
Arguments Raise {A} e.

#[global] Instance result_ret : MRet result := λ A a, Ok a.
#[global] Instance result_bind : MBind result := λ A B f m,
  match m with Ok a => f a | Raise e => Raise e end.
#[global] Instance result_fmap : FMap result := λ A B f m,
  match m with Ok a => Ok (f a) | Raise e => Raise e end.

Definition is_Ok {A} (m : result A) : Prop := ∃ a, m = Ok a.

(** [or_raise o e]: the value of [o], or the exception [e]. *)
Definition or_raise {A} (o : option A) (e : exn) : result A :=
  match o with Some a => Ok a | None => Raise e end.

(** [try m except handles => h] of Python. *)
Definition try_except {A} (m : result A) (handles : exn → bool) (h : result A)
    : result A :=
  match m with
  | Ok a => Ok a
  | Raise e => if handles e then h else Raise e
  end.

(** ** float64 *)

Inductive float :=
  | Fin (r : R)
  | PInf
  | NInf
  | NaN.

#[global] Instance Rlt_decision : RelDecision Rlt := Rlt_dec.
#[global] Instance Req_decision : EqDecision R := Req_dec_T.

Module F.

#[local] Open Scope R_scope.

Definition isnan (x : float) : bool :=
  match x with NaN => true | _ => false end.
Definition isfinite (x : float) : bool :=
  match x with Fin _ => true | _ => false end.

Definition neg (x : float) : float :=
  match x with
  | Fin r => Fin (- r)
  | PInf => NInf
  | NInf => PInf
  | NaN => NaN
  end.

Definition abs (x : float) : float :=
  match x with
  | Fin r => Fin (Rabs r)
  | PInf | NInf => PInf
  | NaN => NaN
  end.

Definition add (x y : float) : float :=
  match x, y with
  | NaN, _ | _, NaN => NaN
  | Fin a, Fin b => Fin (a + b)
  | PInf, NInf | NInf, PInf => NaN
  | PInf, _ | _, PInf => PInf
  | NInf, _ | _, NInf => NInf
  end.

Definition sub (x y : float) : float := add x (neg y).

(** The infinity with the sign of [r], [NaN] for [r = 0]. *)
Definition signed_inf (r : R) : float :=
  if decide (0 < r) then PInf else if decide (r < 0) then NInf else NaN.

Definition mul (x y : float) : float :=
  match x, y with
  | NaN, _ | _, NaN => NaN
  | Fin a, Fin b => Fin (a * b)
  | Fin a, PInf | PInf, Fin a => signed_inf a
  | Fin a, NInf | NInf, Fin a => signed_inf (- a)
  | PInf, PInf | NInf, NInf => PInf
  | PInf, NInf | NInf, PInf => NaN
  end.

(** Division; a zero divisor is the positive zero. *)
Definition div (x y : float) : float :=
  match x, y with
  | NaN, _ | _, NaN => NaN
  | Fin a, Fin b => if decide (b = 0) then signed_inf a else Fin (a / b)
  | Fin _, (PInf | NInf) => Fin 0
  | PInf, Fin b => if decide (b < 0) then NInf else PInf
  | NInf, Fin b => if decide (b < 0) then PInf else NInf
  | (PInf | NInf), (PInf | NInf) => NaN
  end.

(** [np.sqrt] and [np.log]. *)
Definition sqrt (x : float) : float :=
  match x with
  | Fin r => if decide (r < 0) then NaN else Fin (R_sqrt.sqrt r)
  | PInf => PInf
  | NInf | NaN => NaN
  end.

Definition log (x : float) : float :=
  match x with
  | Fin r => if decide (0 < r) then Fin (ln r)
             else if decide (r = 0) then NInf else NaN
  | PInf => PInf
  | NInf | NaN => NaN
  end.

(** Comparisons: every comparison with [NaN] is false. *)
Definition ltb (x y : float) : bool :=
  match x, y with
  | NaN, _ | _, NaN => false
  | Fin a, Fin b => bool_decide (a < b)
  | NInf, (Fin _ | PInf) => true
  | Fin _, PInf => true
  | _, _ => false
  end.

Definition eqb (x y : float) : bool :=
  match x, y with
  | Fin a, Fin b => bool_decide (a = b)
  | PInf, PInf | NInf, NInf => true
  | _, _ => false
  end.

Definition leb (x y : float) : bool := ltb x y || eqb x y.

Definition of_nat (n : nat) : float := Fin (INR n).

End F.

Declare Scope float_scope.
Delimit Scope float_scope with fl.
Bind Scope float_scope with float.
Infix "+" := F.add : float_scope.
Infix "-" := F.sub : float_scope.
Infix "*" := F.mul : float_scope.
Infix "/" := F.div : float_scope.
Infix "<?" := F.ltb : float_scope.
Infix "<=?" := F.leb : float_scope.

(** ** Python floats: the sum of two numbers

    [a + b] for two Python floats is the exact sum rounded to [float64]
    (to nearest, ties to even).  The rounding of a real number is a
    parameter: nothing is assumed of it. *)

Class Float64 := { round64 : R → R }.

Definition fadd `{Float64} (x y : float) : float :=
  match (x + y)%fl with
  | Fin r => Fin (round64 r)
  | s => s
  end.

Abbreviation array := (list float).

(** ** NumPy (external): one-dimensional arrays

    The operations of NumPy that the module calls, on arrays of one
    dimension, with the exceptions NumPy raises. *)

Module np.

(** [a op b] for two arrays: elementwise, an array of length 1 is
    stretched to the length of the other, other length mismatches raise
    [ValueError] (broadcasting). *)
Definition broadcast (f : float → float → float) (a b : array)
    : result array :=
  if decide (length a = length b) then Ok (zip_with f a b)
  else match a, b with
       | [x], _ => Ok (map (f x) b)
       | _, [y] => Ok (map (λ x, f x y) a)
       | _, _ => Raise ValueError
       end.

Definition sub (a b : array) : result array := broadcast F.sub a b.
Definition div (a b : array) : result array := broadcast F.div a b.

(** [a - v], [np.abs(a)], [np.log(a)] for an array [a] and a scalar [v]. *)
Definition sub_scalar (a : array) (v : float) : array :=
  map (λ x, x - v)%fl a.
Definition div_scalar (a : array) (v : float) : array :=
  map (λ x, x / v)%fl a.
Definition abs (a : array) : array := map F.abs a.
Definition log (a : array) : array := map F.log a.

(** [np.copy(a)]: a new array with the items of [a]. *)
Definition copy (a : array) : array := a.

(** [a[i]] for [0 <= i]. *)
Definition item (a : array) (i : nat) : result float :=
  or_raise (a !! i) IndexError.

(** [a[p1:p2]] for [0 <= p1] and [0 <= p2]. *)
Definition slice (a : array) (p1 p2 : nat) : array :=
  take (p2 - p1) (drop p1 a).

(** [dst[:n] = src], in place: [src] must have the length of [dst[:n]]
    or length 1. *)
Definition assign_prefix (dst : array) (n : nat) (src : array)
    : result array :=
  let k := n `min` length dst in
  if decide (length src = k) then Ok (src ++ drop k dst)
  else match src with
       | [v] => Ok (replicate k v ++ drop k dst)
       | _ => Raise ValueError
       end.

(** [a.argmin()]: the first index of the smallest value; a [NaN] counts
    as the smallest; [ValueError] on an empty array.  The loop keeps the
    current minimum [mp] and its index, and replaces them at [i] when
    [not (a[i] >= mp)]. *)
Fixpoint argmin_from (mp : float) (min_ind i : nat) (a : array) : nat :=
  match a with
  | [] => min_ind
  | x :: a' =>
      if F.isnan mp then min_ind
      else if negb (mp <=? x)%fl then argmin_from x i (S i) a'
      else argmin_from mp min_ind (S i) a'
  end.

Definition argmin (a : array) : result nat :=
  match a with
  | [] => Raise ValueError
  | x :: a' => Ok (argmin_from x 0 1 a')
  end.

(** [np.where(mask)[0]]: the indices at which [mask] holds. *)
Fixpoint where_from (i : nat) (mask : list bool) : list nat :=
  match mask with
  | [] => []
  | b :: mask' =>
      if b then i :: where_from (S i) mask' else where_from (S i) mask'
  end.
Definition where_ (mask : list bool) : list nat := where_from 0 mask.

(** [np.delete(a, bad)]: [a] without the positions listed in [bad];
    [IndexError] when a position is out of bounds. *)
Definition delete (a : array) (bad : list nat) : result array :=
  if forallb (λ i, bool_decide (i < length a)%nat) bad
  then Ok (omap (λ o, o) (imap (λ i x, if bool_decide (i ∈ bad) then None
                                  else Some x) a))
  else Raise IndexError.

(** [np.zeros(n)]. *)
Definition zeros (n : nat) : array := replicate n (Fin 0).

(** [np.polyval] with the coefficients from the constant term upwards
    (Horner's rule). *)
Definition polyval (c : list float) (x : float) : float :=
  foldr (λ ci acc, ci + x * acc)%fl (Fin 0) c.

End np.

(** ** Python builtins *)

Module py.

(** [min(a)] over the items of an array: the first item, replaced by a
    later one when that is smaller ([<]). *)
Definition min (a : array) : result float :=
  match a with
  | [] => Raise ValueError
  | x :: a' => Ok (foldl (λ m y, if (y <? m)%fl then y else m) x a')
  end.

(** [max(l)] over integers. *)
Definition max (l : list nat) : result nat :=
  match l with
  | [] => Raise ValueError
  | x :: l' => Ok (foldl Nat.max x l')
  end.

End py.

(** ** larch.math (external) *)

Module larch.

(** [index_nearest(array, value)]: index of [array] nearest to [value],
    [np.abs(array - value).argmin()]. *)
Definition index_nearest (a : array) (value : float) : result nat :=
  np.argmin (np.abs (np.sub_scalar a value)).

(** [index_of(array, value)]: index of [array] at or below [value], and 0
    if [value < min(array)]; otherwise
    [max(np.where(array <= value)[0])]. *)
Definition index_of (a : array) (value : float) : result nat :=
  m ← py.min a;
  if (value <? m)%fl then Ok 0%nat
  else py.max (np.where_ (map (λ x, x <=? value)%fl a)).

(** [remove_nans2(a, b)]: both arrays without the positions at which
    either holds a [NaN] or an infinity.  The positions are deleted in
    two passes, those that are bad in [a], then those bad in [b]. *)
Definition fix_bad (isbad : list bool) (x y : array)
    : result (array * array) :=
  if existsb (λ b, b) isbad then
    let bad := np.where_ isbad in
    x' ← np.delete x bad;
    y' ← np.delete y bad;
    Ok (x', y')
  else Ok (x, y).

Definition remove_nans2 (a b : array) : result (array * array) :=
  '(a1, b1) ← fix_bad (map (λ x, negb (F.isfinite x)) a) a b;
  fix_bad (map (λ x, negb (F.isfinite x)) b1) a1 b1.

End larch.

(** ** lmfit (external): the polynomial fitting collaborator

    [PolynomialModel(degree=n)] builds the model, [model.guess(data, x=x)]
    the initial parameters, [model.fit(data, params, x=x, fit_kws=kws)] runs
    the least-squares fit.  Each of them can raise.  A fit result is kept as
    the best-fit values of the coefficients [c0], [c1], ...;
    [result.eval(x=a)] evaluates the polynomial with these coefficients at
    every item of [a]. *)

Record fit_kws := { xtol : float; ftol : float }.

Class Lmfit := {
  Model : Type;
  Parameters : Type;
  PolynomialModel : Z → result Model;
  (** [not params]: a [Parameters] object is a dictionary, false when empty. *)
  params_empty : Parameters → bool;
  guess : Model → array → array → result Parameters;
  fit : Model → array → Parameters → array → fit_kws → result (list float);
}.

Definition eval (best_values : list float) (x : array) : array :=
  map (np.polyval best_values) x.

(** ** Values of the dictionary returned by [larch.xafs.preedge] *)

Inductive value :=
  | VFloat (x : float)
  | VInt (n : Z)
  | VArray (a : array).

Abbreviation dict := (gmap string value).

(** [d[key]] *)
Definition getitem (d : dict) (key : string) : result value :=
  or_raise (d !! key) KeyError.

(** Use of a dictionary value as a number, as an array, as an integer. *)
Definition as_float (v : value) : result float :=
  match v with
  | VFloat x => Ok x
  | VInt n => Ok (Fin (IZR n))
  | VArray _ => Raise TypeError
  end.

Definition as_array (v : value) : result array :=
  match v with VArray a => Ok a | _ => Raise TypeError end.

Definition as_int (v : value) : result Z :=
  match v with VInt n => Ok n | _ => Raise TypeError end.

(** ** Edge normalisation *)

Section normalization.

Context `{Lmfit}.
Context `{Float64}.

(** [larch.xafs.preedge(energy, mu, e0, pre1, pre2, nvict, norm1, norm2,
    nnorm)] (external): the pre-edge/post-edge fitting collaborator.  It
    returns a dictionary with, among others, the entries ['e0'], ['norm'],
    ['norm1'], ['norm2'] and ['nnorm']. *)
Variable preedge :
  array → array → option float → option float → option float → Z →
  option float → option float → option Z → result dict.

(** The indices located at the start of [_flatten_norm]: the edge and
    the two ends of the post-edge window. *)
Definition _flatten_indices (energy : array) (e0 norm1 norm2 : float)
    : result (nat * nat * nat) :=
  ie0 ← larch.index_nearest energy e0;
  p1 ← larch.index_of energy (fadd norm1 e0);
  p2 ← larch.index_nearest energy (fadd norm2 e0);
  Ok (ie0, p1, p2).

(** The fit of [_flatten_norm]: model, initial guess unless given, fit. *)
Definition _flatten_fit (mux enx : array) (nnorm : Z)
    (fpars : option Parameters) : result (list float) :=
  model ← PolynomialModel nnorm;
  fpars ← match fpars with
          | Some p => if params_empty p then guess model mux enx else Ok p
          | None => guess model mux enx
          end;
  fit model mux fpars enx {| xtol := Fin (1 / 1000000);
                             ftol := Fin (1 / 1000000) |}.

Definition _flatten_norm (energy norm : array) (e0 norm1 norm2 : float)
    (nnorm : Z) (fpars : option Parameters) : result array :=
  '(ie0, p1, p2) ← _flatten_indices energy e0 norm1 norm2;
  '(enx, mux) ← larch.remove_nans2 (np.slice (np.copy energy) p1 p2)
                                   (np.slice (np.copy norm) p1 p2);
  best ← _flatten_fit mux enx nnorm fpars;
  at_ie0 ← np.item (eval best energy) ie0;
  flat ← np.sub norm (np.sub_scalar (eval best energy) at_ie0);
  np.assign_prefix flat ie0 (np.slice norm 0 ie0).

(** [pre_range] and [post_range]: [None] and the empty list are false. *)
Definition range_or_default (r : option (list (option float)))
    : list (option float) :=
  match r with
  | None | Some [] => [None; None]
  | Some l => l
  end.

Definition normalize_absorption (energy xanes : array) (e0 : option float)
    (pre_range post_range : option (list (option float)))
    (pre_exponent : Z) (post_order : option Z)
    (fpars : option Parameters) : result dict :=
  let pre_range := range_or_default pre_range in
  let post_range := range_or_default post_range in
  pre1 ← or_raise (pre_range !! 0%nat) IndexError;
  pre2 ← or_raise (pre_range !! 1%nat) IndexError;
  norm1 ← or_raise (post_range !! 0%nat) IndexError;
  norm2 ← or_raise (post_range !! 1%nat) IndexError;
  results ← preedge energy xanes e0 pre1 pre2 pre_exponent norm1 norm2
                    post_order;
  let results := <["energy" := VArray (np.copy energy)]> results in
  let results := <["raw" := VArray (np.copy xanes)]> results in
  norm ← getitem results "norm" ≫= as_array;
  e0 ← getitem results "e0" ≫= as_float;
  norm1 ← getitem results "norm1" ≫= as_float;
  norm2 ← getitem results "norm2" ≫= as_float;
  nnorm ← getitem results "nnorm" ≫= as_int;
  flat ← _flatten_norm energy norm e0 norm1 norm2 nnorm fpars;
  Ok (<["flat" := VArray flat]> results).

(** [flat] is the curve [norm] flattened over [energy]: with the edge
    index [ie0] and the polynomial [best] fitted to the usable samples of
    the post-edge window, [flat] is [norm] before [ie0], and from [ie0]
    on it is [norm] less the rise of the polynomial from the sample
    [energy[ie0]].  That sample is the edge energy [e0] whenever [e0] is
    one of the (finite) energies. *)
Definition flattened (energy norm : array) (e0 norm1 norm2 : float)
    (nnorm : Z) (fpars : option Parameters) (flat : array) : Prop :=
  ∃ ie0 p1 p2 enx mux best at_edge,
    _flatten_indices energy e0 norm1 norm2 = Ok (ie0, p1, p2)
    ∧ larch.remove_nans2 (np.slice (np.copy energy) p1 p2)
                         (np.slice (np.copy norm) p1 p2) = Ok (enx, mux)
    ∧ _flatten_fit mux enx nnorm fpars = Ok best
    ∧ energy !! ie0 = Some at_edge
    ∧ (∀ i n e, norm !! i = Some n → energy !! i = Some e →
         flat !! i = Some (if decide (i < ie0) then n
                           else n - (np.polyval best e
                                     - np.polyval best at_edge))%fl)
    ∧ (∀ es t, energy = Fin <$> es → e0 = Fin t → t ∈ es → at_edge = e0).

End normalization.

(** ** NumPy (external): arrays of two dimensions, reductions *)

Inductive ndarray :=
  | Arr1 (a : array)
  | Arr2 (ncols : nat) (rows : list array).

Module np2.

(** [a.sum()] and [a.mean()] of a one-dimensional array. *)
Definition sum (a : array) : float := foldl F.add (Fin 0) a.
Definition mean (a : array) : float :=
  (sum a / F.of_nat (length a))%fl.

(** [a.std()]: [sqrt(mean((a - a.mean())**2))]. *)
Definition std (a : array) : float :=
  let m := mean a in
  F.sqrt (mean (map (λ x, (x - m) * (x - m))%fl a)).

(** [a.reshape(nrows, ncols)] of a one-dimensional array: [ValueError]
    unless [a] has exactly [nrows * ncols] items. *)
Fixpoint chunks (nrows ncols : nat) (a : array) : list array :=
  match nrows with
  | O => []
  | S n => take ncols a :: chunks n ncols (drop ncols a)
  end.

Definition reshape (a : array) (nrows ncols : nat) : result (list array) :=
  if decide (length a = nrows * ncols)%nat then Ok (chunks nrows ncols a)
  else Raise ValueError.

(** [a[:, idx]]: the columns [idx] of every row. *)
Definition take_columns (rows : list array) (idx : list nat)
    : result (list array) :=
  mapM (M := result)
       (λ row, mapM (M := result) (λ j, np.item row j) idx) rows.

(** [a.mean(axis=1)]: the mean of every row. *)
Definition mean_axis1 (rows : list array) : array := map mean rows.

(** Column [j] of an array of two dimensions. *)
Definition column (rows : list array) (j : nat) : array :=
  omap (λ row : array, row !! j) rows.

(** [a.mean(axis=0)] and [a.std(axis=0)]: of every column. *)
Definition mean_axis0 (ncols : nat) (rows : list array) : array :=
  map (λ j, mean (column rows j)) (seq 0 ncols).
Definition std_axis0 (ncols : nat) (rows : list array) : array :=
  map (λ j, std (column rows j)) (seq 0 ncols).

(** [np.vstack((a, row))] for a one-dimensional [row]: [a] with [row] as
    one more row; [ValueError] when the lengths of the rows differ. *)
Definition vstack (a : ndarray) (row : array) : result ndarray :=
  match a with
  | Arr1 r0 =>
      if decide (length r0 = length row) then Ok (Arr2 (length r0) [r0; row])
      else Raise ValueError
  | Arr2 n rows =>
      if decide (n = length row) then Ok (Arr2 n (rows ++ [row]))
      else Raise ValueError
  end.

(** [a.size] *)
Definition size (a : ndarray) : nat :=
  match a with
  | Arr1 r => length r
  | Arr2 n rows => (length rows * n)%nat
  end.

End np2.

(** ** scipy.interpolate.interp1d (external)

    [interp1d(x, y, kind='linear', fill_value=v, bounds_error=b)] for
    one-dimensional [float64] data.  The constructor sorts the points by [x]
    (stable, [NaN] last) and raises [ValueError] when [x] and [y] differ in
    length or hold fewer than two points.  A call evaluates [np.interp] and
    then overwrites the values at arguments below [x[0]] or above [x[-1]]
    by [fill_value], or raises [ValueError] when [bounds_error] is set. *)

Module scipy.

Definition key_le (p q : float * float) : bool :=
  if F.isnan q.1 then true
  else if F.isnan p.1 then false
  else (p.1 <=? q.1)%fl.

Fixpoint insert_sorted (p : float * float) (l : list (float * float))
    : list (float * float) :=
  match l with
  | [] => [p]
  | q :: l' => if key_le p q then p :: q :: l' else q :: insert_sorted p l'
  end.

Definition sort_points (l : list (float * float)) : list (float * float) :=
  foldr insert_sorted [] l.

(** [np.interp] at [x_val], for [x_val] not below the first point
    [(x0, y0)]: the value at the last point, the value at a point hit
    exactly, otherwise the chord through the two points around [x_val]
    (computed from the other end when the first attempt is [NaN]). *)
Definition chord (x_val x0 y0 x1 y1 : float) : float :=
  let slope := ((y1 - y0) / (x1 - x0))%fl in
  let r := (slope * (x_val - x0) + y0)%fl in
  if F.isnan r then
    let r' := (slope * (x_val - x1) + y1)%fl in
    if F.isnan r' && F.eqb y0 y1 then y0 else r'
  else r.

Fixpoint interp_from (x_val x0 y0 : float) (rest : list (float * float))
    : float :=
  match rest with
  | [] => y0
  | (x1, y1) :: rest' =>
      if (x_val <? x1)%fl then
        if F.eqb x0 x_val then y0 else chord x_val x0 y0 x1 y1
      else interp_from x_val x1 y1 rest'
  end.

Definition call_linear (pts : list (float * float)) (fill_value : float)
    (bounds_error : bool) (x_new : array) : result array :=
  match pts, last pts with
  | (x0, y0) :: rest, Some (xn, _) =>
      let out v := (v <? x0)%fl || (xn <? v)%fl in
      if bounds_error && existsb out x_new then Raise ValueError
      else Ok (map (λ v, if F.isnan v then NaN
                         else if out v then fill_value
                         else interp_from v x0 y0 rest) x_new)
  | _, _ => Raise ValueError
  end.

Inductive kind := linear.

Definition interp1d (x y : array) (k : kind) (fill_value : float)
    (bounds_error : bool) : result (array → result array) :=
  if decide (length x = length y) then
    if decide (2 ≤ length x)%nat then
      Ok (call_linear (sort_points (zip x y)) fill_value bounds_error)
    else Raise ValueError
  else Raise ValueError.

End scipy.

(** ** NumPy (external): reductions of an array of either dimension

    [a.mean(axis=0)] and [a.std(axis=0)] give one number per column for an
    array of two dimensions and a single number for an array of one
    dimension. *)

Inductive number_or_array :=
  | Number (x : float)
  | Array (a : ndarray).

Module nd.

Definition mean_axis0 (a : ndarray) : number_or_array :=
  match a with
  | Arr1 r => Number (np2.mean r)
  | Arr2 ncols rows => Array (Arr1 (np2.mean_axis0 ncols rows))
  end.

Definition std_axis0 (a : ndarray) : number_or_array :=
  match a with
  | Arr1 r => Number (np2.std r)
  | Arr2 ncols rows => Array (Arr1 (np2.std_axis0 ncols rows))
  end.

(** [a / v] for a number [v]. *)
Definition div_scalar (a : number_or_array) (v : float) : number_or_array :=
  match a with
  | Number x => Number (x / v)
  | Array (Arr1 r) => Array (Arr1 (np.div_scalar r v))
  | Array (Arr2 ncols rows) =>
      Array (Arr2 ncols (map (λ r, np.div_scalar r v) rows))
  end.

End nd.

(** ** Scan loaders *)

Definition _spec_default_cols : gmap string string :=
  list_to_map [("positioner", "Energy"); ("detector", "IC5");
               ("monitor", "IC4"); ("dc_col", "Lock DC");
               ("ac_col", "Lock AC"); ("acoff_col", "Lock ACoff")].

Definition _bluesky_default_cols : gmap string string :=
  list_to_map [("positioner", "monochromator_energy");
               ("detector", "Ion Ch 5"); ("monitor", "Ion Ch 4");
               ("dc_col", "Lock DC"); ("ac_col", "Lock AC");
               ("acoff_col", "Lock AC off")].

(** A scan table: the columns by name. *)
Abbreviation table := (gmap string array).

(** [not name] for an optional column name: [None] and [''] are false. *)
Definition name_or (name : option string) (default : result string)
    : result string :=
  match name with
  | None | Some "" => default
  | Some s => Ok s
  end.

(** [d[key]] for the dictionaries of default names and for tables. *)
Definition lookup_key {V} (d : gmap string V) (key : string) : result V :=
  or_raise (d !! key) KeyError.

Section loaders.

(** Scan identifiers, keyword options, parsed spec files and databroker
    catalogs are opaque. *)
Context {scan_id kwargs SpecDataFile catalog : Type}.

Inductive source :=
  | SourceStr (name : string)
  | SourceSpec (f : SpecDataFile)
  | SourceCatalog (db : catalog).

(** [polartools.load_data.load_table] and
    [polartools.load_data.is_Bluesky_specfile]: the table loader
    collaborator and the check of the origin of a spec file. *)
Variable load_table : scan_id → source → kwargs → result table.
Variable is_Bluesky_specfile : source → kwargs → result bool.

(** [isinstance(source, (str, SpecDataFile))] *)
Definition is_str_or_spec (s : source) : bool :=
  match s with SourceStr _ | SourceSpec _ => true | SourceCatalog _ => false end.

(** [source != 'csv'] *)
Definition is_not_csv (s : source) : bool :=
  match s with SourceStr name => negb (String.eqb name "csv") | _ => true end.

(** [except (NotASpecDataFile, SpecDataFileNotFound)] *)
Definition not_spec_or_not_found (e : exn) : bool :=
  match e with
  | NotASpecDataFile | SpecDataFileNotFound => true
  | _ => false
  end.

Definition _select_default_names (s : source) (kw : kwargs)
    : result (gmap string string) :=
  if is_str_or_spec s then
    try_except
      (check ← is_Bluesky_specfile s kw;
       Ok (if check : bool then _bluesky_default_cols
           else _spec_default_cols))
      not_spec_or_not_found
      (Ok _bluesky_default_cols)
  else Ok _bluesky_default_cols.

Definition load_absorption (scan : scan_id) (s : source)
    (positioner detector monitor : option string) (transmission : bool)
    (kw : kwargs) : result (array * array) :=
  _defaults ← _select_default_names s kw;
  positioner ← name_or positioner (lookup_key _defaults "positioner");
  detector ← name_or detector (lookup_key _defaults "detector");
  monitor ← name_or monitor (lookup_key _defaults "monitor");
  table ← load_table scan s kw;
  x ← lookup_key table positioner;
  if transmission then
    mon ← lookup_key table monitor;
    det ← lookup_key table detector;
    ratio ← np.div mon det;
    Ok (x, np.log ratio)
  else
    det ← lookup_key table detector;
    mon ← lookup_key table monitor;
    ratio ← np.div det mon;
    Ok (x, ratio).

(** The test of [load_dichro] for the columns of SPEC:
    [isinstance(source, (str, SpecDataFile)) and source != 'csv' and not
    is_Bluesky_specfile(source, **kwargs)]. *)
Definition _in_spec_columns (s : source) (kw : kwargs) : result bool :=
  if is_str_or_spec s && is_not_csv s
  then negb <$> is_Bluesky_specfile s kw
  else Ok false.

Definition load_dichro (scan : scan_id) (s : source)
    (positioner detector monitor : option string) (transmission : bool)
    (kw : kwargs) : result (array * array * array) :=
  in_spec ← _in_spec_columns s kw;
  if in_spec : bool then
    positioner ← name_or positioner (lookup_key _spec_default_cols "positioner");
    monitor ← name_or monitor (lookup_key _spec_default_cols "monitor");
    detector ← name_or detector (lookup_key _spec_default_cols "detector");
    table ← load_table scan s kw;
    x ← lookup_key table positioner;
    monp ← lookup_key table (monitor +:+ "(+)");
    detp ← lookup_key table (detector +:+ "(+)");
    monm ← lookup_key table (monitor +:+ "(-)");
    detm ← lookup_key table (detector +:+ "(-)");
    if transmission then
      lp ← np.log <$> np.div monp detp;
      lm ← np.log <$> np.div monm detm;
      s ← np.broadcast F.add lp lm;
      d ← np.sub lp lm;
      Ok (x, np.div_scalar s (Fin 2), d)
    else
      rp ← np.div detp monp;
      rm ← np.div detm monm;
      s ← np.broadcast F.add rp rm;
      d ← np.sub rp rm;
      Ok (x, np.div_scalar s (Fin 2), d)
  else
    '(x0, y0) ← load_absorption scan s positioner detector monitor
                                transmission kw;
    let size := (length x0 / 4)%nat in
    x0 ← np2.reshape x0 size 4;
    y0 ← np2.reshape y0 size 4;
    let x := np2.mean_axis1 x0 in
    let xanes := np2.mean_axis1 y0 in
    y03 ← np2.take_columns y0 [0; 3]%nat;
    y12 ← np2.take_columns y0 [1; 2]%nat;
    xmcd ← np.sub (np2.mean_axis1 y03) (np2.mean_axis1 y12);
    Ok (x, xanes, xmcd).

(** The loop of [load_multi_xas] over [scans].  The state is [None] until
    the first scan has been loaded (['energy' not in locals()]), then the
    energy grid of the first scan and the scans stacked so far. *)
Fixpoint stack_xas (scans : list scan_id) (s : source)
    (positioner detector monitor : option string) (transmission : bool)
    (kw : kwargs) (state : option (array * ndarray))
    : result (option (array * ndarray)) :=
  match scans with
  | [] => Ok state
  | scan :: scans' =>
      state' ←
        match state with
        | None =>
            '(energy, xanes) ← load_absorption scan s positioner detector
                                               monitor transmission kw;
            Ok (energy, Arr1 xanes)
        | Some (energy, xanes) =>
            '(energy_tmp, xanes_tmp) ←
               load_absorption scan s positioner detector monitor
                               transmission kw;
            f ← scipy.interp1d energy_tmp xanes_tmp scipy.linear NaN false;
            row ← f energy;
            xanes ← np2.vstack xanes row;
            Ok (energy, xanes)
        end;
      stack_xas scans' s positioner detector monitor transmission kw
                (Some state')
  end.

(** The result of [load_multi_xas]: [(energy, xanes, xanes_std)] when
    [return_mean] is set, [(energy, xanes)] otherwise. *)
Definition load_multi_xas (scans : list scan_id) (s : source)
    (return_mean : bool) (positioner detector monitor : option string)
    (transmission : bool) (kw : kwargs)
    : result (array * ndarray * option array) :=
  state ← stack_xas scans s positioner detector monitor transmission kw None;
  '(energy, xanes) ← or_raise state NameError;
  if return_mean then
    match xanes with
    | Arr2 ncols rows =>
        let xanes_std :=
          np.div_scalar (np2.std_axis0 ncols rows)
                        (F.sqrt (F.of_nat (length scans))) in
        let xanes := np2.mean_axis0 ncols rows in
        Ok (energy, Arr1 xanes, Some xanes_std)
    | Arr1 _ =>
        Ok (energy, xanes, Some (np.zeros (np2.size xanes)))
    end
  else Ok (energy, xanes, None).

Definition load_lockin (scan : scan_id) (s : source)
    (positioner dc_col ac_col acoff_col : option string) (kw : kwargs)
    : result (array * array * array) :=
  _defaults ← _select_default_names s kw;
  positioner ← name_or positioner (lookup_key _defaults "positioner");
  dc_col ← name_or dc_col (lookup_key _defaults "dc_col");
  ac_col ← name_or ac_col (lookup_key _defaults "ac_col");
  acoff_col ← name_or acoff_col (lookup_key _defaults "acoff_col");
  table ← load_table scan s kw;
  x ← lookup_key table positioner;
  dc ← lookup_key table dc_col;
  ac ← lookup_key table ac_col;
  acoff ← lookup_key table acoff_col;
  xmcd ← np.sub ac acoff;
  Ok (x, dc, xmcd).

(** The loop of [load_multi_dichro] over [scans]: as in [load_multi_xas],
    with the dichroism stacked beside the absorption. *)
Fixpoint stack_dichro (scans : list scan_id) (s : source)
    (positioner detector monitor : option string) (transmission : bool)
    (kw : kwargs) (state : option (array * ndarray * ndarray))
    : result (option (array * ndarray * ndarray)) :=
  match scans with
  | [] => Ok state
  | scan :: scans' =>
      state' ←
        match state with
        | None =>
            '(energy, xanes, xmcd) ← load_dichro scan s positioner detector
                                                 monitor transmission kw;
            Ok (energy, Arr1 xanes, Arr1 xmcd)
        | Some (energy, xanes, xmcd) =>
            '(energy_tmp, xanes_tmp, xmcd_tmp) ←
               load_dichro scan s positioner detector monitor transmission
                           kw;
            f ← scipy.interp1d energy_tmp xanes_tmp scipy.linear NaN false;
            row ← f energy;
            xanes ← np2.vstack xanes row;
            g ← scipy.interp1d energy_tmp xmcd_tmp scipy.linear NaN false;
            row ← g energy;
            xmcd ← np2.vstack xmcd row;
            Ok (energy, xanes, xmcd)
        end;
      stack_dichro scans' s positioner detector monitor transmission kw
                   (Some state')
  end.

(** The end of [load_multi_dichro] and of [load_multi_lockin]: the tuple
    [(energy, xanes, xmcd, xanes_std, xmcd_std)] when [return_mean] is
    set, [(energy, xanes, xmcd)] otherwise.  The test is on the shape of
    [xanes] alone. *)
Definition load_multi_dichro (scans : list scan_id) (s : source)
    (return_mean : bool) (positioner detector monitor : option string)
    (transmission : bool) (kw : kwargs)
    : result (array * ndarray * number_or_array
              * option (array * number_or_array)) :=
  state ← stack_dichro scans s positioner detector monitor transmission kw
                       None;
  '(energy, xanes, xmcd) ← or_raise state NameError;
  if return_mean then
    match xanes with
    | Arr2 ncols rows =>
        let xanes_std :=
          np.div_scalar (np2.std_axis0 ncols rows)
                        (F.sqrt (F.of_nat (length scans))) in
        let xanes := np2.mean_axis0 ncols rows in
        let xmcd_std :=
          nd.div_scalar (nd.std_axis0 xmcd)
                        (F.sqrt (F.of_nat (length scans))) in
        let xmcd := nd.mean_axis0 xmcd in
        Ok (energy, Arr1 xanes, xmcd, Some (xanes_std, xmcd_std))
    | Arr1 _ =>
        Ok (energy, xanes, Array xmcd,
            Some (np.zeros (np2.size xanes),
                  Array (Arr1 (np.zeros (np2.size xanes)))))
    end
  else Ok (energy, xanes, Array xmcd, None).

(** The loop of [load_multi_lockin] over [scans]. *)
Fixpoint stack_lockin (scans : list scan_id) (s : source)
    (positioner dc_col ac_col acoff_col : option string) (kw : kwargs)
    (state : option (array * ndarray * ndarray))
    : result (option (array * ndarray * ndarray)) :=
  match scans with
  | [] => Ok state
  | scan :: scans' =>
      state' ←
        match state with
        | None =>
            '(energy, xanes, xmcd) ← load_lockin scan s positioner dc_col
                                                 ac_col acoff_col kw;
            Ok (energy, Arr1 xanes, Arr1 xmcd)
        | Some (energy, xanes, xmcd) =>
            '(energy_tmp, xanes_tmp, xmcd_tmp) ←
               load_lockin scan s positioner dc_col ac_col acoff_col kw;
            f ← scipy.interp1d energy_tmp xanes_tmp scipy.linear NaN false;
            row ← f energy;
            xanes ← np2.vstack xanes row;
            g ← scipy.interp1d energy_tmp xmcd_tmp scipy.linear NaN false;
            row ← g energy;
            xmcd ← np2.vstack xmcd row;
            Ok (energy, xanes, xmcd)
        end;
      stack_lockin scans' s positioner dc_col ac_col acoff_col kw
                   (Some state')
  end.

Definition load_multi_lockin (scans : list scan_id) (s : source)
    (return_mean : bool) (positioner dc_col ac_col acoff_col : option string)
    (kw : kwargs)
    : result (array * ndarray * number_or_array
              * option (array * number_or_array)) :=
  state ← stack_lockin scans s positioner dc_col ac_col acoff_col kw None;
  '(energy, xanes, xmcd) ← or_raise state NameError;
  if return_mean then
    match xanes with
    | Arr2 ncols rows =>
        let xanes_std :=
          np.div_scalar (np2.std_axis0 ncols rows)
                        (F.sqrt (F.of_nat (length scans))) in
        let xanes := np2.mean_axis0 ncols rows in
        let xmcd_std :=
          nd.div_scalar (nd.std_axis0 xmcd)
                        (F.sqrt (F.of_nat (length scans))) in
        let xmcd := nd.mean_axis0 xmcd in
        Ok (energy, Arr1 xanes, xmcd, Some (xanes_std, xmcd_std))
    | Arr1 _ =>
        Ok (energy, xanes, Array xmcd,
            Some (np.zeros (np2.size xanes),
                  Array (Arr1 (np.zeros (np2.size xanes)))))
    end
  else Ok (energy, xanes, Array xmcd, None).

End loaders.

(** ** The store: arrays as objects

    The functions above compute with the contents of arrays.  To follow
    which array objects [normalize_absorption] creates and which it writes
    to, the same code is modelled once more over a store that maps a
    location to the contents of the array object at that location.  The
    collaborators are the same functions of contents as above: they read
    their arguments and return new objects. *)

Module heap.

Definition loc := nat.
Abbreviation store := (gmap nat array).

(** Computations that read and update the store, or raise. *)
Definition M (A : Type) : Type := store → result (A * store).

#[global] Instance M_ret : MRet M := λ A a σ, Ok (a, σ).
#[global] Instance M_bind : MBind M := λ A B f m σ,
  match m σ with
  | Ok (a, σ') => f a σ'
  | Raise e => Raise e
  end.

(** A computation on contents. *)
Definition lift {A} (r : result A) : M A := λ σ,
  match r with
  | Ok a => Ok (a, σ)
  | Raise e => Raise e
  end.

(** A new array object. *)
Definition alloc (a : array) : M loc := λ σ,
  let l := fresh (dom σ) in Ok (l, <[l := a]> σ).

(** The contents of an array object. *)
Definition read (l : loc) : M array := λ σ,
  match σ !! l with
  | Some a => Ok (a, σ)
  | None => Raise ExternalError
  end.

(** Assignment to the items of an existing array object. *)
Definition write (l : loc) (a : array) : M unit := λ σ,
  Ok ((), <[l := a]> σ).

(** [np.copy(a)]: a new object with the contents of [a]. *)
Definition copy (l : loc) : M loc :=
  a ← read l;
  alloc (np.copy a).

(** Values of a dictionary whose arrays are objects of the store. *)
Inductive hvalue :=
  | HFloat (x : float)
  | HInt (n : Z)
  | HRef (l : loc).

Abbreviation hdict := (gmap string hvalue).

(** The dictionary returned by a collaborator: every array in it is a new
    object. *)
Definition box (v : value) : M hvalue :=
  match v with
  | VFloat x => mret (HFloat x)
  | VInt n => mret (HInt n)
  | VArray a => l ← alloc a; mret (HRef l)
  end.

Fixpoint box_entries (l : list (string * value))
    : M (list (string * hvalue)) :=
  match l with
  | [] => mret []
  | (k, v) :: l' =>
      v' ← box v;
      l'' ← box_entries l';
      mret ((k, v') :: l'')
  end.

Definition box_dict (d : dict) : M hdict :=
  l ← box_entries (map_to_list d);
  mret (list_to_map l).

Definition getitem (d : hdict) (key : string) : result hvalue :=
  or_raise (d !! key) KeyError.

Definition as_float (v : hvalue) : result float :=
  match v with
  | HFloat x => Ok x
  | HInt n => Ok (Fin (IZR n))
  | HRef _ => Raise TypeError
  end.

Definition as_array (v : hvalue) : result loc :=
  match v with HRef l => Ok l | _ => Raise TypeError end.

Definition as_int (v : hvalue) : result Z :=
  match v with HInt n => Ok n | _ => Raise TypeError end.

Section normalization.

Context `{Lmfit}.
Context `{Float64}.
Variable preedge :
  array → array → option float → option float → option float → Z →
  option float → option float → option Z → result dict.

(** [_flatten_norm]: the indices are read off [energy]; the window is cut
    from copies of [energy] and [norm]; [flat] is a new array, and
    [flat[:ie0] = norm[:ie0]] assigns to its items in place. *)
Definition _flatten_norm (energy norm : loc) (e0 norm1 norm2 : float)
    (nnorm : Z) (fpars : option Parameters) : M loc :=
  en ← read energy;
  '(ie0, p1, p2) ← lift (_flatten_indices en e0 norm1 norm2);
  energy_copy ← copy energy;
  norm_copy ← copy norm;
  ec ← read energy_copy;
  nc ← read norm_copy;
  '(enx, mux) ← lift (larch.remove_nans2 (np.slice ec p1 p2)
                                         (np.slice nc p1 p2));
  best ← lift (_flatten_fit mux enx nnorm fpars);
  en ← read energy;
  at_ie0 ← lift (np.item (eval best en) ie0);
  nm ← read norm;
  contents ← lift (np.sub nm (np.sub_scalar (eval best en) at_ie0));
  flat ← alloc contents;
  nm ← read norm;
  fl ← read flat;
  assigned ← lift (np.assign_prefix fl ie0 (np.slice nm 0 ie0));
  write flat assigned;;
  mret flat.

Definition normalize_absorption (energy xanes : loc) (e0 : option float)
    (pre_range post_range : option (list (option float)))
    (pre_exponent : Z) (post_order : option Z)
    (fpars : option Parameters) : M hdict :=
  let pre_range := range_or_default pre_range in
  let post_range := range_or_default post_range in
  pre1 ← lift (or_raise (pre_range !! 0%nat) IndexError);
  pre2 ← lift (or_raise (pre_range !! 1%nat) IndexError);
  norm1 ← lift (or_raise (post_range !! 0%nat) IndexError);
  norm2 ← lift (or_raise (post_range !! 1%nat) IndexError);
  en ← read energy;
  mu ← read xanes;
  returned ← lift (preedge en mu e0 pre1 pre2 pre_exponent norm1 norm2
                           post_order);
  results ← box_dict returned;
  energy_copy ← copy energy;
  let results := <["energy" := HRef energy_copy]> results in
  raw ← copy xanes;
  let results := <["raw" := HRef raw]> results in
  norm ← lift (getitem results "norm" ≫= as_array);
  e0 ← lift (getitem results "e0" ≫= as_float);
  norm1 ← lift (getitem results "norm1" ≫= as_float);
  norm2 ← lift (getitem results "norm2" ≫= as_float);
  nnorm ← lift (getitem results "nnorm" ≫= as_int);
  flat ← _flatten_norm energy norm e0 norm1 norm2 nnorm fpars;
  mret (<["flat" := HRef flat]> results).

End normalization.

End heap.

(** ** Predicates of the specification *)

(** [i] is the first index of the minimum of [ds]. *)
Definition first_min (ds : list R) (i : nat) : Prop :=
  ∃ d, ds !! i = Some d
       ∧ (∀ j dj, ds !! j = Some dj → (d <= dj)%R)
       ∧ (∀ j dj, j < i → ds !! j = Some dj → (d < dj)%R).

(** The last index of [es] with a value at or below [t]. *)
Definition last_le (es : list R) (t : R) (i : nat) : Prop :=
  ∃ e, es !! i = Some e ∧ (e <= t)%R
       ∧ ∀ j ej, i < j → es !! j = Some ej → (t < ej)%R.

(** Strictly increasing energies. *)
Definition increasing (es : list R) : Prop :=
  ∀ i j ei ej, i < j → es !! i = Some ei → es !! j = Some ej → (ei < ej)%R.

(** The target [t] snaps to the sample of index [i] by nearest value: [i]
    is the first index at which [|es[i] - t|] is least.  On strictly
    increasing energies that is the nearer of the two samples around a
    target between two consecutive samples (the lower one on a tie), the
    first sample for a target below all samples, and the last sample for a
    target at or above it. *)
Definition snaps_nearest (es : list R) (t : R) (i : nat) : Prop :=
  first_min ((λ e, Rabs (e - t)) <$> es) i
  ∧ (∀ k a b, es !! k = Some a → es !! S k = Some b → (a <= t < b)%R →
       i = if decide (t - a <= b - t)%R then k else S k)
  ∧ (∀ a, es !! 0 = Some a → (t < a)%R → i = 0)
  ∧ (∀ b, last es = Some b → (b <= t)%R → S i = length es).

(** The target [t] snaps to the sample of index [i] by the search of
    [index_of]: to the last sample at or below the target (its floor) when
    there is one, which is the lower of the two samples around a target
    between two consecutive samples and the last sample for a target at or
    above it; and to the first sample, which lies after the target, when
    the target is below all samples. *)
Definition snaps_floor (es : list R) (t : R) (i : nat) : Prop :=
  ((∃ e, e ∈ es ∧ (e <= t)%R) → last_le es t i)
  ∧ (∀ k a b, es !! k = Some a → es !! S k = Some b → (a <= t < b)%R →
       i = k)
  ∧ (∀ a, es !! 0 = Some a → (t < a)%R → i = 0)
  ∧ (∀ b, last es = Some b → (b <= t)%R → S i = length es).

(** The value at [v] of the chord through [(a, ya)] and [(b, yb)]. *)
Definition lerp (a ya b yb v : R) : R := (ya + (yb - ya) / (b - a) * (v - a))%R.

(** [row] is the scan with energies [es] and values [ys] resampled onto
    [grid] by linear interpolation: at a grid energy outside the range of
    [es] the value is [NaN], at a grid energy between two consecutive
    samples of the scan (ends included) the value lies on their chord. *)
Definition resampled (es : list R) (ys grid row : array) : Prop :=
  length row = length grid
  ∧ ∀ j v r, grid !! j = Some (Fin v) → row !! j = Some r →
      (∀ lo hi, es !! 0 = Some lo → last es = Some hi →
                (v < lo ∨ hi < v)%R → r = NaN)
      ∧ (∀ k a b ya yb,
           es !! k = Some a → es !! S k = Some b →
           ys !! k = Some (Fin ya) → ys !! S k = Some (Fin yb) →
           (a <= v <= b)%R → r = Fin (lerp a ya b yb v)).

(** The points of a scan with finite energies. *)
Definition points (pts : list (R * float)) : list (float * float) :=
  (λ p, (Fin p.1, p.2)) <$> pts.

(** A value of a dictionary of contents and its counterpart in the store:
    the same number, or a location that holds the array. *)
Definition boxed (σ : heap.store) (v : value) (h : heap.hvalue) : Prop :=
  match v, h with
  | VFloat x, heap.HFloat y => x = y
  | VInt n, heap.HInt m => n = m
  | VArray a, heap.HRef l => σ !! l = Some a
  | _, _ => False
  end.

Definition boxed_dict (σ : heap.store) (d : dict) (hd : heap.hdict) : Prop :=
  ∀ k, match d !! k, hd !! k with
       | Some v, Some h => boxed σ v h
       | None, None => True
       | _, _ => False
       end.

Section loaded_scans.

Context {scan_id kwargs SpecDataFile catalog : Type}.
Variable load_table :
  scan_id → @source SpecDataFile catalog → kwargs → result table.
Variable is_Bluesky_specfile :
  @source SpecDataFile catalog → kwargs → result bool.

(** [scan] loads as a scan with the finite, strictly increasing energies
    [p.1], at least two of them, and with the values [p.2]. *)
Definition loads_as (s : @source SpecDataFile catalog)
    (positioner detector monitor : option string) (transmission : bool)
    (kw : kwargs) (scan : scan_id) (p : list R * array) : Prop :=
  load_absorption load_table is_Bluesky_specfile scan s positioner detector
                  monitor transmission kw = Ok (Fin <$> p.1, p.2)
  ∧ increasing p.1 ∧ 2 ≤ length p.1 ∧ length p.2 = length p.1.

End loaded_scans.
(** The absorption computed from the readings of the monitor and of the
    detector: [ln(monitor/detector)] in transmission mode,
    [detector/monitor] in fluorescence mode. *)
Definition absorption (transmission : bool) (mon det : array) : array :=
  if transmission then zip_with (λ mo de, F.log (mo / de)) mon det
  else zip_with (λ mo de, (de / mo)%fl) mon det.

(** The loop and the end that [load_multi_dichro] and [load_multi_lockin]
    have in common, over the loader [load] of one scan. *)
Section pair_aggregation.

Context {scan_id : Type}.
Variable load : scan_id → result (array * array * array).

Fixpoint stack_pair (scans : list scan_id)
    (state : option (array * ndarray * ndarray))
    : result (option (array * ndarray * ndarray)) :=
  match scans with
  | [] => Ok state
  | scan :: scans' =>
      state' ←
        match state with
        | None =>
            '(energy, xanes, xmcd) ← load scan;
            Ok (energy, Arr1 xanes, Arr1 xmcd)
        | Some (energy, xanes, xmcd) =>
            '(energy_tmp, xanes_tmp, xmcd_tmp) ← load scan;
            f ← scipy.interp1d energy_tmp xanes_tmp scipy.linear NaN false;
            row ← f energy;
            xanes ← np2.vstack xanes row;
            g ← scipy.interp1d energy_tmp xmcd_tmp scipy.linear NaN false;
            row ← g energy;
            xmcd ← np2.vstack xmcd row;
            Ok (energy, xanes, xmcd)
        end;
      stack_pair scans' (Some state')
  end.

Definition multi_pair (scans : list scan_id) (return_mean : bool)
    : result (array * ndarray * number_or_array
              * option (array * number_or_array)) :=
  state ← stack_pair scans None;
  '(energy, xanes, xmcd) ← or_raise state NameError;
  if return_mean then
    match xanes with
    | Arr2 ncols rows =>
        let xanes_std :=
          np.div_scalar (np2.std_axis0 ncols rows)
                        (F.sqrt (F.of_nat (length scans))) in
        let xanes := np2.mean_axis0 ncols rows in
        let xmcd_std :=
          nd.div_scalar (nd.std_axis0 xmcd)
                        (F.sqrt (F.of_nat (length scans))) in
        let xmcd := nd.mean_axis0 xmcd in
        Ok (energy, Arr1 xanes, xmcd, Some (xanes_std, xmcd_std))
    | Arr1 _ =>
        Ok (energy, xanes, Array xmcd,
            Some (np.zeros (np2.size xanes),
                  Array (Arr1 (np.zeros (np2.size xanes)))))
    end
  else Ok (energy, xanes, Array xmcd, None).

(** The shapes of a result of the aggregation of the scans
    [scan0 :: scans], of which the first loads as
    [(energy, xanes0, xmcd0)]. *)
Definition pair_shapes (n_scans : nat) (return_mean : bool)
    (energy xanes0 xmcd0 : array) (xanes : ndarray) (xmcd : number_or_array)
    (stds : option (array * number_or_array)) : Prop :=
  match n_scans with
  | 0 =>
      xanes = Arr1 xanes0 ∧ xmcd = Array (Arr1 xmcd0)
      ∧ stds = (if return_mean
                then Some (np.zeros (length xanes0),
                           Array (Arr1 (np.zeros (length xanes0))))
                else None)
  | S _ =>
      length xanes0 = length energy ∧ length xmcd0 = length energy
      ∧ if return_mean
        then ∃ xanes_mean xmcd_mean xanes_std xmcd_std,
               xanes = Arr1 xanes_mean ∧ xmcd = Array (Arr1 xmcd_mean)
               ∧ stds = Some (xanes_std, Array (Arr1 xmcd_std))
               ∧ length xanes_mean = length energy
               ∧ length xmcd_mean = length energy
               ∧ length xanes_std = length energy
               ∧ length xmcd_std = length energy
        else ∃ xanes_rows xmcd_rows,
               xanes = Arr2 (length energy) (xanes0 :: xanes_rows)
               ∧ xmcd = Array (Arr2 (length energy) (xmcd0 :: xmcd_rows))
               ∧ stds = None
               ∧ length xanes_rows = n_scans
               ∧ length xmcd_rows = n_scans
               ∧ Forall (λ row, length row = length energy) xanes_rows
               ∧ Forall (λ row, length row = length energy) xmcd_rows
  end.

End pair_aggregation.

(** The pairs of [a] and [b], position by position, in which both values
    are finite. *)
Definition finite_pairs (a b : array) : list (float * float) :=
  filter (λ p, F.isfinite p.1 && F.isfinite p.2) (zip a b).

(** What is left of [l] without the positions at which [mask] holds. *)
Fixpoint unmasked {A} (mask : list bool) (l : list A) : list A :=
  match mask, l with
  | b :: mask', x :: l' =>
      if b then unmasked mask' l' else x :: unmasked mask' l'
  | _, _ => []
  end.


(** * Data for running the code

    A table loader that takes the table itself as the scan identifier, and
    a check of the spec-file origin that finds no spec file. *)

Definition table_loader (scan : table) (s : @source unit unit) (kw : unit)
    : result table := Ok scan.

Definition no_spec_file (s : @source unit unit) (kw : unit) : result bool :=
  Raise NotASpecDataFile.

Definition bluesky_table (energy ic4 ic5 : array) : table :=
  list_to_map [("monochromator_energy", energy); ("Ion Ch 4", ic4);
               ("Ion Ch 5", ic5)].

(** A fitting collaborator for runs on concrete spectra.  Degree 0 gives
    the mean of the samples, the least-squares constant.  Degree 1 gives
    the line through the first and the last sample, which is the
    least-squares line when the samples are collinear, as they are in the
    runs below.  As in lmfit, whose guess is [np.polyfit] and whose fit is
    SciPy's [leastsq], an empty window is refused and so is a fit with
    fewer samples than coefficients (a line through one sample), while a
    constant is fitted to a single sample; higher degrees are not
    included. *)
Definition least_squares (degree : Z) (data x : array) : result (list float) :=
  match degree with
  | 0%Z => match data with
           | [] => Raise TypeError
           | _ => Ok [np2.mean data]
           end
  | 1%Z => match x, data, last x, last data with
           | xf :: _ :: _, yf :: _ :: _, Some xl, Some yl =>
               let c1 := ((yl - yf) / (xl - xf))%fl in
               Ok [(yf - c1 * xf)%fl; c1]
           | _, _, _, _ => Raise TypeError
           end
  | _ => Raise ExternalError
  end.

Definition least_squares_lmfit : Lmfit := {|
  Model := Z;
  Parameters := list float;
  PolynomialModel n :=
    if decide (0 ≤ n ≤ 7)%Z then Ok n else Raise TypeError;
  params_empty p := match p with [] => true | _ => false end;
  guess model data x := least_squares model data x;
  fit model data params x kws := least_squares model data x;
|}.

(** A pre-edge collaborator for runs on spectra that are normalised
    already.  As [larch.xafs.preedge] does, it resolves the edge energy to
    a sample, [energy[index_nearest(energy, e0)]]; it takes the post-edge
    window and the degree as given and returns [mu] as the normalised
    curve. *)
Definition given_preedge (energy mu : array) (e0 pre1 pre2 : option float)
    (nvict : Z) (norm1 norm2 : option float) (nnorm : option Z)
    : result dict :=
  e0 ← or_raise e0 ValueError;
  ie0 ← larch.index_nearest energy e0;
  e0 ← np.item energy ie0;
  norm1 ← or_raise norm1 ValueError;
  norm2 ← or_raise norm2 ValueError;
  nnorm ← or_raise nnorm ValueError;
  Ok (list_to_map [("e0", VFloat e0); ("norm", VArray mu);
                   ("norm1", VFloat norm1); ("norm2", VFloat norm2);
                   ("nnorm", VInt nnorm)]).

(** Sums without rounding, for runs on numbers whose sums [float64]
    holds exactly or for which the rounding does not move the sum past a
    sample. *)
#[global] Instance exact_sums : Float64 := {| round64 := λ r, r |}.

(** A normalised spectrum that rises by one per unit of energy. *)
Definition ramp_energy : array := [Fin 0; Fin 1; Fin 2; Fin 3].
Definition ramp_norm : array := [Fin 0; Fin 1; Fin 2; Fin 3].

(** Three scans in fluorescence mode: [detector/monitor] is 1, 2, 3 at the
    energies 1, 2, 3; it is 2, 4 at the energies 2, 4; and with a monitor
    reading of zero it is infinite at the energy 1. *)
Definition scan_123 : table :=
  bluesky_table [Fin 1; Fin 2; Fin 3] [Fin 1; Fin 1; Fin 1]
                [Fin 1; Fin 2; Fin 3].

Definition scan_24 : table :=
  bluesky_table [Fin 2; Fin 4] [Fin 1; Fin 1] [Fin 2; Fin 4].

Definition scan_zero_monitor : table :=
  bluesky_table [Fin 1; Fin 2] [Fin 0; Fin 1] [Fin 1; Fin 1].

(** The dictionaries of a run of [normalize_absorption] on the ramp, with
    the edge on the sample of energy 1. *)
Definition ramp_preedge : dict :=
  list_to_map [("e0", VFloat (Fin 1)); ("norm", VArray ramp_norm);
               ("norm1", VFloat (Fin 0.6)); ("norm2", VFloat (Fin 2));
               ("nnorm", VInt 1)].

Definition ramp_results : dict :=
  <["flat" := VArray [Fin 0; Fin 1; Fin 1; Fin 1]]>
    (<["raw" := VArray ramp_norm]>
       (<["energy" := VArray ramp_energy]> ramp_preedge)).

(** A store with the ramp: energies at location 0, values at location 1. *)
Definition ramp_store : heap.store :=
  <[0 := ramp_energy]> (<[1 := ramp_norm]> ∅).

(** A check of the origin that finds a file written by SPEC, and tables
    with the columns of SPEC: a lock-in scan, a dichroism scan with the
    two helicities side by side, and a table without detector column. *)
Definition spec_origin (s : @source unit unit) (kw : unit) : result bool :=
  Ok false.

Definition lockin_table : table :=
  list_to_map [("Energy", [Fin 1; Fin 2]); ("Lock DC", [Fin 5; Fin 6]);
               ("Lock AC", [Fin 3; Fin 4]); ("Lock ACoff", [Fin 1; Fin 1])].

Definition dichro_table : table :=
  list_to_map [("Energy", [Fin 1; Fin 2]);
               ("IC4(+)", [Fin 1; Fin 1]); ("IC5(+)", [Fin 2; Fin 4]);
               ("IC4(-)", [Fin 1; Fin 1]); ("IC5(-)", [Fin 4; Fin 2])].

Definition no_detector_table : table :=
  list_to_map [("monochromator_energy", [Fin 1; Fin 2]);
               ("Ion Ch 4", [Fin 1; Fin 1])].

(** A scan at the energies 1, 2, 3 with [detector/monitor] 2, 4, 6. *)
Definition scan_246 : table :=
  bluesky_table [Fin 1; Fin 2; Fin 3] [Fin 1; Fin 1; Fin 1]
                [Fin 2; Fin 4; Fin 6].

(** A second lock-in scan and a second dichroism scan at the energies of
    the first. *)
Definition lockin_table_2 : table :=
  list_to_map [("Energy", [Fin 1; Fin 2]); ("Lock DC", [Fin 7; Fin 6]);
               ("Lock AC", [Fin 5; Fin 4]); ("Lock ACoff", [Fin 1; Fin 1])].

Definition dichro_table_2 : table :=
  list_to_map [("Energy", [Fin 1; Fin 2]);
               ("IC4(+)", [Fin 1; Fin 1]); ("IC5(+)", [Fin 4; Fin 4]);
               ("IC4(-)", [Fin 1; Fin 1]); ("IC5(-)", [Fin 4; Fin 6])].

(** * Tactics for runs on concrete numbers *)

Ltac rsolve :=
  first [ lia | unfold Rabs in *; repeat (destruct (Rcase_abs _)); lra ].

Ltac fstep :=
  match goal with
  | |- context [bool_decide ?P] =>
      first [ rewrite (bool_decide_eq_true_2 P) by rsolve
            | rewrite (bool_decide_eq_false_2 P) by rsolve ]
  | |- context [decide ?P] =>
      first [ rewrite (decide_True (P:=P)) by rsolve
            | rewrite (decide_False (P:=P)) by rsolve ]
  end.

Ltac feval :=
  repeat (progress (cbn; unfold F.leb, F.ltb, F.eqb, F.signed_inf; cbn;
                    try fstep)).

Ltac fin_eq :=
  repeat match goal with
         | |- Ok _ = Ok _ => f_equal
         | |- Some _ = Some _ => f_equal
         | |- (_, _) = (_, _) => f_equal
         | |- Arr1 _ = Arr1 _ => f_equal
         | |- Arr2 _ _ = Arr2 _ _ => f_equal
         | |- _ :: _ = _ :: _ => f_equal
         | |- Fin _ = Fin _ => f_equal; first [ lra | field; lra | field ]
         end.

(** * Properties *)

(** ** The error monad *)

Lemma bind_Ok {A B} (f : A → result B) (m : result A) (b : B) :
  m ≫= f = Ok b ↔ ∃ a, m = Ok a ∧ f a = Ok b.
Proof.
  destruct m as [a|e]; simpl; split.
  - intros Hf. by exists a.
  - by intros (a' & [= <-] & Hf).
  - done.
  - by intros (a' & [=] & _).
Qed.

Lemma broadcast_same_length f (a b : array) :
  length a = length b → np.broadcast f a b = Ok (zip_with f a b).
Proof. intros Hlen. unfold np.broadcast. by rewrite decide_True. Qed.

(** ** Reshaping *)

Lemma length_chunks nrows ncols (a : array) :
  length (np2.chunks nrows ncols a) = nrows.
Proof. revert a. induction nrows; intros a; simpl; auto. Qed.

Lemma chunks_row_length nrows ncols (a : array) :
  length a = (nrows * ncols)%nat →
  Forall (λ row, length row = ncols) (np2.chunks nrows ncols a).
Proof.
  revert a. induction nrows as [|n IH]; intros a Hlen; simpl; [done|].
  constructor.
  - rewrite length_take. simpl in Hlen. lia.
  - apply IH. rewrite length_drop. simpl in Hlen. lia.
Qed.

Lemma mapM_Ok_length {A B} (f : A → result B) (l : list A) :
  Forall (λ x, is_Ok (f x)) l →
  ∃ l', mapM (M := result) f l = Ok l' ∧ length l' = length l.
Proof.
  induction 1 as [|x l [y Hy] _ (l' & IH & Hlen)]; simpl.
  - by exists [].
  - rewrite Hy. simpl. rewrite IH. simpl. exists (y :: l'). simpl. auto.
Qed.

Lemma take_columns_chunks nrows (a : array) (idx : list nat) :
  length a = (nrows * 4)%nat →
  Forall (λ j, j < 4)%nat idx →
  ∃ cols, np2.take_columns (np2.chunks nrows 4 a) idx = Ok cols
          ∧ length cols = nrows.
Proof.
  intros Hlen Hidx.
  destruct (mapM_Ok_length
              (λ row, mapM (M := result) (λ j, np.item row j) idx)
              (np2.chunks nrows 4 a)) as (cols & Hcols & Hl).
  - eapply Forall_impl; [by apply chunks_row_length|].
    intros row Hrow. simpl.
    destruct (mapM_Ok_length (λ j, np.item row j) idx) as (r & Hr & _).
    + eapply Forall_impl; [exact Hidx|]. intros j Hj. simpl in *.
      destruct (lookup_lt_is_Some_2 row j) as [v Hv]; [lia|].
      exists v. unfold np.item. by rewrite Hv.
    + by exists r.
  - exists cols. split; [done|]. by rewrite Hl, length_chunks.
Qed.
Section loaders_facts.

Context {scan_id kwargs SpecDataFile catalog : Type}.
Variable load_table :
  scan_id → @source SpecDataFile catalog → kwargs → result table.
Variable is_Bluesky_specfile :
  @source SpecDataFile catalog → kwargs → result bool.

(** C8: when the check of the spec-file origin raises [NotASpecDataFile]
    or [SpecDataFileNotFound], the selection of the default column names
    does not raise: it returns the Bluesky names. *)
Theorem select_default_names_catches s kw e :
  is_Bluesky_specfile s kw = Raise e →
  e = NotASpecDataFile ∨ e = SpecDataFileNotFound →
  _select_default_names is_Bluesky_specfile s kw = Ok _bluesky_default_cols.
Proof.
  intros Hraise He. unfold _select_default_names.
  destruct (is_str_or_spec s); [|done].
  rewrite Hraise. simpl. by destruct He as [-> | ->].
Qed.

(** C5: [load_absorption] returns the positioner column together with
    [ln(monitor/detector)] in transmission mode and with
    [detector/monitor] in fluorescence mode, item by item. *)
Theorem load_absorption_ratio scan s positioner detector monitor
    (transmission : bool) kw defaults tbl p d m x mons dets :
  _select_default_names is_Bluesky_specfile s kw = Ok defaults →
  name_or positioner (lookup_key defaults "positioner") = Ok p →
  name_or detector (lookup_key defaults "detector") = Ok d →
  name_or monitor (lookup_key defaults "monitor") = Ok m →
  load_table scan s kw = Ok tbl →
  tbl !! p = Some x → tbl !! m = Some mons → tbl !! d = Some dets →
  length mons = length dets →
  load_absorption load_table is_Bluesky_specfile scan s positioner detector
                  monitor transmission kw
  = Ok (x, if transmission
           then zip_with (λ mo de, F.log (mo / de)) mons dets
           else zip_with (λ mo de, (de / mo)%fl) mons dets).
Proof.
  intros Hsel Hp Hd Hm Htbl Hx Hmon Hdet Hlen. unfold load_absorption.
  rewrite Hsel. simpl. rewrite Hp. simpl. rewrite Hd. simpl.
  rewrite Hm. simpl. rewrite Htbl. simpl.
  unfold lookup_key. rewrite Hx. simpl.
  destruct transmission; rewrite Hmon, Hdet; simpl.
  - unfold np.div. rewrite broadcast_same_length by done. simpl.
    do 2 f_equal. clear. revert dets.
    induction mons as [|mo mons IH]; intros [|de dets]; simpl; f_equal; auto.
  - unfold np.div. rewrite broadcast_same_length by done. simpl.
    do 2 f_equal. clear. revert dets.
    induction mons as [|mo mons IH]; intros [|de dets]; simpl; f_equal; auto.
Qed.

(** C10: for a sequence of exactly one scan and [return_mean=True],
    [load_multi_xas] returns the energy and the absorption of the scan as
    loaded, and a standard error of zeros of the length of the
    absorption. *)
Theorem load_multi_xas_single scan s positioner detector monitor
    transmission kw energy xanes :
  load_absorption load_table is_Bluesky_specfile scan s positioner detector
                  monitor transmission kw = Ok (energy, xanes) →
  load_multi_xas load_table is_Bluesky_specfile [scan] s true positioner
                 detector monitor transmission kw
  = Ok (energy, Arr1 xanes, Some (replicate (length xanes) (Fin 0))).
Proof.
  intros Hload. unfold load_multi_xas. simpl. by rewrite Hload.
Qed.

(** C2 (as amended): in the branch of [load_dichro] that is not for the
    columns of SPEC, a scan whose number of samples is not a multiple of
    4 makes the reshape raise [ValueError]: no sample is dropped and
    nothing is returned.  A scan of [4 * k] samples gives three arrays of
    length [k]. *)
Theorem load_dichro_reshape scan s positioner detector monitor
    transmission kw x0 y0 :
  _in_spec_columns is_Bluesky_specfile s kw = Ok false →
  load_absorption load_table is_Bluesky_specfile scan s positioner detector
                  monitor transmission kw = Ok (x0, y0) →
  length y0 = length x0 →
  (length x0 `mod` 4 ≠ 0 →
   load_dichro load_table is_Bluesky_specfile scan s positioner detector
               monitor transmission kw = Raise ValueError)
  ∧ (∀ k, length x0 = 4 * k →
     ∃ x xanes xmcd,
       load_dichro load_table is_Bluesky_specfile scan s positioner
                   detector monitor transmission kw = Ok (x, xanes, xmcd)
       ∧ length x = k ∧ length xanes = k ∧ length xmcd = k).
Proof.
  intros Hbranch Hload Hlen. unfold load_dichro.
  rewrite Hbranch. cbn [mbind result_bind]. rewrite Hload.
  cbn [mbind result_bind]. split.
  - intros Hmod.
    assert (np2.reshape x0 (length x0 / 4) 4 = Raise ValueError) as ->; [|done].
    unfold np2.reshape. rewrite decide_False; [done|].
    intros Heq. apply Hmod. rewrite Heq at 1. apply Nat.Div0.mod_mul.
  - intros k Hk.
    assert (length x0 / 4 = k) as ->.
    { rewrite Hk, Nat.mul_comm. by apply Nat.div_mul. }
    unfold np2.reshape. rewrite !decide_True by lia.
    cbn [mbind result_bind].
    destruct (take_columns_chunks k y0 [0; 3]) as (c03 & -> & Hc03).
    { lia. } { repeat constructor; lia. }
    destruct (take_columns_chunks k y0 [1; 2]) as (c12 & -> & Hc12).
    { lia. } { repeat constructor; lia. }
    cbn [mbind result_bind]. unfold np.sub, np2.mean_axis1.
    rewrite broadcast_same_length by (rewrite !length_map; lia).
    cbn [mbind result_bind].
    eexists _, _, _. split; [done|].
    rewrite length_zip_with, !length_map, !length_chunks. lia.
Qed.

End loaders_facts.

Lemma select_default_names_catches_witness :
  _select_default_names no_spec_file (SourceStr "csv") ()
  = Ok _bluesky_default_cols.
Proof.
  apply (select_default_names_catches no_spec_file (SourceStr "csv") ()
           NotASpecDataFile); [reflexivity | by left].
Defined.


(** Runs of the loaders on concrete tables. *)

Lemma load_two_samples :
  load_absorption table_loader no_spec_file
    (bluesky_table [Fin 1; Fin 2] [Fin 4; Fin 6] [Fin 2; Fin 3])
    (SourceStr "csv") None None None false ()
  = Ok ([Fin 1; Fin 2], [Fin 2 / Fin 4; Fin 3 / Fin 6]%fl).
Proof. reflexivity. Qed.

Lemma load_absorption_ratio_witness :
  load_absorption table_loader no_spec_file
    (bluesky_table [Fin 1; Fin 2] [Fin 4; Fin 6] [Fin 2; Fin 3])
    (SourceStr "csv") None None None false ()
  = Ok ([Fin 1; Fin 2], [Fin 2 / Fin 4; Fin 3 / Fin 6]%fl).
Proof.
  apply (load_absorption_ratio table_loader no_spec_file
           (bluesky_table [Fin 1; Fin 2] [Fin 4; Fin 6] [Fin 2; Fin 3])
           (SourceStr "csv") None None None false () _bluesky_default_cols
           (bluesky_table [Fin 1; Fin 2] [Fin 4; Fin 6] [Fin 2; Fin 3])
           "monochromator_energy" "Ion Ch 5" "Ion Ch 4"
           [Fin 1; Fin 2] [Fin 4; Fin 6] [Fin 2; Fin 3]);
    reflexivity.
Defined.

Lemma load_multi_xas_single_witness :
  load_multi_xas table_loader no_spec_file
    [bluesky_table [Fin 1; Fin 2] [Fin 4; Fin 6] [Fin 2; Fin 3]]
    (SourceStr "csv") true None None None false ()
  = Ok ([Fin 1; Fin 2], Arr1 [Fin 2 / Fin 4; Fin 3 / Fin 6]%fl,
        Some [Fin 0; Fin 0]).
Proof.
  apply (load_multi_xas_single table_loader no_spec_file
           (bluesky_table [Fin 1; Fin 2] [Fin 4; Fin 6] [Fin 2; Fin 3])
           (SourceStr "csv") None None None false ()
           [Fin 1; Fin 2] [Fin 2 / Fin 4; Fin 3 / Fin 6]%fl).
  exact load_two_samples.
Defined.

(** A scan of five samples and a scan of four samples. *)
Definition five_samples : table :=
  bluesky_table [Fin 1; Fin 2; Fin 3; Fin 4; Fin 5]
                [Fin 1; Fin 1; Fin 1; Fin 1; Fin 1]
                [Fin 1; Fin 2; Fin 3; Fin 4; Fin 5].

Definition four_samples : table :=
  bluesky_table [Fin 1; Fin 2; Fin 3; Fin 4]
                [Fin 1; Fin 1; Fin 1; Fin 1]
                [Fin 1; Fin 2; Fin 3; Fin 4].

(** C2, counterexample: a scan of five samples is not truncated to one
    group of four: [load_dichro] raises [ValueError]. *)
Lemma load_dichro_five_samples :
  load_dichro table_loader no_spec_file five_samples (SourceStr "csv")
              None None None false ()
  = Raise ValueError.
Proof. reflexivity. Qed.

Lemma load_dichro_reshape_witness :
  (5 `mod` 4 ≠ 0 →
   load_dichro table_loader no_spec_file five_samples (SourceStr "csv")
               None None None false () = Raise ValueError)
  ∧ (∀ k, 5 = 4 * k →
     ∃ x xanes xmcd,
       load_dichro table_loader no_spec_file five_samples (SourceStr "csv")
                   None None None false () = Ok (x, xanes, xmcd)
       ∧ length x = k ∧ length xanes = k ∧ length xmcd = k).
Proof.
  apply (load_dichro_reshape table_loader no_spec_file five_samples
           (SourceStr "csv") None None None false ()
           [Fin 1; Fin 2; Fin 3; Fin 4; Fin 5]
           (zip_with F.div [Fin 1; Fin 2; Fin 3; Fin 4; Fin 5]
                     [Fin 1; Fin 1; Fin 1; Fin 1; Fin 1]));
    reflexivity.
Defined.

(** ** Comparisons of finite numbers *)

Lemma leb_Fin (a b : R) : (Fin a <=? Fin b)%fl = bool_decide (a <= b)%R.
Proof.
  unfold F.leb, F.ltb, F.eqb.
  repeat case_bool_decide; simpl; try done; lra.
Qed.

Lemma ltb_Fin (a b : R) : (Fin a <? Fin b)%fl = bool_decide (a < b)%R.
Proof. done. Qed.

(** ** [argmin]: the first index of the minimum *)

Lemma first_min_unique ds i i' : first_min ds i → first_min ds i' → i = i'.
Proof.
  intros (d & Hd & Hmin & Hfirst) (d' & Hd' & Hmin' & Hfirst').
  destruct (Nat.lt_trichotomy i i') as [Hlt | [-> | Hlt]]; [|done|].
  - specialize (Hfirst' _ _ Hlt Hd). specialize (Hmin _ _ Hd'). lra.
  - specialize (Hfirst _ _ Hlt Hd'). specialize (Hmin' _ _ Hd). lra.
Qed.

Lemma argmin_from_lt mp min_ind i (a : array) :
  min_ind < i → np.argmin_from mp min_ind i a < i + length a.
Proof.
  revert mp min_ind i. induction a as [|x a IH]; intros mp min_ind i Hlt; simpl.
  - lia.
  - destruct (F.isnan mp); [lia|].
    destruct (negb _).
    + specialize (IH x i (S i)). lia.
    + specialize (IH mp min_ind (S i)). lia.
Qed.

Lemma argmin_lt (a : array) i : np.argmin a = Ok i → i < length a.
Proof.
  destruct a as [|x a]; simpl; [done|]. intros [= <-].
  pose proof (argmin_from_lt x 0 1 a). lia.
Qed.

Lemma argmin_from_fin (ds : list R) (m : R) (min_ind i r : nat) :
  np.argmin_from (Fin m) min_ind i (Fin <$> ds) = r →
  (r = min_ind ∧ ∀ j dj, ds !! j = Some dj → (m <= dj)%R)
  ∨ (∃ j d, r = i + j ∧ ds !! j = Some d ∧ (d < m)%R
            ∧ (∀ j' dj, ds !! j' = Some dj → (d <= dj)%R)
            ∧ (∀ j' dj, j' < j → ds !! j' = Some dj → (d < dj)%R)).
Proof.
  revert m min_ind i. induction ds as [|x ds IH]; intros m min_ind i; simpl.
  - intros <-. left. split; [done|]. intros j dj. by rewrite lookup_nil.
  - rewrite leb_Fin. case_bool_decide as Hmx; simpl; intros Hr.
    + destruct (IH _ _ _ Hr) as [[-> Hall] | (j & d & -> & Hj & Hlt & Hmin & Hfirst)].
      * left. split; [done|]. intros [|j] dj; simpl; [intros [= <-]; lra | apply Hall].
      * right. exists (S j), d. split_and!; [lia|done|done|..].
        -- intros [|j'] dj; simpl; [intros [= <-]; lra | apply Hmin].
        -- intros [|j'] dj Hj'; simpl; [intros [= <-]; lra |].
           apply Hfirst. lia.
    + destruct (IH _ _ _ Hr) as [[-> Hall] | (j & d & -> & Hj & Hlt & Hmin & Hfirst)].
      * right. exists 0, x. split_and!; [lia|done|lra|..].
        -- intros [|j] dj; simpl; [intros [= <-]; lra | apply Hall].
        -- intros j' dj Hj'. lia.
      * right. exists (S j), d. split_and!; [lia|done|lra|..].
        -- intros [|j'] dj; simpl; [intros [= <-]; lra | apply Hmin].
        -- intros [|j'] dj Hj'; simpl; [intros [= <-]; lra |].
           apply Hfirst. lia.
Qed.

Lemma argmin_fin (ds : list R) :
  ds ≠ [] → ∃ i, np.argmin (Fin <$> ds) = Ok i ∧ first_min ds i.
Proof.
  destruct ds as [|x ds]; [done|]. intros _.
  change (np.argmin (Fin <$> x :: ds))
    with (Ok (np.argmin_from (Fin x) 0 1 (Fin <$> ds))).
  destruct (argmin_from_fin ds x 0 1 _ eq_refl)
    as [[Hr Hall] | (j & d & Hr & Hj & Hlt & Hmin & Hfirst)]; rewrite Hr.
  - exists 0. split; [done|]. exists x. split_and!; [done| |intros; lia].
    intros [|j] dj; simpl; [intros [= <-]; lra | apply Hall].
  - exists (S j). split; [done|]. exists d. split_and!; [done|..].
    + intros [|j'] dj; simpl; [intros [= <-]; lra | apply Hmin].
    + intros [|j'] dj Hj'; simpl; [intros [= <-]; lra |]. apply Hfirst. lia.
Qed.

(** ** [index_nearest] and [index_of] on finite arrays *)

Lemma index_nearest_fin (es : list R) (t : R) :
  larch.index_nearest (Fin <$> es) (Fin t)
  = np.argmin (Fin <$> ((λ e, Rabs (e - t)) <$> es)).
Proof.
  unfold larch.index_nearest, np.abs, np.sub_scalar. f_equal.
  rewrite <-!list_fmap_compose. done.
Qed.

Lemma index_nearest_first_min (es : list R) (t : R) :
  es ≠ [] →
  ∃ i, larch.index_nearest (Fin <$> es) (Fin t) = Ok i
       ∧ first_min ((λ e, Rabs (e - t)) <$> es) i.
Proof.
  intros Hne. rewrite index_nearest_fin. apply argmin_fin.
  by destruct es.
Qed.

Lemma py_min_fin (es : list R) :
  es ≠ [] →
  ∃ mn, py.min (Fin <$> es) = Ok (Fin mn) ∧ mn ∈ es
        ∧ ∀ e, e ∈ es → (mn <= e)%R.
Proof.
  destruct es as [|x es]; [done|]. intros _. rewrite fmap_cons.
  unfold py.min.
  assert (∀ m, ∃ mn,
            foldl (λ m y, if (y <? m)%fl then y else m) (Fin m) (Fin <$> es)
            = Fin mn
            ∧ (mn = m ∨ mn ∈ es) ∧ (mn <= m)%R
            ∧ ∀ e, e ∈ es → (mn <= e)%R) as Hfold.
  { induction es as [|y es IH]; intros m.
    - exists m. split_and!; [done|by left|lra|]. intros e He. by inversion He.
    - rewrite fmap_cons. cbn [foldl]. rewrite ltb_Fin.
      case_bool_decide as Hym.
      + destruct (IH y) as (mn & -> & Hin & Hle & Hall). exists mn.
        split_and!; [done| |lra|].
        * right. destruct Hin as [-> | Hin]; [left | by right].
        * intros e [-> | He]%elem_of_cons; [lra | by apply Hall].
      + destruct (IH m) as (mn & -> & Hin & Hle & Hall). exists mn.
        split_and!; [done| |lra|].
        * destruct Hin as [-> | Hin]; [by left | right; by right].
        * intros e [-> | He]%elem_of_cons; [lra | by apply Hall]. }
  destruct (Hfold x) as (mn & -> & Hin & Hle & Hall). exists mn.
  split_and!; [done| |].
  - destruct Hin as [-> | Hin]; [left | by right].
  - intros e [-> | He]%elem_of_cons; [lra | by apply Hall].
Qed.

Lemma elem_of_where_from i0 (mask : list bool) k :
  k ∈ np.where_from i0 mask ↔ ∃ j, k = i0 + j ∧ mask !! j = Some true.
Proof.
  revert i0. induction mask as [|b mask IH]; intros i0; simpl.
  - split; [by intros ?%elem_of_nil | by intros (j & _ & ?)].
  - destruct b; [rewrite elem_of_cons|]; rewrite IH; split.
    + intros [-> | (j & -> & Hj)]; [exists 0 | exists (S j)]; split; try done; lia.
    + intros ([|j] & -> & Hj); [left; lia | right; exists j; split; [lia | done]].
    + intros (j & -> & Hj). exists (S j). split; [lia | done].
    + intros ([|j] & -> & Hj); [done | exists j; split; [lia | done]].
Qed.

Lemma py_max_spec (l : list nat) :
  l ≠ [] → ∃ r, py.max l = Ok r ∧ r ∈ l ∧ ∀ k, k ∈ l → k ≤ r.
Proof.
  destruct l as [|x l]; [done|]. intros _. simpl.
  assert (∀ m, let r := foldl Nat.max m l in
               (r = m ∨ r ∈ l) ∧ m ≤ r ∧ ∀ k, k ∈ l → k ≤ r) as Hfold.
  { induction l as [|y l IH]; intros m; simpl.
    - split_and!; [by left | lia |]. intros k Hk. by inversion Hk.
    - destruct (IH (m `max` y)) as (Hin & Hle & Hall). split_and!.
      + destruct Hin as [-> | Hin]; [|right; by right].
        destruct (Nat.max_spec m y) as [[_ ->] | [_ ->]]; [right; left | by left].
      + lia.
      + intros k [-> | Hk]%elem_of_cons; [lia | by apply Hall]. }
  destruct (Hfold x) as (Hin & Hle & Hall). eexists. split; [done|]. split.
  - destruct Hin as [-> | Hin]; [left | by right].
  - intros k [-> | Hk]%elem_of_cons; [lia | by apply Hall].
Qed.

Lemma index_of_below (es : list R) (t : R) :
  es ≠ [] → (∀ e, e ∈ es → (t < e)%R) →
  larch.index_of (Fin <$> es) (Fin t) = Ok 0.
Proof.
  intros Hne Hall. unfold larch.index_of.
  destruct (py_min_fin es Hne) as (mn & -> & Hin & _). simpl.
  rewrite bool_decide_eq_true_2; [done|]. by apply Hall.
Qed.

Lemma index_of_last_le (es : list R) (t : R) e :
  e ∈ es → (e <= t)%R →
  ∃ i, larch.index_of (Fin <$> es) (Fin t) = Ok i ∧ last_le es t i.
Proof.
  intros Hin Hle. unfold larch.index_of.
  destruct (py_min_fin es) as (mn & -> & _ & Hmn).
  { intros ->. by apply elem_of_nil in Hin. }
  cbn [mbind result_bind]. rewrite ltb_Fin.
  rewrite bool_decide_eq_false_2 by (specialize (Hmn _ Hin); lra).
  set (mask := map (λ x, (x <=? Fin t)%fl) (Fin <$> es)).
  assert (∀ j, mask !! j = Some true ↔ ∃ ej, es !! j = Some ej ∧ (ej <= t)%R)
    as Hmask.
  { intros j. unfold mask.
    change (map ?f ?l) with (f <$> l).
    rewrite <-list_fmap_compose, list_lookup_fmap.
    destruct (es !! j) as [ej|]; simpl.
    - rewrite leb_Fin. split.
      + intros [= Hb%bool_decide_eq_true]. eauto.
      + intros (? & [= <-] & ?). by rewrite bool_decide_eq_true_2.
    - split; [done | by intros (? & ? & _)]. }
  destruct (py_max_spec (np.where_ mask)) as (r & -> & Hr & Hmax).
  { apply list_elem_of_lookup in Hin as [j Hj].
    assert (j ∈ np.where_ mask) as Hjin.
    { apply elem_of_where_from. exists j. split; [done|]. apply Hmask. eauto. }
    intros Heq. rewrite Heq in Hjin. by apply elem_of_nil in Hjin. }
  exists r. split; [done|].
  apply elem_of_where_from in Hr as (j & -> & Hj). simpl.
  apply Hmask in Hj as (ej & Hej & Hejt). exists ej. split_and!; [done..|].
  intros j' ej' Hlt Hej'. destruct (Rlt_dec t ej') as [|Hnlt]; [done|].
  assert (j' ∈ np.where_ mask) as Hin'.
  { apply elem_of_where_from. exists j'. split; [done|]. apply Hmask.
    exists ej'. split; [done | lra]. }
  apply Hmax in Hin'. simpl in Hin'. lia.
Qed.

(** ** Strictly increasing energies: snapping to the samples *)

Lemma increasing_le es i j ei ej :
  increasing es → i ≤ j → es !! i = Some ei → es !! j = Some ej →
  (ei <= ej)%R.
Proof.
  intros Hinc Hij Hi Hj. destruct (decide (i = j)) as [-> | Hne].
  - rewrite Hi in Hj. injection Hj as ->. lra.
  - apply Rlt_le. eapply Hinc; [|done..]. lia.
Qed.

Lemma index_of_between es t k a b :
  increasing es → es !! k = Some a → es !! S k = Some b →
  (a <= t < b)%R →
  larch.index_of (Fin <$> es) (Fin t) = Ok k.
Proof.
  intros Hinc Ha Hb [Hat Htb].
  destruct (index_of_last_le es t a) as (i & -> & e & He & Het & Hlast);
    [by eapply list_elem_of_lookup_2 | done |].
  f_equal. destruct (Nat.lt_trichotomy i k) as [Hlt | [-> | Hlt]]; [|done|].
  - specialize (Hlast _ _ Hlt Ha). lra.
  - assert (b <= e)%R by (eapply (increasing_le es (S k) i); [done|lia|done..]).
    lra.
Qed.

Lemma index_nearest_between es t k a b :
  increasing es → es !! k = Some a → es !! S k = Some b →
  (a <= t < b)%R →
  larch.index_nearest (Fin <$> es) (Fin t)
  = Ok (if decide (t - a <= b - t)%R then k else S k).
Proof.
  intros Hinc Ha Hb [Hat Htb].
  destruct (index_nearest_first_min es t) as (i & -> & Hi).
  { intros ->. by rewrite lookup_nil in Ha. }
  f_equal. eapply first_min_unique; [exact Hi|].
  assert (∀ j ej, es !! j = Some ej →
            (j ≤ k → Rabs (ej - t) = t - ej ∧ ej <= a)%R
            ∧ (S k ≤ j → Rabs (ej - t) = ej - t ∧ b <= ej)%R) as Hside.
  { intros j ej Hej. split; intros Hj.
    - assert (ej <= a)%R by (eapply (increasing_le es j k); done).
      split; [|done]. rewrite Rabs_left1; lra.
    - assert (b <= ej)%R by (eapply (increasing_le es (S k) j); done).
      split; [|done]. rewrite Rabs_right; lra. }
  assert (∀ j ej, es !! j = Some ej → j < k → (ej < a)%R) as Hstrict.
  { intros j ej Hej Hj. by eapply (Hinc j k). }
  case_decide as Hnear.
  - exists (Rabs (a - t)). rewrite list_lookup_fmap, Ha. split_and!; [done|..].
    + intros j dj. rewrite list_lookup_fmap.
      destruct (es !! j) as [ej|] eqn:Hej; [|done]. intros [= <-].
      destruct (Hside _ _ Ha) as [[-> _] _]; [done|].
      destruct (Hside _ _ Hej) as [Hl Hr].
      destruct (decide (j ≤ k)) as [Hj | Hj].
      * destruct (Hl Hj) as [-> ?]. lra.
      * destruct Hr as [-> ?]; [lia|]. lra.
    + intros j dj Hj. rewrite list_lookup_fmap.
      destruct (es !! j) as [ej|] eqn:Hej; [|done]. intros [= <-].
      destruct (Hside _ _ Ha) as [[-> _] _]; [done|].
      destruct (Hside _ _ Hej) as [[-> ?] _]; [lia|].
      specialize (Hstrict _ _ Hej Hj). lra.
  - exists (Rabs (b - t)). rewrite list_lookup_fmap, Hb. split_and!; [done|..].
    + intros j dj. rewrite list_lookup_fmap.
      destruct (es !! j) as [ej|] eqn:Hej; [|done]. intros [= <-].
      destruct (Hside _ _ Hb) as [_ [-> _]]; [done|].
      destruct (Hside _ _ Hej) as [Hl Hr].
      destruct (decide (j ≤ k)) as [Hj | Hj].
      * destruct (Hl Hj) as [-> ?]. lra.
      * destruct Hr as [-> ?]; [lia|]. lra.
    + intros j dj Hj. rewrite list_lookup_fmap.
      destruct (es !! j) as [ej|] eqn:Hej; [|done]. intros [= <-].
      destruct (Hside _ _ Hb) as [_ [-> _]]; [done|].
      destruct (Hside _ _ Hej) as [[-> ?] _]; [lia|]. lra.
Qed.

Lemma index_of_lt (es : list R) (t : R) i :
  larch.index_of (Fin <$> es) (Fin t) = Ok i → i < length es.
Proof.
  intros Hi. destruct es as [|e0 es]; [done|].
  destruct (decide (Exists (λ e, e <= t)%R (e0 :: es))) as [Hex | Hall].
  - apply Exists_exists in Hex as (e & Hin & Hle).
    destruct (index_of_last_le (e0 :: es) t e Hin Hle)
      as (i' & Hi' & e' & He' & _).
    rewrite Hi in Hi'. injection Hi' as <-. by eapply lookup_lt_Some.
  - rewrite index_of_below in Hi.
    + injection Hi as <-. simpl. lia.
    + done.
    + intros e He. destruct (Rlt_le_dec t e) as [|Hle]; [done|].
      destruct Hall. apply Exists_exists. by exists e.
Qed.

Lemma index_nearest_snaps (es : list R) (t : R) :
  increasing es → es ≠ [] →
  ∃ i, larch.index_nearest (Fin <$> es) (Fin t) = Ok i ∧ snaps_nearest es t i.
Proof.
  intros Hinc Hne.
  destruct (index_nearest_first_min es t Hne) as (i & Hi & Hmin).
  exists i. split; [done|]. split_and!; [done|..].
  - intros k a b Ha Hb Ht.
    rewrite (index_nearest_between es t k a b) in Hi by done.
    by injection Hi.
  - intros a Ha Hta. eapply first_min_unique; [exact Hmin|].
    exists (Rabs (a - t)). rewrite list_lookup_fmap, Ha. split_and!; [done| |].
    + intros j dj. rewrite list_lookup_fmap.
      destruct (es !! j) as [ej|] eqn:Hej; [|done]. intros [= <-].
      assert (a <= ej)%R by (eapply (increasing_le es 0 j); [done|lia|done..]).
      rewrite !Rabs_right by lra. lra.
    + intros j dj Hj. lia.
  - intros b Hb Hbt. rewrite last_lookup in Hb.
    assert (pred (length es) < length es) as Hlt by by eapply lookup_lt_Some.
    cut (i = pred (length es)); [lia|].
    eapply first_min_unique; [exact Hmin|].
    exists (Rabs (b - t)). rewrite list_lookup_fmap, Hb. split_and!; [done| |].
    + intros j dj. rewrite list_lookup_fmap.
      destruct (es !! j) as [ej|] eqn:Hej; [|done]. intros [= <-].
      assert (ej <= b)%R.
      { eapply (increasing_le es j (pred (length es))); [done| |done..].
        apply lookup_lt_Some in Hej. lia. }
      rewrite !Rabs_left1 by lra. lra.
    + intros j dj Hj. rewrite list_lookup_fmap.
      destruct (es !! j) as [ej|] eqn:Hej; [|done]. intros [= <-].
      assert (ej < b)%R by (by eapply (Hinc j (pred (length es)))).
      rewrite !Rabs_left1 by lra. lra.
Qed.

Lemma index_of_snaps (es : list R) (t : R) :
  increasing es → es ≠ [] →
  ∃ i, larch.index_of (Fin <$> es) (Fin t) = Ok i ∧ snaps_floor es t i.
Proof.
  intros Hinc Hne.
  assert (∃ i, larch.index_of (Fin <$> es) (Fin t) = Ok i) as [i Hi].
  { destruct (decide (Exists (λ e, e <= t)%R es)) as [Hex | Hall].
    - apply Exists_exists in Hex as (e & Hin & Hle).
      destruct (index_of_last_le es t e Hin Hle) as (i & Hi & _). by exists i.
    - exists 0. apply index_of_below; [done|].
      intros e He. destruct (Rlt_le_dec t e) as [|Hle]; [done|].
      destruct Hall. apply Exists_exists. by exists e. }
  exists i. split; [done|]. split_and!.
  - intros (e & Hin & Hle).
    destruct (index_of_last_le es t e Hin Hle) as (i' & Hi' & Hlast).
    rewrite Hi in Hi'. by injection Hi' as <-.
  - intros k a b Ha Hb Ht.
    rewrite (index_of_between es t k a b) in Hi by done. by injection Hi.
  - intros a Ha Hta. rewrite index_of_below in Hi; [by injection Hi|done|].
    intros e [j Hj]%list_elem_of_lookup.
    assert (a <= e)%R by (eapply (increasing_le es 0 j); [done|lia|done..]).
    lra.
  - intros b Hb Hbt. rewrite last_lookup in Hb.
    assert (pred (length es) < length es) as Hlt by by eapply lookup_lt_Some.
    destruct (index_of_last_le es t b) as (i' & Hi' & e & He & Het & Hlast);
      [by eapply list_elem_of_lookup_2 | done |].
    rewrite Hi in Hi'. injection Hi' as <-.
    apply lookup_lt_Some in He as Hi_lt.
    destruct (decide (i = pred (length es))) as [-> | Hneq]; [lia|].
    assert (t < b)%R by (apply (Hlast (pred (length es))); [lia | done]).
    lra.
Qed.

Lemma StronglySorted_increasing (es : list R) :
  StronglySorted Rlt es → increasing es.
Proof.
  induction 1 as [|x es Hsorted IH Hall]; intros i j ei ej Hij Hi Hj.
  - by rewrite lookup_nil in Hi.
  - destruct j as [|j]; [lia|]. simpl in Hj. destruct i as [|i]; simpl in Hi.
    + injection Hi as <-. rewrite Forall_forall in Hall. apply Hall.
      by eapply list_elem_of_lookup_2.
    + eapply (IH i j); [lia|done..].
Qed.

(** ** The indices of the flattening *)

Section flatten_indices_facts.

Context `{Float64}.

Lemma flatten_indices_total (es : list R) (e0 norm1 norm2 : R) :
  es ≠ [] →
  ∃ ie0 p1 p2,
    _flatten_indices (Fin <$> es) (Fin e0) (Fin norm1) (Fin norm2)
    = Ok (ie0, p1, p2)
    ∧ ie0 < length es ∧ p1 < length es ∧ p2 < length es.
Proof.
  intros Hne. unfold _flatten_indices.
  destruct (index_nearest_first_min es e0 Hne) as (ie0 & Hie0 & d0 & Hd0 & _).
  assert (∃ p1, larch.index_of (Fin <$> es) (Fin (round64 (norm1 + e0)))
                = Ok p1) as [p1 Hp1].
  { destruct (decide (Exists (λ e, e <= round64 (norm1 + e0))%R es))
      as [Hex | Hall].
    - apply Exists_exists in Hex as (e & Hin & Hle).
      destruct (index_of_last_le es _ e Hin Hle) as (i & Hi & _). by exists i.
    - exists 0. apply index_of_below; [done|].
      intros e He.
      destruct (Rlt_le_dec (round64 (norm1 + e0)) e) as [|Hle]; [done|].
      destruct Hall. apply Exists_exists. by exists e. }
  destruct (index_nearest_first_min es (round64 (norm2 + e0)) Hne)
    as (p2 & Hp2 & d2 & Hd2 & _).
  exists ie0, p1, p2. rewrite Hie0. cbn [mbind result_bind fadd F.add].
  rewrite Hp1. cbn [mbind result_bind]. rewrite Hp2.
  split_and!; [done| | |].
  - apply lookup_lt_Some in Hd0. by rewrite length_fmap in Hd0.
  - by eapply index_of_lt.
  - apply lookup_lt_Some in Hd2. by rewrite length_fmap in Hd2.
Qed.


End flatten_indices_facts.

Lemma increasing_0123 : increasing [0; 1; 2; 3]%R.
Proof. apply StronglySorted_increasing. repeat constructor; lra. Qed.

(** A run with the targets 0.75, 1.25 and 2.25, sums that [float64] holds
    exactly: 0.75 is nearer to the sample 1, 1.25 has the sample 1 as its
    floor, and 2.25 is nearer to the sample 2. *)
Example flatten_indices_run :
  _flatten_indices [Fin 0; Fin 1; Fin 2; Fin 3] (Fin 0.75) (Fin 0.5) (Fin 1.5)
  = Ok (1, 1, 2).
Proof.
  unfold _flatten_indices, larch.index_nearest, larch.index_of. feval.
  reflexivity.
Qed.


(** ** Broadcasting and assignment to a prefix *)

Lemma broadcast_lookup f (a b c : array) i x y :
  np.broadcast f a b = Ok c →
  a !! i = Some x → b !! i = Some y → c !! i = Some (f x y).
Proof.
  unfold np.broadcast. intros Hc Hx Hy. case_decide as Hlen.
  - injection Hc as <-. by rewrite lookup_zip_with, Hx, Hy.
  - destruct a as [|x0 [|x1 a]].
    + by rewrite lookup_nil in Hx.
    + injection Hc as <-. destruct i as [|i]; [|done].
      injection Hx as ->. change (map ?g ?l) with (g <$> l).
      by rewrite list_lookup_fmap, Hy.
    + destruct b as [|y0 [|y1 b]]; [done| |done]. injection Hc as <-.
      destruct i as [|i]; [|done]. simpl in *. congruence.
Qed.

Lemma assign_prefix_lookup (dst src out : array) n :
  np.assign_prefix dst n (np.slice src 0 n) = Ok out →
  ∀ i, i < length dst →
    (i < n → ∀ v, src !! i = Some v → out !! i = Some v)
    ∧ (n ≤ i → out !! i = dst !! i).
Proof.
  unfold np.assign_prefix, np.slice. rewrite Nat.sub_0_r, drop_0.
  intros Hout i Hi. case_decide as Hlen.
  - injection Hout as <-. rewrite length_take in Hlen. split.
    + intros Hin v Hv. rewrite lookup_app_l by (rewrite length_take; lia).
      by rewrite lookup_take_lt.
    + intros Hni. rewrite lookup_app_r by (rewrite length_take; lia).
      rewrite lookup_drop, length_take. f_equal. lia.
  - destruct (take n src) as [|v0 [|v1 l]] eqn:Htake; [done| |done].
    injection Hout as <-. split.
    + intros Hin v Hv.
      assert (take n src !! i = Some v) as Hi' by by rewrite lookup_take_lt.
      rewrite Htake in Hi'. destruct i as [|i]; [|done]. injection Hi' as ->.
      rewrite lookup_app_l by (rewrite length_replicate; lia).
      apply lookup_replicate_2. lia.
    + intros Hni. rewrite lookup_app_r by (rewrite length_replicate; lia).
      rewrite lookup_drop, length_replicate. f_equal. lia.
Qed.

Lemma assign_prefix_same_length (dst src : array) n :
  length src = length dst →
  ∃ out, np.assign_prefix dst n (np.slice src 0 n) = Ok out
         ∧ length out = length dst.
Proof.
  intros Hlen. unfold np.assign_prefix, np.slice.
  rewrite Nat.sub_0_r, drop_0, decide_True by (rewrite length_take; lia).
  eexists. split; [done|].
  rewrite length_app, length_take, length_drop. lia.
Qed.

(** ** The flattened curve *)

Section normalization_facts.

Context `{Lmfit}.
Context `{Float64}.
Variable preedge :
  array → array → option float → option float → option float → Z →
  option float → option float → option Z → result dict.

Lemma flatten_norm_flattened energy norm e0 norm1 norm2 nnorm fpars flat :
  _flatten_norm energy norm e0 norm1 norm2 nnorm fpars = Ok flat →
  flattened energy norm e0 norm1 norm2 nnorm fpars flat.
Proof.
  unfold _flatten_norm. intros Hflat.
  apply bind_Ok in Hflat as ([[ie0 p1] p2] & Hidx & Hflat).
  apply bind_Ok in Hflat as ([enx mux] & Hnans & Hflat).
  apply bind_Ok in Hflat as (best & Hfit & Hflat).
  apply bind_Ok in Hflat as (at_ie0 & Hat & Hflat).
  apply bind_Ok in Hflat as (flat0 & Hsub & Hflat).
  unfold np.item in Hat.
  destruct (eval best energy !! ie0) as [v|] eqn:Hv; [|done].
  injection Hat as ->. unfold eval in Hv.
  change (map ?g ?l) with (g <$> l) in Hv. rewrite list_lookup_fmap in Hv.
  destruct (energy !! ie0) as [at_edge|] eqn:Hedge; [|done].
  injection Hv as <-.
  exists ie0, p1, p2, enx, mux, best, at_edge. split_and!; [done..| |].
  - intros i n e Hn He.
    assert (flat0 !! i
            = Some (n - (np.polyval best e - np.polyval best at_edge))%fl)
      as Hflat0.
    { eapply broadcast_lookup; [exact Hsub|done|].
      unfold np.sub_scalar, eval. change (map ?g ?l) with (g <$> l).
      by rewrite !list_lookup_fmap, He. }
    destruct (assign_prefix_lookup _ _ _ _ Hflat i) as [Hbefore Hafter].
    { by eapply lookup_lt_Some. }
    case_decide as Hi.
    + by apply Hbefore.
    + rewrite Hafter by lia. done.
  - intros es t -> -> Ht.
    unfold _flatten_indices in Hidx.
    apply bind_Ok in Hidx as (ie0' & Hie0 & Hidx).
    apply bind_Ok in Hidx as (p1' & _ & Hidx).
    apply bind_Ok in Hidx as (p2' & _ & [= -> _ _]).
    destruct (index_nearest_first_min es t) as (i & Hi & d & Hd & Hmin & _).
    { intros ->. by apply elem_of_nil in Ht. }
    rewrite Hi in Hie0. injection Hie0 as ->.
    rewrite list_lookup_fmap in Hedge. rewrite list_lookup_fmap in Hd.
    destruct (es !! ie0) as [e|] eqn:He; [|done].
    injection Hedge as <-. injection Hd as <-. f_equal.
    apply list_elem_of_lookup in Ht as [j Hj].
    specialize (Hmin j (Rabs (t - t))).
    rewrite list_lookup_fmap, Hj in Hmin. specialize (Hmin eq_refl).
    rewrite Rminus_diag, Rabs_R0 in Hmin.
    pose proof (Rabs_pos (e - t)).
    assert (Rabs (e - t) = 0)%R as Habs by lra.
    destruct (Req_dec (e - t) 0) as [|Hne]; [lra|].
    by apply Rabs_no_R0 in Hne.
Qed.

Lemma flatten_norm_returns energy norm e0 norm1 norm2 nnorm fpars
    ie0 p1 p2 enx mux best :
  length norm = length energy →
  _flatten_indices energy e0 norm1 norm2 = Ok (ie0, p1, p2) →
  larch.remove_nans2 (np.slice (np.copy energy) p1 p2)
                     (np.slice (np.copy norm) p1 p2) = Ok (enx, mux) →
  _flatten_fit mux enx nnorm fpars = Ok best →
  ∃ flat, _flatten_norm energy norm e0 norm1 norm2 nnorm fpars = Ok flat
          ∧ length flat = length norm ∧ ie0 < length energy.
Proof.
  intros Hlen Hidx Hnans Hfit. unfold _flatten_norm.
  rewrite Hidx. cbn [mbind result_bind]. rewrite Hnans.
  cbn [mbind result_bind]. rewrite Hfit. cbn [mbind result_bind].
  assert (ie0 < length energy) as Hie0.
  { unfold _flatten_indices in Hidx.
    apply bind_Ok in Hidx as (i & Hi & Hidx).
    apply bind_Ok in Hidx as (? & _ & Hidx).
    apply bind_Ok in Hidx as (? & _ & [= -> _ _]).
    apply argmin_lt in Hi. unfold np.abs, np.sub_scalar in Hi.
    by rewrite !length_map in Hi. }
  destruct (lookup_lt_is_Some_2 (eval best energy) ie0) as [v Hv].
  { unfold eval. by rewrite length_map. }
  unfold np.item. rewrite Hv. cbn [or_raise mbind result_bind].
  unfold np.sub. rewrite broadcast_same_length
    by (unfold np.sub_scalar, eval; by rewrite !length_map).
  cbn [mbind result_bind].
  destruct (assign_prefix_same_length
              (zip_with F.sub norm (np.sub_scalar (eval best energy) v))
              norm ie0) as (out & -> & Hout).
  { unfold np.sub_scalar, eval. rewrite length_zip_with, !length_map. lia. }
  exists out. split_and!; [done| |done]. rewrite Hout.
  unfold np.sub_scalar, eval. rewrite length_zip_with, !length_map. lia.
Qed.

(** C1: in the result of [normalize_absorption] on finite energies, with
    the resolved edge energy ['e0'] one of the sample energies (as
    [larch.xafs.preedge] resolves it), the entry ['flat'] equals the entry
    ['norm'] at every index before the edge index, and from the edge
    index on it is [norm[i] - (poly(energy[i]) - poly(e0))], where [poly]
    is the polynomial that [_flatten_norm] fitted to the usable samples of
    the post-edge window and the edge index is the index of the sample of
    energy [e0]. *)
Theorem normalize_absorption_flat (es : list R) xanes e0 pre_range post_range
    pre_exponent post_order fpars results (edge : R) :
  normalize_absorption preedge (Fin <$> es) xanes e0 pre_range post_range
                       pre_exponent post_order fpars = Ok results →
  getitem results "e0" ≫= as_float = Ok (Fin edge) →
  edge ∈ es →
  ∃ norm norm1 norm2 nnorm flat ie0 p1 p2 enx mux poly,
    results !! "norm" = Some (VArray norm)
    ∧ getitem results "norm1" ≫= as_float = Ok norm1
    ∧ getitem results "norm2" ≫= as_float = Ok norm2
    ∧ results !! "nnorm" = Some (VInt nnorm)
    ∧ results !! "flat" = Some (VArray flat)
    ∧ _flatten_indices (Fin <$> es) (Fin edge) norm1 norm2
      = Ok (ie0, p1, p2)
    ∧ es !! ie0 = Some edge
    ∧ larch.remove_nans2 (np.slice (np.copy (Fin <$> es)) p1 p2)
                         (np.slice (np.copy norm) p1 p2) = Ok (enx, mux)
    ∧ _flatten_fit mux enx nnorm fpars = Ok poly
    ∧ ∀ i n e, norm !! i = Some n → es !! i = Some e →
        flat !! i
        = Some (if decide (i < ie0) then n
                else n - (np.polyval poly (Fin e)
                          - np.polyval poly (Fin edge)))%fl.
Proof.
  unfold normalize_absorption. intros Hres Hresolved Hsample.
  apply bind_Ok in Hres as (pre1 & _ & Hres).
  apply bind_Ok in Hres as (pre2 & _ & Hres).
  apply bind_Ok in Hres as (n1 & _ & Hres).
  apply bind_Ok in Hres as (n2 & _ & Hres).
  apply bind_Ok in Hres as (r0 & _ & Hres). cbv zeta in Hres.
  set (r := <["raw" := VArray (np.copy xanes)]>
              (<["energy" := VArray (np.copy (Fin <$> es))]> r0)) in *.
  apply bind_Ok in Hres as (norm & Hnorm & Hres).
  apply bind_Ok in Hres as (e0' & Hedge & Hres).
  apply bind_Ok in Hres as (norm1 & Hnorm1 & Hres).
  apply bind_Ok in Hres as (norm2 & Hnorm2 & Hres).
  apply bind_Ok in Hres as (nnorm & Hnnorm & Hres).
  apply bind_Ok in Hres as (flat & Hflat & [= <-]).
  assert (∀ key, key ≠ "flat" →
            getitem (<["flat" := VArray flat]> r) key = getitem r key) as Hkey.
  { intros key Hne. unfold getitem. by rewrite lookup_insert_ne. }
  rewrite Hkey, Hedge in Hresolved by done. injection Hresolved as ->.
  destruct (flatten_norm_flattened _ _ _ _ _ _ _ _ Hflat)
    as (ie0 & p1 & p2 & enx & mux & poly & at_edge
        & Hidx & Hnans & Hfit & Hat & Hitems & Hsnap).
  rewrite (Hsnap es edge eq_refl eq_refl Hsample) in *.
  rewrite list_lookup_fmap in Hat.
  destruct (es !! ie0) as [e|] eqn:Hie0; [|done].
  injection Hat as ->.
  exists norm, norm1, norm2, nnorm, flat, ie0, p1, p2, enx, mux, poly.
  rewrite !Hkey by done. split_and!; [|done..| | |done|done|done|done|].
  - rewrite lookup_insert_ne by done. unfold getitem in Hnorm.
    destruct (r !! "norm") as [[| |a]|]; simplify_eq/=. done.
  - rewrite lookup_insert_ne by done. unfold getitem in Hnnorm.
    destruct (r !! "nnorm") as [[|n|]|]; simplify_eq/=. done.
  - by rewrite lookup_insert_eq.
  - intros i n e Hn He. apply Hitems; [done|].
    by rewrite list_lookup_fmap, He.
Qed.


End normalization_facts.

(** ** Runs of the flattening *)

Lemma ramp_indices_edge :
  _flatten_indices ramp_energy (Fin 1) (Fin 0.6) (Fin 2) = Ok (1, 1, 3).
Proof.
  unfold _flatten_indices, larch.index_nearest, larch.index_of. feval.
  reflexivity.
Qed.

Lemma ramp_fit :
  _flatten_fit (H := least_squares_lmfit) [Fin 1; Fin 2] [Fin 1; Fin 2] 1 None
  = Ok [Fin 0; Fin 1].
Proof.
  unfold _flatten_fit. feval. unfold least_squares. feval. fin_eq.
Qed.

(** A run with the edge on the sample of energy 1. *)
Lemma ramp_flat :
  _flatten_norm (H := least_squares_lmfit) ramp_energy ramp_norm
                (Fin 1) (Fin 0.6) (Fin 2) 1 None
  = Ok [Fin 0; Fin 1; Fin 1; Fin 1].
Proof.
  unfold _flatten_norm. rewrite ramp_indices_edge. cbn [mbind result_bind].
  change (larch.remove_nans2 _ _) with (Ok ([Fin 1; Fin 2], [Fin 1; Fin 2])).
  cbn [mbind result_bind]. rewrite ramp_fit. feval.
  unfold np.sub, np.broadcast, np.assign_prefix, ramp_norm. feval. fin_eq.
Qed.

Lemma ramp_given_preedge :
  given_preedge ramp_energy ramp_norm (Some (Fin 1)) None None 0
                (Some (Fin 0.6)) (Some (Fin 2)) (Some 1%Z)
  = Ok ramp_preedge.
Proof.
  unfold given_preedge, larch.index_nearest. feval. reflexivity.
Qed.

Lemma ramp_normalized :
  normalize_absorption (H := least_squares_lmfit) given_preedge
    ramp_energy ramp_norm (Some (Fin 1)) None
    (Some [Some (Fin 0.6); Some (Fin 2)]) 0 (Some 1%Z) None
  = Ok ramp_results.
Proof.
  unfold normalize_absorption.
  cbn [range_or_default lookup list_lookup or_raise mbind result_bind].
  rewrite ramp_given_preedge. cbn [mbind result_bind].
  transitivity
    (flat ← _flatten_norm (H := least_squares_lmfit) ramp_energy ramp_norm
                          (Fin 1) (Fin 0.6) (Fin 2) 1 None;
     Ok (<["flat" := VArray flat]>
           (<["raw" := VArray ramp_norm]>
              (<["energy" := VArray ramp_energy]> ramp_preedge)))).
  - reflexivity.
  - by rewrite ramp_flat.
Qed.

Lemma normalize_absorption_flat_witness :
  ∃ norm norm1 norm2 nnorm flat ie0 p1 p2 enx mux poly,
    ramp_results !! "norm" = Some (VArray norm)
    ∧ getitem ramp_results "norm1" ≫= as_float = Ok norm1
    ∧ getitem ramp_results "norm2" ≫= as_float = Ok norm2
    ∧ ramp_results !! "nnorm" = Some (VInt nnorm)
    ∧ ramp_results !! "flat" = Some (VArray flat)
    ∧ _flatten_indices ramp_energy (Fin 1) norm1 norm2 = Ok (ie0, p1, p2)
    ∧ [0; 1; 2; 3]%R !! ie0 = Some 1%R
    ∧ larch.remove_nans2 (np.slice (np.copy ramp_energy) p1 p2)
                         (np.slice (np.copy norm) p1 p2) = Ok (enx, mux)
    ∧ _flatten_fit (H := least_squares_lmfit) mux enx nnorm None = Ok poly
    ∧ ∀ i n e, norm !! i = Some n → [0; 1; 2; 3]%R !! i = Some e →
        flat !! i
        = Some (if decide (i < ie0) then n
                else n - (np.polyval poly (Fin e)
                          - np.polyval poly (Fin 1)))%fl.
Proof.
  assert (1%R ∈ [0; 1; 2; 3]%R) as Hsample by (right; left).
  exact (normalize_absorption_flat (H := least_squares_lmfit) given_preedge
           [0; 1; 2; 3]%R ramp_norm (Some (Fin 1)) None
           (Some [Some (Fin 0.6); Some (Fin 2)]) 0 (Some 1%Z) None
           ramp_results 1 ramp_normalized eq_refl Hsample).
Defined.

Lemma one_sample_fit :
  _flatten_fit (H := least_squares_lmfit) [Fin 2] [Fin 2] 0 None
  = Ok [Fin 2].
Proof.
  unfold _flatten_fit. feval. unfold np2.mean, np2.sum. feval. fin_eq.
Qed.

(** A post-edge window of one sample: energies from 2 to 3. *)
Lemma one_sample_indices :
  _flatten_indices ramp_energy (Fin 1) (Fin 1) (Fin 2) = Ok (1, 2, 3).
Proof.
  unfold _flatten_indices, larch.index_nearest, larch.index_of. feval.
  reflexivity.
Qed.



(** [remove_nans2] drops the positions at which either array is not
    finite. *)
Example remove_nans2_drops_pairs :
  larch.remove_nans2 [Fin 1; NaN; Fin 3; Fin 4] [Fin 1; Fin 2; PInf; Fin 4]
  = Ok ([Fin 1; Fin 4], [Fin 1; Fin 4]).
Proof. reflexivity. Qed.

(** ** Linear interpolation *)

Lemma increasing_cons_inv x (es : list R) :
  increasing (x :: es) → increasing es ∧ ∀ e, e ∈ es → (x < e)%R.
Proof.
  intros Hinc. split.
  - intros i j ei ej Hij Hi Hj. apply (Hinc (S i) (S j)); [lia|done..].
  - intros e [j Hj]%list_elem_of_lookup. apply (Hinc 0 (S j)); [lia|done..].
Qed.

Lemma zip_points (es : list R) (ys : array) :
  zip (Fin <$> es) ys = points (zip es ys).
Proof.
  revert ys. induction es as [|e es IH]; intros [|y ys]; simpl; try done.
  f_equal. apply IH.
Qed.

Lemma sort_points_increasing (pts : list (R * float)) :
  increasing pts.*1 → scipy.sort_points (points pts) = points pts.
Proof.
  induction pts as [|[x y] pts IH]; intros Hinc; [done|].
  apply increasing_cons_inv in Hinc as [Hinc Hhead].
  unfold scipy.sort_points in *. simpl. rewrite IH by done.
  destruct pts as [|[x1 y1] pts]; [done|]. simpl.
  unfold scipy.key_le. simpl. rewrite leb_Fin.
  rewrite bool_decide_eq_true_2; [done|].
  apply Rlt_le, Hhead. left.
Qed.

Lemma interp_from_knot (rest : list (R * float)) x0 y0 j xj yj :
  increasing (x0 :: rest.*1) →
  ((x0, y0) :: rest) !! j = Some (xj, yj) →
  scipy.interp_from (Fin xj) (Fin x0) y0 (points rest) = yj.
Proof.
  revert x0 y0 j. induction rest as [|[x1 y1] rest IH]; intros x0 y0 j Hinc Hj.
  - destruct j as [|j]; [|done]. by injection Hj as _ ->.
  - pose proof Hinc as [Hinc' Hhead]%increasing_cons_inv. simpl.
    destruct j as [|j].
    + injection Hj as -> ->.
      rewrite bool_decide_eq_true_2 by (apply Hhead; left).
      by rewrite bool_decide_eq_true_2.
    + simpl in Hj.
      assert (x1 <= xj)%R as Hle.
      { eapply (increasing_le (x1 :: rest.*1) 0 j); [done|lia|done|].
        change (x1 :: rest.*1) with (((x1, y1) :: rest).*1).
        by rewrite list_lookup_fmap, Hj. }
      rewrite bool_decide_eq_false_2 by lra.
      by eapply IH.
Qed.

Lemma interp_from_between (rest : list (R * float)) x0 y0 j a ya b yb v :
  increasing (x0 :: rest.*1) →
  ((x0, y0) :: rest) !! j = Some (a, Fin ya) →
  ((x0, y0) :: rest) !! S j = Some (b, Fin yb) →
  (a < v < b)%R →
  scipy.interp_from (Fin v) (Fin x0) y0 (points rest)
  = Fin (lerp a ya b yb v).
Proof.
  revert x0 y0 j.
  induction rest as [|[x1 y1] rest IH]; intros x0 y0 j Hinc Hj HSj Hv.
  - done.
  - pose proof Hinc as [Hinc' Hhead]%increasing_cons_inv. simpl.
    destruct j as [|j].
    + injection Hj as -> ->. injection HSj as -> ->.
      rewrite bool_decide_eq_true_2 by lra.
      rewrite bool_decide_eq_false_2 by lra.
      unfold scipy.chord. simpl.
      rewrite decide_False by lra. simpl. unfold lerp. f_equal. field. lra.
    + simpl in Hj.
      assert (x1 <= a)%R as Hle.
      { eapply (increasing_le (x1 :: rest.*1) 0 j); [done|lia|done|].
        change (x1 :: rest.*1) with (((x1, y1) :: rest).*1).
        by rewrite list_lookup_fmap, Hj. }
      rewrite bool_decide_eq_false_2 by lra.
      by eapply IH.
Qed.

Lemma lerp_left a ya b yb : (a < b)%R → lerp a ya b yb a = ya.
Proof. intros. unfold lerp. field. lra. Qed.

Lemma lerp_right a ya b yb : (a < b)%R → lerp a ya b yb b = yb.
Proof. intros. unfold lerp. field. lra. Qed.

Lemma interp1d_resampled (es : list R) (ys grid : array) :
  increasing es → 2 ≤ length es → length ys = length es →
  ∃ f row,
    scipy.interp1d (Fin <$> es) ys scipy.linear NaN false = Ok f
    ∧ f grid = Ok row
    ∧ resampled es ys grid row.
Proof.
  intros Hinc Hlen2 Hlen. unfold scipy.interp1d.
  rewrite decide_True by (by rewrite length_fmap).
  rewrite decide_True by (by rewrite length_fmap).
  rewrite zip_points, sort_points_increasing
    by (rewrite fst_zip by lia; done).
  destruct es as [|e0 es]; [simpl in Hlen2; lia|].
  destruct ys as [|y0 ys]; [done|].
  assert (zip (e0 :: es) (y0 :: ys) = (e0, y0) :: zip es ys) as Hzip by done.
  assert (((e0, y0) :: zip es ys).*1 = e0 :: es) as Hfst.
  { rewrite <-Hzip. apply fst_zip. simpl in *. lia. }
  destruct (last (e0 :: es)) as [hi|] eqn:Hhi; [|by apply last_None in Hhi].
  assert (∃ yn, last (points (zip (e0 :: es) (y0 :: ys))) = Some (Fin hi, yn))
    as [yn Hlast].
  { rewrite last_lookup in Hhi.
    destruct (lookup_lt_is_Some_2 (y0 :: ys) (Init.Nat.pred (length (e0 :: es))))
      as [yn Hyn]; [simpl in *; lia|].
    exists yn. rewrite last_lookup. unfold points.
    rewrite length_fmap, length_zip, Hlen, Nat.min_id.
    by rewrite list_lookup_fmap, lookup_zip_with, Hhi, Hyn. }
  change (points (zip (e0 :: es) (y0 :: ys)))
    with ((Fin e0, y0) :: points (zip es ys)) in *.
  eexists _, _. split; [done|].
  unfold scipy.call_linear. rewrite Hlast. simpl. split; [done|].
  split; [by rewrite length_map|].
  intros j v r Hv Hr. change (map ?g ?l) with (g <$> l) in Hr.
  rewrite list_lookup_fmap, Hv in Hr. simpl in Hr. injection Hr as <-.
  split.
  - intros lo hi' [= <-] Hhi' Hout. rewrite Hhi in Hhi'. injection Hhi' as <-.
    destruct Hout; [rewrite bool_decide_eq_true_2 by done; done|].
    rewrite (bool_decide_eq_true_2 (hi < v)%R) by done.
    by rewrite orb_true_r.
  - intros k a b ya yb Ha Hb Hya Hyb [Hav Hvb].
    assert (a < b)%R as Hab by (eapply (Hinc k (S k)); [lia|done..]).
    assert (e0 <= a)%R as Hlo.
    { eapply (increasing_le (e0 :: es) 0 k); [done|lia|done..]. }
    assert (b <= hi)%R as Hhib.
    { rewrite last_lookup in Hhi.
      eapply (increasing_le (e0 :: es) (S k)); [done| |done..].
      apply lookup_lt_Some in Hb. simpl in *. lia. }
    rewrite bool_decide_eq_false_2 by lra.
    rewrite (bool_decide_eq_false_2 (hi < v)%R) by lra. simpl.
    assert (((e0, y0) :: zip es ys) !! k = Some (a, Fin ya)) as Hk.
    { rewrite <-Hzip. by rewrite lookup_zip_with, Ha, Hya. }
    assert (((e0, y0) :: zip es ys) !! S k = Some (b, Fin yb)) as HSk.
    { rewrite <-Hzip. by rewrite lookup_zip_with, Hb, Hyb. }
    assert (increasing (e0 :: (zip es ys).*1)) as Hinc'.
    { by rewrite <-Hfst in Hinc. }
    destruct (Req_dec_T v a) as [-> | Hna].
    { rewrite lerp_left by done. by eapply interp_from_knot. }
    destruct (Req_dec_T v b) as [-> | Hnb].
    { rewrite lerp_right by done. by eapply interp_from_knot. }
    eapply interp_from_between; [done..|lra].
Qed.

Lemma resampled_self (es xs : list R) (row : array) :
  increasing es → 2 ≤ length es → length xs = length es →
  resampled es (Fin <$> xs) (Fin <$> es) row → row = Fin <$> xs.
Proof.
  intros Hinc Hlen2 Hlen [Hrow Hres]. rewrite length_fmap in Hrow.
  apply list_eq. intros j. rewrite list_lookup_fmap.
  destruct (decide (j < length es)) as [Hj | Hj].
  - destruct (lookup_lt_is_Some_2 es j) as [v Hv]; [done|].
    destruct (lookup_lt_is_Some_2 xs j) as [x Hx]; [lia|].
    destruct (lookup_lt_is_Some_2 row j) as [r Hr]; [lia|].
    rewrite Hr, Hx. simpl. f_equal.
    destruct (Hres j v r) as [_ Hchord]; [by rewrite list_lookup_fmap, Hv|done|].
    destruct (decide (S j < length es)) as [HSj | HSj].
    + destruct (lookup_lt_is_Some_2 es (S j)) as [b Hb]; [done|].
      destruct (lookup_lt_is_Some_2 xs (S j)) as [yb Hyb]; [lia|].
      rewrite (Hchord j v b x yb); [| done.. | | | ].
      * f_equal. apply lerp_left. eapply (Hinc j (S j)); [lia|done..].
      * by rewrite list_lookup_fmap, Hx.
      * by rewrite list_lookup_fmap, Hyb.
      * assert (v < b)%R by (eapply (Hinc j (S j)); [lia|done..]). lra.
    + destruct j as [|j]; [lia|].
      destruct (lookup_lt_is_Some_2 es j) as [a Ha]; [lia|].
      destruct (lookup_lt_is_Some_2 xs j) as [ya Hya]; [lia|].
      rewrite (Hchord j a v ya x); [| done.. | | | ].
      * f_equal. apply lerp_right. eapply (Hinc j (S j)); [lia|done..].
      * by rewrite list_lookup_fmap, Hya.
      * by rewrite list_lookup_fmap, Hx.
      * assert (a < v)%R by (eapply (Hinc j (S j)); [lia|done..]). lra.
  - rewrite !lookup_ge_None_2 by lia. done.
Qed.

(** ** Mean and standard error of two equal rows *)

Lemma mean_pair (x : R) : np2.mean [Fin x; Fin x] = Fin x.
Proof.
  unfold np2.mean, np2.sum. simpl.
  case_decide; [lra|]. f_equal. field.
Qed.

Lemma std_pair (x : R) : np2.std [Fin x; Fin x] = Fin 0.
Proof.
  unfold np2.std. rewrite mean_pair. unfold np2.mean, np2.sum. simpl.
  case_decide; [lra|]. unfold F.sqrt.
  replace ((0 + (x + - x) * (x + - x) + (x + - x) * (x + - x)) / (1 + 1))%R
    with 0%R by field.
  case_decide; [lra|]. by rewrite sqrt_0.
Qed.

Lemma column_pair (xs : list R) j x :
  xs !! j = Some x →
  np2.column [Fin <$> xs; Fin <$> xs] j = [Fin x; Fin x].
Proof. intros Hx. unfold np2.column. simpl. by rewrite list_lookup_fmap, Hx. Qed.

Lemma mean_axis0_pair (xs : list R) :
  np2.mean_axis0 (length xs) [Fin <$> xs; Fin <$> xs] = Fin <$> xs.
Proof.
  unfold np2.mean_axis0. apply list_eq. intros j.
  change (map ?g ?l) with (g <$> l). rewrite !list_lookup_fmap.
  destruct (xs !! j) as [x|] eqn:Hx.
  - rewrite lookup_seq_lt by (by eapply lookup_lt_Some).
    cbn [fmap option_fmap option_map Nat.add].
    by rewrite (column_pair xs j x), mean_pair.
  - rewrite lookup_seq_ge; [done|]. by apply lookup_ge_None.
Qed.

Lemma std_error_pair (xs : list R) :
  np.div_scalar (np2.std_axis0 (length xs) [Fin <$> xs; Fin <$> xs])
                (F.sqrt (F.of_nat 2))
  = np.zeros (length xs).
Proof.
  assert (F.sqrt (F.of_nat 2) = Fin (sqrt 2)) as ->.
  { unfold F.sqrt, F.of_nat. simpl. case_decide; [lra|].
    reflexivity. }
  assert (sqrt 2 ≠ 0)%R as Hsqrt.
  { intros Heq. apply sqrt_eq_0 in Heq; lra. }
  unfold np.div_scalar, np2.std_axis0, np.zeros. apply list_eq. intros j.
  change (map ?g ?l) with (g <$> l). rewrite !list_lookup_fmap.
  destruct (xs !! j) as [x|] eqn:Hx.
  - rewrite lookup_seq_lt by (by eapply lookup_lt_Some).
    cbn [fmap option_fmap option_map Nat.add].
    rewrite (column_pair xs j x), std_pair by done. simpl.
    case_decide; [done|].
    rewrite lookup_replicate_2 by (by eapply lookup_lt_Some).
    do 2 f_equal. field. done.
  - apply lookup_ge_None in Hx.
    rewrite lookup_seq_ge by done. simpl.
    symmetry. by apply lookup_replicate_None.
Qed.

(** ** Aggregation of several scans *)

Section multi_facts.

Context {scan_id kwargs SpecDataFile catalog : Type}.
Variable load_table :
  scan_id → @source SpecDataFile catalog → kwargs → result table.
Variable is_Bluesky_specfile :
  @source SpecDataFile catalog → kwargs → result bool.

Lemma stack_xas_rows s positioner detector monitor transmission kw
    (energy : array) scans loaded rows0 :
  Forall2 (loads_as load_table is_Bluesky_specfile s positioner detector monitor
                    transmission kw)
          scans loaded →
  ∃ rows,
    stack_xas load_table is_Bluesky_specfile scans s positioner detector
              monitor transmission kw
              (Some (energy, Arr2 (length energy) rows0))
    = Ok (Some (energy, Arr2 (length energy) (rows0 ++ rows)))
    ∧ Forall2 (λ p row, resampled p.1 p.2 energy row) loaded rows.
Proof.
  intros Hall. revert rows0.
  induction Hall as [|scan [es ys] scans loaded Hscan _ IH]; intros rows0.
  - exists []. by rewrite app_nil_r.
  - destruct Hscan as (Hload & Hinc & Hlen2 & Hlen). simpl in *.
    destruct (interp1d_resampled es ys energy Hinc Hlen2 Hlen)
      as (f & row & Hf & Hrow & Hres).
    rewrite Hload. cbn [mbind result_bind]. rewrite Hf.
    cbn [mbind result_bind]. rewrite Hrow. cbn [mbind result_bind].
    unfold np2.vstack. rewrite decide_True by (symmetry; apply Hres).
    cbn [mbind result_bind].
    destruct (IH (rows0 ++ [row])) as (rows & -> & Hrows).
    exists (row :: rows). split; [by rewrite <-app_assoc|].
    by constructor.
Qed.

(** C6: with two or more scans, [load_multi_xas] keeps the energies and
    the values of the first scan and stacks below them every later scan
    resampled onto the energies of the first by linear interpolation:
    between two consecutive samples of the scan the value lies on their
    chord, outside the range of the energies of the scan it is [NaN], and
    the call does not raise. *)
Theorem load_multi_xas_resamples s positioner detector monitor transmission
    kw scan0 scans (energy xanes0 : array) loaded :
  load_absorption load_table is_Bluesky_specfile scan0 s positioner detector
                  monitor transmission kw = Ok (energy, xanes0) →
  length xanes0 = length energy →
  scans ≠ [] →
  Forall2 (loads_as load_table is_Bluesky_specfile s positioner detector monitor
                    transmission kw)
          scans loaded →
  ∃ rows,
    load_multi_xas load_table is_Bluesky_specfile (scan0 :: scans) s false
                   positioner detector monitor transmission kw
    = Ok (energy, Arr2 (length energy) (xanes0 :: rows), None)
    ∧ Forall2 (λ p row, resampled p.1 p.2 energy row) loaded rows.
Proof.
  intros Hload0 Hlen0 Hne Hall.
  destruct Hall as [|scan1 [es ys] scans loaded Hscan Hall]; [done|].
  destruct Hscan as (Hload & Hinc & Hlen2 & Hlen). simpl in *.
  destruct (interp1d_resampled es ys energy Hinc Hlen2 Hlen)
    as (f & row & Hf & Hrow & Hres).
  destruct (stack_xas_rows s positioner detector monitor transmission kw
              energy scans loaded [xanes0; row] Hall) as (rows & Hrows & Hrs).
  exists (row :: rows). split; [|by constructor].
  unfold load_multi_xas. cbn [stack_xas].
  rewrite Hload0. cbn [mbind result_bind]. rewrite Hload.
  cbn [mbind result_bind]. rewrite Hf. cbn [mbind result_bind].
  rewrite Hrow. cbn [mbind result_bind]. unfold np2.vstack.
  rewrite decide_True by (rewrite Hlen0; symmetry; apply Hres).
  cbn [mbind result_bind]. rewrite Hlen0, Hrows. done.
Qed.

(** C7 (as amended): for a scan of at least two samples with finite,
    strictly increasing energies and finite absorption values, the
    aggregation of two copies of the scan with [return_mean=True] returns
    the energies of the scan, its absorption values as the mean, and zeros
    as the standard error. *)
Theorem load_multi_xas_twice s positioner detector monitor transmission kw
    scan (es xs : list R) :
  load_absorption load_table is_Bluesky_specfile scan s positioner detector
                  monitor transmission kw = Ok (Fin <$> es, Fin <$> xs) →
  increasing es → 2 ≤ length es → length xs = length es →
  load_multi_xas load_table is_Bluesky_specfile [scan; scan] s true
                 positioner detector monitor transmission kw
  = Ok (Fin <$> es, Arr1 (Fin <$> xs), Some (np.zeros (length xs))).
Proof.
  intros Hload Hinc Hlen2 Hlen.
  destruct (interp1d_resampled es (Fin <$> xs) (Fin <$> es) Hinc Hlen2)
    as (f & row & Hf & Hrow & Hres); [by rewrite length_fmap|].
  apply resampled_self in Hres as ->; [|done..].
  unfold load_multi_xas. cbn [stack_xas].
  rewrite Hload. cbn [mbind result_bind]. rewrite Hf.
  cbn [mbind result_bind]. rewrite Hrow. cbn [mbind result_bind].
  unfold np2.vstack.
  rewrite decide_True by done. cbn [mbind result_bind or_raise length].
  rewrite length_fmap, mean_axis0_pair, std_error_pair. done.
Qed.

End multi_facts.

(** ** Runs of the aggregation *)

Lemma div_Fin (a b : R) : b ≠ 0%R → (Fin a / Fin b)%fl = Fin (a / b).
Proof. intros Hb. simpl. by rewrite decide_False. Qed.

Lemma load_scan_123 :
  load_absorption table_loader no_spec_file scan_123 (SourceStr "csv")
                  None None None false ()
  = Ok (Fin <$> [1; 2; 3]%R, Fin <$> [1 / 1; 2 / 1; 3 / 1]%R).
Proof.
  transitivity (Ok ([Fin 1; Fin 2; Fin 3],
                    [Fin 1 / Fin 1; Fin 2 / Fin 1; Fin 3 / Fin 1]%fl));
    [reflexivity|].
  by rewrite !div_Fin by lra.
Qed.

Lemma load_multi_xas_resamples_witness :
  ∃ rows,
    load_multi_xas table_loader no_spec_file [scan_123; scan_24]
                   (SourceStr "csv") false None None None false ()
    = Ok ([Fin 1; Fin 2; Fin 3],
          Arr2 3 ([Fin 1 / Fin 1; Fin 2 / Fin 1; Fin 3 / Fin 1]%fl :: rows),
          None)
    ∧ Forall2 (λ p row, resampled p.1 p.2 [Fin 1; Fin 2; Fin 3] row)
              [([2; 4]%R, [Fin 2 / Fin 1; Fin 4 / Fin 1]%fl)] rows.
Proof.
  apply (load_multi_xas_resamples table_loader no_spec_file (SourceStr "csv")
           None None None false () scan_123 [scan_24]
           [Fin 1; Fin 2; Fin 3]
           [Fin 1 / Fin 1; Fin 2 / Fin 1; Fin 3 / Fin 1]%fl
           [([2; 4]%R, [Fin 2 / Fin 1; Fin 4 / Fin 1]%fl)]);
    [reflexivity | reflexivity | discriminate |].
  constructor; [|constructor]. split; [reflexivity|]. split; [|split].
  - apply StronglySorted_increasing. repeat constructor; lra.
  - simpl. lia.
  - reflexivity.
Defined.

Lemma load_multi_xas_twice_witness :
  load_multi_xas table_loader no_spec_file [scan_123; scan_123]
                 (SourceStr "csv") true None None None false ()
  = Ok (Fin <$> [1; 2; 3]%R, Arr1 (Fin <$> [1 / 1; 2 / 1; 3 / 1]%R),
        Some (np.zeros 3)).
Proof.
  apply (load_multi_xas_twice table_loader no_spec_file (SourceStr "csv")
           None None None false () scan_123 [1; 2; 3]%R
           [1 / 1; 2 / 1; 3 / 1]%R load_scan_123).
  - apply StronglySorted_increasing. repeat constructor; lra.
  - simpl. lia.
  - reflexivity.
Defined.

Lemma load_scan_zero_monitor :
  load_absorption table_loader no_spec_file scan_zero_monitor
                  (SourceStr "csv") None None None false ()
  = Ok ([Fin 1; Fin 2], [PInf; Fin 1]).
Proof.
  transitivity (Ok ([Fin 1; Fin 2], [Fin 1 / Fin 0; Fin 1 / Fin 1]%fl));
    [reflexivity|].
  feval. fin_eq.
Qed.

(** C7, counterexample: a scan with an infinite absorption value (a
    monitor reading of zero in fluorescence mode).  Two copies of it give a
    standard error that is [NaN] at that sample, not zero. *)
Lemma load_multi_xas_twice_infinite :
  load_multi_xas table_loader no_spec_file
                 [scan_zero_monitor; scan_zero_monitor]
                 (SourceStr "csv") true None None None false ()
  = Ok ([Fin 1; Fin 2], Arr1 [PInf; Fin 1], Some [NaN; Fin 0]).
Proof.
  unfold load_multi_xas. cbn [stack_xas].
  rewrite load_scan_zero_monitor. cbn [mbind result_bind].
  unfold scipy.interp1d, scipy.call_linear, scipy.sort_points. feval.
  unfold np2.vstack. feval.
  unfold np2.mean_axis0, np2.std_axis0, np2.column, np.div_scalar,
    np2.std, np2.mean, np2.sum.
  feval.
  assert (sqrt (1 + 1) ≠ 0)%R as Hsqrt.
  { intros Heq. apply sqrt_eq_0 in Heq; lra. }
  case_decide; [done|].
  match goal with
  | |- context [sqrt (?a / ?b)] => replace (a / b)%R with 0%R by field
  end.
  rewrite sqrt_0. fin_eq.
Qed.

(** The scan of energies 2 and 4 resampled onto the energies 1, 2, 3:
    [NaN] below its range, its own value at 2, the chord at 3. *)
Example load_multi_xas_123_24 :
  load_multi_xas table_loader no_spec_file [scan_123; scan_24]
                 (SourceStr "csv") false None None None false ()
  = Ok ([Fin 1; Fin 2; Fin 3],
        Arr2 3 [[Fin 1; Fin 2; Fin 3]; [NaN; Fin 2; Fin 3]], None).
Proof.
  unfold load_multi_xas. cbn [stack_xas].
  change (load_absorption table_loader no_spec_file scan_123 _ _ _ _ _ _)
    with (Ok ([Fin 1; Fin 2; Fin 3],
              [Fin 1 / Fin 1; Fin 2 / Fin 1; Fin 3 / Fin 1]%fl)).
  change (load_absorption table_loader no_spec_file scan_24 _ _ _ _ _ _)
    with (Ok ([Fin 2; Fin 4], [Fin 2 / Fin 1; Fin 4 / Fin 1]%fl)).
  cbn [mbind result_bind].
  unfold scipy.interp1d, scipy.call_linear, scipy.sort_points. feval.
  unfold np2.vstack, scipy.chord. feval. fin_eq.
Qed.

(** ** Array objects: what [normalize_absorption] allocates and writes *)

Lemma bindM_Ok {A B} (m : heap.M A) (f : A → heap.M B) σ b σ' :
  (m ≫= f) σ = Ok (b, σ') ↔ ∃ a σ1, m σ = Ok (a, σ1) ∧ f a σ1 = Ok (b, σ').
Proof.
  unfold mbind, heap.M_bind. destruct (m σ) as [[a σ1]|e]; split.
  - intros Hf. by exists a, σ1.
  - by intros (a' & σ1' & [= <- <-] & Hf).
  - done.
  - by intros (a' & σ1' & [=] & _).
Qed.

Lemma lift_Ok {A} (r : result A) σ a σ' :
  heap.lift r σ = Ok (a, σ') ↔ r = Ok a ∧ σ' = σ.
Proof.
  unfold heap.lift. destruct r as [a'|e]; split.
  - by intros [= <- <-].
  - by intros [[= <-] ->].
  - done.
  - by intros [[=] _].
Qed.

Lemma read_Ok l σ a σ' :
  heap.read l σ = Ok (a, σ') ↔ σ !! l = Some a ∧ σ' = σ.
Proof.
  unfold heap.read. destruct (σ !! l) as [a'|]; split.
  - by intros [= <- <-].
  - by intros [[= <-] ->].
  - done.
  - by intros [[=] _].
Qed.

Lemma alloc_Ok a σ l σ' :
  heap.alloc a σ = Ok (l, σ') ↔ l = fresh (dom σ) ∧ σ' = <[l := a]> σ.
Proof.
  unfold heap.alloc. split.
  - by intros [= <- <-].
  - by intros [-> ->].
Qed.

Lemma alloc_fresh a σ l σ' :
  heap.alloc a σ = Ok (l, σ') → σ !! l = None ∧ σ' = <[l := a]> σ.
Proof.
  intros [-> ->]%alloc_Ok. split; [|done].
  apply not_elem_of_dom, is_fresh.
Qed.

Lemma copy_fresh l σ l' σ' :
  heap.copy l σ = Ok (l', σ') →
  ∃ a, σ !! l = Some a ∧ σ !! l' = None ∧ σ' = <[l' := a]> σ.
Proof.
  unfold heap.copy. intros (a & σ1 & [Ha ->]%read_Ok & Halloc)%bindM_Ok.
  apply alloc_fresh in Halloc as [Hfresh ->]. by exists a.
Qed.

Lemma box_frame v σ h σ' : heap.box v σ = Ok (h, σ') → σ ⊆ σ'.
Proof.
  destruct v as [x|n|a]; simpl.
  - by intros [= _ <-].
  - by intros [= _ <-].
  - intros (l & σ1 & [Hl ->]%alloc_fresh & [= _ <-])%bindM_Ok.
    by apply insert_subseteq.
Qed.

Lemma box_entries_frame l σ l' σ' :
  heap.box_entries l σ = Ok (l', σ') → σ ⊆ σ'.
Proof.
  revert σ l'. induction l as [|[k v] l IH]; intros σ l'; simpl.
  - by intros [= _ <-].
  - intros (h & σ1 & Hbox & Hrest)%bindM_Ok.
    apply bindM_Ok in Hrest as (l'' & σ2 & Hrest & [= _ <-]).
    etrans; [by eapply box_frame | by eapply IH].
Qed.

Lemma box_dict_frame d σ hd σ' : heap.box_dict d σ = Ok (hd, σ') → σ ⊆ σ'.
Proof.
  unfold heap.box_dict.
  intros (l & σ1 & Hl & [= _ <-])%bindM_Ok. by eapply box_entries_frame.
Qed.

(** *** The store model runs whenever the model on contents does *)

Lemma boxed_weaken σ σ' v h : boxed σ v h → σ ⊆ σ' → boxed σ' v h.
Proof.
  destruct v, h; simpl; try done. intros Hl Hsub. by eapply lookup_weaken.
Qed.

Lemma boxed_dict_weaken σ σ' d hd :
  boxed_dict σ d hd → σ ⊆ σ' → boxed_dict σ' d hd.
Proof.
  intros Hd Hsub k. specialize (Hd k).
  destruct (d !! k), (hd !! k); try done. by eapply boxed_weaken.
Qed.

Lemma boxed_dict_insert σ d hd k v h :
  boxed_dict σ d hd → boxed σ v h →
  boxed_dict σ (<[k := v]> d) (<[k := h]> hd).
Proof.
  intros Hd Hv k'. destruct (decide (k = k')) as [<- | Hne].
  - by rewrite !lookup_insert_eq.
  - rewrite !lookup_insert_ne by done. apply Hd.
Qed.

Lemma box_run v σ :
  ∃ h σ', heap.box v σ = Ok (h, σ') ∧ σ ⊆ σ' ∧ boxed σ' v h.
Proof.
  destruct v as [x|n|a]; simpl.
  - by exists (heap.HFloat x), σ.
  - by exists (heap.HInt n), σ.
  - exists (heap.HRef (fresh (dom σ))), (<[fresh (dom σ) := a]> σ).
    split_and!; [done| |by rewrite lookup_insert_eq].
    apply insert_subseteq, not_elem_of_dom, is_fresh.
Qed.

Lemma box_entries_run l σ :
  ∃ l' σ', heap.box_entries l σ = Ok (l', σ') ∧ σ ⊆ σ'
           ∧ boxed_dict σ' (list_to_map l) (list_to_map l').
Proof.
  revert σ. induction l as [|[k v] l IH]; intros σ.
  - exists [], σ. split_and!; [done..|]. intros k. simpl.
    by rewrite !lookup_empty.
  - destruct (box_run v σ) as (h & σ1 & Hbox & Hsub1 & Hv).
    destruct (IH σ1) as (l' & σ2 & Hrest & Hsub2 & Hl).
    exists ((k, h) :: l'), σ2. split_and!.
    + simpl. apply bindM_Ok. exists h, σ1. split; [done|].
      apply bindM_Ok. by exists l', σ2.
    + by etrans.
    + simpl. apply boxed_dict_insert; [done|]. by eapply boxed_weaken.
Qed.

Lemma box_dict_run d σ :
  ∃ hd σ', heap.box_dict d σ = Ok (hd, σ') ∧ σ ⊆ σ' ∧ boxed_dict σ' d hd.
Proof.
  destruct (box_entries_run (map_to_list d) σ) as (l' & σ' & Hrun & Hsub & Hd).
  rewrite list_to_map_to_list in Hd.
  exists (list_to_map l'), σ'. split_and!; [|done..].
  unfold heap.box_dict. apply bindM_Ok. by exists l', σ'.
Qed.

Lemma boxed_as_float σ d hd k x :
  boxed_dict σ d hd → getitem d k ≫= as_float = Ok x →
  heap.getitem hd k ≫= heap.as_float = Ok x.
Proof.
  intros Hd. specialize (Hd k). unfold getitem, heap.getitem.
  destruct (d !! k) as [[| |]|], (hd !! k) as [[| |]|]; simpl in *;
    try done; congruence.
Qed.

Lemma boxed_as_int σ d hd k n :
  boxed_dict σ d hd → getitem d k ≫= as_int = Ok n →
  heap.getitem hd k ≫= heap.as_int = Ok n.
Proof.
  intros Hd. specialize (Hd k). unfold getitem, heap.getitem.
  destruct (d !! k) as [[| |]|], (hd !! k) as [[| |]|]; simpl in *;
    try done; congruence.
Qed.

Lemma boxed_as_array σ d hd k a :
  boxed_dict σ d hd → getitem d k ≫= as_array = Ok a →
  ∃ l, heap.getitem hd k ≫= heap.as_array = Ok l ∧ σ !! l = Some a.
Proof.
  intros Hd. specialize (Hd k). unfold getitem, heap.getitem.
  destruct (d !! k) as [[| |a']|], (hd !! k) as [[| |l]|]; simpl in *;
    try done.
  intros [= <-]. by exists l.
Qed.

Lemma copy_run l σ a :
  σ !! l = Some a →
  heap.copy l σ = Ok (fresh (dom σ), <[fresh (dom σ) := a]> σ).
Proof.
  intros Ha. unfold heap.copy. apply bindM_Ok. exists a, σ.
  split; [by apply read_Ok | by apply alloc_Ok].
Qed.

Lemma fresh_None (σ : heap.store) : σ !! fresh (dom σ) = None.
Proof. apply not_elem_of_dom, is_fresh. Qed.

Section heap_facts.

Context `{Lmfit}.
Context `{Float64}.
Variable preedge :
  array → array → option float → option float → option float → Z →
  option float → option float → option Z → result dict.

(** The flattening returns a new array object and leaves every array
    object that existed before as it was: the assignment
    [flat[:ie0] = norm[:ie0]] writes to the new object only. *)
Lemma heap_flatten_norm_frame energy norm e0 norm1 norm2 nnorm fpars
    (σ : heap.store) flat σ' :
  heap._flatten_norm energy norm e0 norm1 norm2 nnorm fpars σ
  = Ok (flat, σ') →
  σ !! flat = None ∧ σ ⊆ σ' ∧ is_Some (σ' !! flat).
Proof.
  unfold heap._flatten_norm. intros Hrun.
  apply bindM_Ok in Hrun as (en & ? & [Hen ->]%read_Ok & Hrun).
  apply bindM_Ok in Hrun as ([[ie0 p1] p2] & ? & [Hidx ->]%lift_Ok & Hrun).
  apply bindM_Ok in Hrun as (ce & σ1 & Hce & Hrun).
  apply copy_fresh in Hce as (a1 & _ & Hce & ->).
  apply bindM_Ok in Hrun as (cn & σ2 & Hcn & Hrun).
  apply copy_fresh in Hcn as (a2 & _ & Hcn & ->).
  apply bindM_Ok in Hrun as (ec & ? & [_ ->]%read_Ok & Hrun).
  apply bindM_Ok in Hrun as (nc & ? & [_ ->]%read_Ok & Hrun).
  apply bindM_Ok in Hrun as ([enx mux] & ? & [_ ->]%lift_Ok & Hrun).
  apply bindM_Ok in Hrun as (best & ? & [_ ->]%lift_Ok & Hrun).
  apply bindM_Ok in Hrun as (en' & ? & [_ ->]%read_Ok & Hrun).
  apply bindM_Ok in Hrun as (at_ie0 & ? & [_ ->]%lift_Ok & Hrun).
  apply bindM_Ok in Hrun as (nm & ? & [_ ->]%read_Ok & Hrun).
  apply bindM_Ok in Hrun as (contents & ? & [_ ->]%lift_Ok & Hrun).
  apply bindM_Ok in Hrun as (lf & σ3 & Hlf & Hrun).
  apply alloc_fresh in Hlf as [Hlf ->].
  apply bindM_Ok in Hrun as (nm' & ? & [_ ->]%read_Ok & Hrun).
  apply bindM_Ok in Hrun as (fl & ? & [_ ->]%read_Ok & Hrun).
  apply bindM_Ok in Hrun as (assigned & ? & [_ ->]%lift_Ok & Hrun).
  apply bindM_Ok in Hrun as ([] & σ4 & [= <-] & [= <- <-]).
  rewrite insert_insert_eq.
  assert (σ ⊆ <[cn := a2]> (<[ce := a1]> σ)) as Hsub.
  { etrans; [by apply insert_subseteq | by apply insert_subseteq]. }
  split_and!.
  - by eapply lookup_weaken_None.
  - etrans; [exact Hsub | by apply insert_subseteq].
  - rewrite lookup_insert_eq. by eexists.
Qed.

(** The flattening over the store computes the curve of the flattening
    on contents. *)
Lemma heap_flatten_norm_run energy norm en nm e0 norm1 norm2 nnorm fpars
    (σ : heap.store) flat :
  σ !! energy = Some en → σ !! norm = Some nm →
  _flatten_norm en nm e0 norm1 norm2 nnorm fpars = Ok flat →
  ∃ lf σ',
    heap._flatten_norm energy norm e0 norm1 norm2 nnorm fpars σ = Ok (lf, σ')
    ∧ σ' !! lf = Some flat.
Proof.
  intros Hen Hnm Hflat. unfold _flatten_norm in Hflat.
  apply bind_Ok in Hflat as ([[ie0 p1] p2] & Hidx & Hflat).
  apply bind_Ok in Hflat as ([enx mux] & Hnans & Hflat).
  apply bind_Ok in Hflat as (best & Hfit & Hflat).
  apply bind_Ok in Hflat as (at_ie0 & Hat & Hflat).
  apply bind_Ok in Hflat as (flat0 & Hsub & Hflat).
  set (ce := fresh (dom σ)). set (σ1 := <[ce := en]> σ).
  set (cn := fresh (dom σ1)). set (σ2 := <[cn := nm]> σ1).
  set (lf := fresh (dom σ2)). set (σ3 := <[lf := flat0]> σ2).
  assert (σ ⊆ σ1) as Hsub1 by apply insert_subseteq, fresh_None.
  assert (σ1 ⊆ σ2) as Hsub2 by apply insert_subseteq, fresh_None.
  assert (σ2 ⊆ σ3) as Hsub3 by apply insert_subseteq, fresh_None.
  assert (σ2 !! ce = Some en) as Hce.
  { eapply lookup_weaken; [|exact Hsub2]. apply lookup_insert_eq. }
  assert (σ2 !! cn = Some nm) as Hcn by apply lookup_insert_eq.
  assert (σ2 !! energy = Some en) as Hen2.
  { eapply lookup_weaken; [exact Hen|]. by etrans. }
  assert (σ2 !! norm = Some nm) as Hnm2.
  { eapply lookup_weaken; [exact Hnm|]. by etrans. }
  exists lf, (<[lf := flat]> σ3). split; [|apply lookup_insert_eq].
  unfold heap._flatten_norm.
  apply bindM_Ok. exists en, σ. split; [by apply read_Ok|].
  apply bindM_Ok. exists (ie0, p1, p2), σ. split; [by apply lift_Ok|].
  apply bindM_Ok. exists ce, σ1. split; [by apply copy_run|].
  apply bindM_Ok. exists cn, σ2. split.
  { apply copy_run. by eapply (lookup_weaken σ). }
  apply bindM_Ok. exists en, σ2. split; [by apply read_Ok|].
  apply bindM_Ok. exists nm, σ2. split; [by apply read_Ok|].
  apply bindM_Ok. exists (enx, mux), σ2. split; [by apply lift_Ok|].
  apply bindM_Ok. exists best, σ2. split; [by apply lift_Ok|].
  apply bindM_Ok. exists en, σ2. split; [by apply read_Ok|].
  apply bindM_Ok. exists at_ie0, σ2. split; [by apply lift_Ok|].
  apply bindM_Ok. exists nm, σ2. split; [by apply read_Ok|].
  apply bindM_Ok. exists flat0, σ2. split; [by apply lift_Ok|].
  apply bindM_Ok. exists lf, σ3. split; [by apply alloc_Ok|].
  apply bindM_Ok. exists nm, σ3. split.
  { apply read_Ok. split; [by eapply (lookup_weaken σ2) | done]. }
  apply bindM_Ok. exists flat0, σ3. split.
  { apply read_Ok. split; [apply lookup_insert_eq | done]. }
  apply bindM_Ok. exists flat, σ3. split; [by apply lift_Ok|].
  apply bindM_Ok. by exists (), (<[lf := flat]> σ3).
Qed.

(** [normalize_absorption] over the store returns the dictionary of
    [normalize_absorption] on contents, with each array in a location. *)
Lemma heap_normalize_absorption_run (σ : heap.store) energy xanes en mu
    e0 pre_range post_range pre_exponent post_order fpars results :
  σ !! energy = Some en → σ !! xanes = Some mu →
  normalize_absorption preedge en mu e0 pre_range post_range pre_exponent
                       post_order fpars = Ok results →
  ∃ hresults σ',
    heap.normalize_absorption preedge energy xanes e0 pre_range post_range
                              pre_exponent post_order fpars σ
    = Ok (hresults, σ')
    ∧ boxed_dict σ' results hresults.
Proof.
  intros Hen Hmu. unfold normalize_absorption. intros Hres.
  apply bind_Ok in Hres as (pre1 & Hpre1 & Hres).
  apply bind_Ok in Hres as (pre2 & Hpre2 & Hres).
  apply bind_Ok in Hres as (n1 & Hn1 & Hres).
  apply bind_Ok in Hres as (n2 & Hn2 & Hres).
  apply bind_Ok in Hres as (r0 & Hr0 & Hres). cbv zeta in Hres.
  apply bind_Ok in Hres as (norm & Hnorm & Hres).
  apply bind_Ok in Hres as (edge & Hedge & Hres).
  apply bind_Ok in Hres as (norm1 & Hnorm1 & Hres).
  apply bind_Ok in Hres as (norm2 & Hnorm2 & Hres).
  apply bind_Ok in Hres as (nnorm & Hnnorm & Hres).
  apply bind_Ok in Hres as (flat & Hflat & [= <-]).
  destruct (box_dict_run r0 σ) as (hd & σ0 & Hbox & Hsub0 & Hd).
  set (le := fresh (dom σ0)). set (σ1 := <[le := en]> σ0).
  set (lr := fresh (dom σ1)). set (σ2 := <[lr := mu]> σ1).
  assert (σ0 ⊆ σ1) as Hsub1 by apply insert_subseteq, fresh_None.
  assert (σ1 ⊆ σ2) as Hsub2 by apply insert_subseteq, fresh_None.
  assert (σ ⊆ σ2) as Hsub by (etrans; [done|]; by etrans).
  set (hr := <["raw" := heap.HRef lr]> (<["energy" := heap.HRef le]> hd)).
  assert (boxed_dict σ2 (<["raw" := VArray (np.copy mu)]>
                           (<["energy" := VArray (np.copy en)]> r0)) hr)
    as Hboxed.
  { apply boxed_dict_insert; [|apply lookup_insert_eq].
    apply boxed_dict_insert.
    - eapply boxed_dict_weaken; [exact Hd | by etrans].
    - simpl. eapply lookup_weaken; [apply lookup_insert_eq | done]. }
  destruct (boxed_as_array _ _ _ _ _ Hboxed Hnorm) as (ln & Hln & Hlnorm).
  destruct (heap_flatten_norm_run energy ln en norm edge norm1 norm2 nnorm
              fpars σ2 flat) as (lf & σ3 & Hrun & Hlf);
    [by eapply (lookup_weaken σ) | done | done |].
  pose proof (heap_flatten_norm_frame _ _ _ _ _ _ _ _ _ _ Hrun)
    as (_ & Hsub3 & _).
  exists (<["flat" := heap.HRef lf]> hr), σ3. split.
  - unfold heap.normalize_absorption.
    apply bindM_Ok. exists pre1, σ. split; [by apply lift_Ok|].
    apply bindM_Ok. exists pre2, σ. split; [by apply lift_Ok|].
    apply bindM_Ok. exists n1, σ. split; [by apply lift_Ok|].
    apply bindM_Ok. exists n2, σ. split; [by apply lift_Ok|].
    apply bindM_Ok. exists en, σ. split; [by apply read_Ok|].
    apply bindM_Ok. exists mu, σ. split; [by apply read_Ok|].
    apply bindM_Ok. exists r0, σ. split; [by apply lift_Ok|].
    apply bindM_Ok. exists hd, σ0. split; [done|].
    apply bindM_Ok. exists le, σ1. split.
    { apply copy_run. by eapply (lookup_weaken σ). }
    apply bindM_Ok. exists lr, σ2. split.
    { apply copy_run. eapply lookup_weaken; [exact Hmu|].
      etrans; [exact Hsub0 | exact Hsub1]. }
    cbv zeta. fold hr.
    apply bindM_Ok. exists ln, σ2. split; [by apply lift_Ok|].
    apply bindM_Ok. exists edge, σ2. split.
    { apply lift_Ok. split; [|done]. by eapply boxed_as_float. }
    apply bindM_Ok. exists norm1, σ2. split.
    { apply lift_Ok. split; [|done]. by eapply boxed_as_float. }
    apply bindM_Ok. exists norm2, σ2. split.
    { apply lift_Ok. split; [|done]. by eapply boxed_as_float. }
    apply bindM_Ok. exists nnorm, σ2. split.
    { apply lift_Ok. split; [|done]. by eapply boxed_as_int. }
    apply bindM_Ok. by exists lf, σ3.
  - apply boxed_dict_insert; [|done].
    by eapply boxed_dict_weaken.
Qed.


End heap_facts.

(** * Further properties of the loaders *)

(** ** The default column names *)

Lemma default_cols_differ : _spec_default_cols ≠ _bluesky_default_cols.
Proof.
  intros Heq.
  assert (_spec_default_cols !! "positioner"
          = _bluesky_default_cols !! "positioner") as Hp by by rewrite Heq.
  vm_compute in Hp. discriminate.
Qed.

(** The entries of the two dictionaries of default names. *)
Ltac default_names :=
  repeat match goal with
         | |- context [lookup_key _bluesky_default_cols ?k] =>
             let v := eval vm_compute in (lookup_key _bluesky_default_cols k) in
             change (lookup_key _bluesky_default_cols k) with v
         | |- context [lookup_key _spec_default_cols ?k] =>
             let v := eval vm_compute in (lookup_key _spec_default_cols k) in
             change (lookup_key _spec_default_cols k) with v
         end.

Section loaders_more.

Context {scan_id kwargs SpecDataFile catalog : Type}.
Variable load_table :
  scan_id → @source SpecDataFile catalog → kwargs → result table.
Variable is_Bluesky_specfile :
  @source SpecDataFile catalog → kwargs → result bool.

(** X1: the selection returns the column names of SPEC exactly when the
    source is a string or a parsed spec file and the check of its origin
    returns [False]; every other selection that returns gives the names
    of Bluesky. *)
Theorem select_default_names_spec_iff s kw :
  (_select_default_names is_Bluesky_specfile s kw = Ok _spec_default_cols
   ↔ is_str_or_spec s = true ∧ is_Bluesky_specfile s kw = Ok false)
  ∧ ∀ d, _select_default_names is_Bluesky_specfile s kw = Ok d →
         d = _spec_default_cols ∨ d = _bluesky_default_cols.
Proof.
  pose proof default_cols_differ as Hne.
  unfold _select_default_names.
  destruct (is_str_or_spec s); [|split; [split|]].
  - destruct (is_Bluesky_specfile s kw) as [[]|e]; simpl.
    + split; [split|].
      * intros Heq. destruct Hne. congruence.
      * by intros [_ [=]].
      * intros d [= <-]. by right.
    + split; [done|]. intros d [= <-]. by left.
    + split; [split|].
      * destruct (not_spec_or_not_found e); [|done].
        intros Heq. destruct Hne. congruence.
      * by intros [_ [=]].
      * intros d. destruct (not_spec_or_not_found e); [|done].
        intros [= <-]. by right.
  - intros Heq. destruct Hne. congruence.
  - by intros [[=] _].
  - intros d [= <-]. by right.
Qed.

(** X2: the selection raises only what the check of the origin raises,
    and of that everything but [NotASpecDataFile] and
    [SpecDataFileNotFound]; for a databroker catalog it cannot raise. *)
Theorem select_default_names_raises_iff s kw e :
  _select_default_names is_Bluesky_specfile s kw = Raise e
  ↔ is_str_or_spec s = true ∧ is_Bluesky_specfile s kw = Raise e
    ∧ e ≠ NotASpecDataFile ∧ e ≠ SpecDataFileNotFound.
Proof.
  unfold _select_default_names.
  destruct (is_str_or_spec s); [|by split; [|intros [[=] _]]].
  destruct (is_Bluesky_specfile s kw) as [check|e']; simpl.
  - split; [done | by intros (_ & [=] & _)].
  - split.
    + destruct e'; simpl; intros [= <-]; done.
    + intros (_ & [= ->] & Hn1 & Hn2). by destruct e.
Qed.

(** ** Columns that are missing *)

(** X3: once the names of the columns are settled and the table is
    loaded, [load_absorption] raises [KeyError] when the table lacks the
    positioner, the detector or the monitor column, in transmission and
    in fluorescence mode alike. *)
Theorem load_absorption_missing_column scan s positioner detector monitor
    transmission kw defaults tbl p d m :
  _select_default_names is_Bluesky_specfile s kw = Ok defaults →
  name_or positioner (lookup_key defaults "positioner") = Ok p →
  name_or detector (lookup_key defaults "detector") = Ok d →
  name_or monitor (lookup_key defaults "monitor") = Ok m →
  load_table scan s kw = Ok tbl →
  tbl !! p = None ∨ tbl !! d = None ∨ tbl !! m = None →
  load_absorption load_table is_Bluesky_specfile scan s positioner detector
                  monitor transmission kw = Raise KeyError.
Proof.
  intros Hsel Hp Hd Hm Htbl Hmiss. unfold load_absorption.
  rewrite Hsel. simpl. rewrite Hp. simpl. rewrite Hd. simpl.
  rewrite Hm. simpl. rewrite Htbl. simpl. unfold lookup_key.
  destruct (tbl !! p) as [x|]; [simpl|done].
  destruct transmission.
  - destruct (tbl !! m) as [mo|]; [simpl|done].
    destruct (tbl !! d) as [de|]; [simpl|done].
    by destruct Hmiss as [|[|]].
  - destruct (tbl !! d) as [de|]; [simpl|done].
    destruct (tbl !! m) as [mo|]; [simpl|done].
    by destruct Hmiss as [|[|]].
Qed.

(** ** Lock-in scans *)

(** X4: [load_lockin] returns the positioner column, the DC column as it
    is, and the AC column less the offset column, item by item. *)
Theorem load_lockin_columns scan s positioner dc_col ac_col acoff_col kw
    defaults tbl p dc ac off x dcs acs offs :
  _select_default_names is_Bluesky_specfile s kw = Ok defaults →
  name_or positioner (lookup_key defaults "positioner") = Ok p →
  name_or dc_col (lookup_key defaults "dc_col") = Ok dc →
  name_or ac_col (lookup_key defaults "ac_col") = Ok ac →
  name_or acoff_col (lookup_key defaults "acoff_col") = Ok off →
  load_table scan s kw = Ok tbl →
  tbl !! p = Some x → tbl !! dc = Some dcs →
  tbl !! ac = Some acs → tbl !! off = Some offs →
  length acs = length offs →
  load_lockin load_table is_Bluesky_specfile scan s positioner dc_col ac_col
              acoff_col kw
  = Ok (x, dcs, zip_with F.sub acs offs).
Proof.
  intros Hsel Hp Hdc Hac Hoff Htbl Hx Hdcs Hacs Hoffs Hlen.
  unfold load_lockin.
  rewrite Hsel. simpl. rewrite Hp. simpl. rewrite Hdc. simpl.
  rewrite Hac. simpl. rewrite Hoff. simpl. rewrite Htbl. simpl.
  unfold lookup_key. rewrite Hx, Hdcs, Hacs, Hoffs. simpl.
  unfold np.sub. by rewrite broadcast_same_length.
Qed.

(** X5: with no column names given, a string or spec-file source is read
    by the origin of the file: the positioner is ['Energy'] and the offset
    ['Lock ACoff'] for a file written by SPEC, and they are
    ['monochromator_energy'] and ['Lock AC off'] for a file written by
    Bluesky; ['Lock DC'] and ['Lock AC'] are read in both. *)
Theorem load_lockin_default_names scan s kw (check : bool) tbl x dcs acs offs :
  is_str_or_spec s = true →
  is_Bluesky_specfile s kw = Ok check →
  load_table scan s kw = Ok tbl →
  tbl !! (if check then "monochromator_energy" else "Energy") = Some x →
  tbl !! "Lock DC" = Some dcs →
  tbl !! "Lock AC" = Some acs →
  tbl !! (if check then "Lock AC off" else "Lock ACoff") = Some offs →
  length acs = length offs →
  load_lockin load_table is_Bluesky_specfile scan s None None None None kw
  = Ok (x, dcs, zip_with F.sub acs offs).
Proof.
  intros Hsrc Hcheck Htbl Hx Hdcs Hacs Hoffs Hlen.
  unfold load_lockin, _select_default_names.
  rewrite Hsrc, Hcheck. simpl.
  destruct check; default_names; simpl; rewrite Htbl; simpl;
    unfold lookup_key; rewrite Hx, Hdcs, Hacs, Hoffs; simpl;
    unfold np.sub; by rewrite broadcast_same_length.
Qed.

End loaders_more.
(** ** Lists *)

Lemma map_zip_with {A B C D} (g : C → D) (f : A → B → C) (a : list A)
    (b : list B) :
  map g (zip_with f a b) = zip_with (λ x y, g (f x y)) a b.
Proof.
  revert b. induction a as [|x a IH]; intros [|y b]; simpl; f_equal; auto.
Qed.

Lemma zip_with_flip {A B C} (f : A → B → C) (a : list A) (b : list B) :
  zip_with f a b = zip_with (λ y x, f x y) b a.
Proof.
  revert b. induction a as [|x a IH]; intros [|y b]; simpl; f_equal; auto.
Qed.

Lemma take4_drop {A} (l : list A) n a b c d :
  l !! n = Some a → l !! (n + 1) = Some b → l !! (n + 2) = Some c →
  l !! (n + 3) = Some d →
  take 4 (drop n l) = [a; b; c; d].
Proof.
  intros Ha Hb Hc Hd.
  rewrite <-(Nat.add_0_r n), <-lookup_drop in Ha.
  rewrite <-lookup_drop in Hb, Hc, Hd.
  destruct (drop n l) as [|a' [|b' [|c' [|d' l']]]]; simplify_eq/=; done.
Qed.

Lemma chunks_lookup nrows ncols (a : array) j :
  j < nrows →
  np2.chunks nrows ncols a !! j = Some (take ncols (drop (j * ncols) a)).
Proof.
  revert a j. induction nrows as [|n IH]; intros a j Hj; [lia|].
  destruct j as [|j]; simpl; [done|].
  rewrite IH by lia. by rewrite drop_drop.
Qed.

Lemma mapM_Ok_lookup {A B} (f : A → result B) (l : list A) l' i x :
  mapM (M := result) f l = Ok l' → l !! i = Some x →
  ∃ y, f x = Ok y ∧ l' !! i = Some y.
Proof.
  revert l' i. induction l as [|x0 l IH]; intros l' i Hl Hx; [done|].
  simpl in Hl. apply bind_Ok in Hl as (y & Hy & Hl).
  apply bind_Ok in Hl as (k & Hk & [= <-]).
  destruct i as [|i]; simpl in *.
  - injection Hx as ->. by exists y.
  - by apply IH.
Qed.

(** ** Dichroism from one scan *)

Section dichro_facts.

Context {scan_id kwargs SpecDataFile catalog : Type}.
Variable load_table :
  scan_id → @source SpecDataFile catalog → kwargs → result table.
Variable is_Bluesky_specfile :
  @source SpecDataFile catalog → kwargs → result bool.

(** X6: for a string source other than ['csv'] and for a parsed spec
    file, [load_dichro] raises whatever the check of the origin raises,
    [NotASpecDataFile] and [SpecDataFileNotFound] included: the check in
    its first test is outside any [try], unlike the one in the selection
    of the default names. *)
Theorem load_dichro_origin_check_raises scan s positioner detector monitor
    transmission kw e :
  is_str_or_spec s = true → is_not_csv s = true →
  is_Bluesky_specfile s kw = Raise e →
  load_dichro load_table is_Bluesky_specfile scan s positioner detector
              monitor transmission kw = Raise e.
Proof.
  intros Hsrc Hcsv Hraise. unfold load_dichro, _in_spec_columns.
  by rewrite Hsrc, Hcsv, Hraise.
Qed.

(** X7: in the branch for the columns of SPEC, [load_dichro] reads the
    positioner and the four columns named by the monitor and the detector
    with the suffixes ['(+)'] and ['(-)'], the names left out being those
    of SPEC.  With the absorption of each helicity computed as in
    [load_absorption], [xanes] is the half sum and [xmcd] the difference
    of the two, item by item. *)
Theorem load_dichro_spec_columns scan s positioner detector monitor
    transmission kw tbl p d m x monp detp monm detm :
  _in_spec_columns is_Bluesky_specfile s kw = Ok true →
  name_or positioner (lookup_key _spec_default_cols "positioner") = Ok p →
  name_or monitor (lookup_key _spec_default_cols "monitor") = Ok m →
  name_or detector (lookup_key _spec_default_cols "detector") = Ok d →
  load_table scan s kw = Ok tbl →
  tbl !! p = Some x →
  tbl !! (m +:+ "(+)") = Some monp → tbl !! (d +:+ "(+)") = Some detp →
  tbl !! (m +:+ "(-)") = Some monm → tbl !! (d +:+ "(-)") = Some detm →
  length monp = length detp → length monm = length detm →
  length monp = length monm →
  load_dichro load_table is_Bluesky_specfile scan s positioner detector
              monitor transmission kw
  = Ok (x,
        zip_with (λ plus minus, (plus + minus) / Fin 2)%fl
                 (absorption transmission monp detp)
                 (absorption transmission monm detm),
        zip_with F.sub (absorption transmission monp detp)
                 (absorption transmission monm detm)).
Proof.
  intros Hbranch Hp Hm Hd Htbl Hx Hmonp Hdetp Hmonm Hdetm Hlp Hlm Hlen.
  unfold load_dichro. rewrite Hbranch. cbn [mbind result_bind].
  rewrite Hp. cbn [mbind result_bind]. rewrite Hm. cbn [mbind result_bind].
  rewrite Hd. cbn [mbind result_bind]. rewrite Htbl.
  cbn [mbind result_bind]. unfold lookup_key.
  rewrite Hx, Hmonp, Hdetp, Hmonm, Hdetm.
  cbn [or_raise mbind result_bind]. unfold np.div, np.sub, absorption.
  destruct transmission.
  - rewrite !broadcast_same_length by done.
    cbn [fmap result_fmap mbind result_bind]. unfold np.log.
    rewrite !map_zip_with.
    rewrite !broadcast_same_length by (rewrite !length_zip_with; lia).
    cbn [mbind result_bind]. unfold np.div_scalar.
    by rewrite map_zip_with.
  - rewrite !broadcast_same_length by lia.
    cbn [mbind result_bind].
    rewrite !broadcast_same_length by (rewrite !length_zip_with; lia).
    cbn [mbind result_bind]. unfold np.div_scalar.
    rewrite map_zip_with.
    by rewrite (zip_with_flip F.div detp monp), (zip_with_flip F.div detm monm).
Qed.

(** X8: in the other branch the samples are taken in groups of four.  For
    a scan of [4 * k] samples, item [j] of the positioner returned is the
    mean of the four positions of group [j], item [j] of [xanes] the mean
    of the four absorption values of the group, and item [j] of [xmcd] the
    mean of its first and last value less the mean of its two middle
    values. *)
Theorem load_dichro_groups scan s positioner detector monitor transmission
    kw x0 y0 k :
  _in_spec_columns is_Bluesky_specfile s kw = Ok false →
  load_absorption load_table is_Bluesky_specfile scan s positioner detector
                  monitor transmission kw = Ok (x0, y0) →
  length x0 = 4 * k → length y0 = 4 * k →
  ∃ x xanes xmcd,
    load_dichro load_table is_Bluesky_specfile scan s positioner detector
                monitor transmission kw = Ok (x, xanes, xmcd)
    ∧ (∀ j e1 e2 e3 e4,
         x0 !! (4 * j) = Some e1 → x0 !! (4 * j + 1) = Some e2 →
         x0 !! (4 * j + 2) = Some e3 → x0 !! (4 * j + 3) = Some e4 →
         x !! j = Some (np2.mean [e1; e2; e3; e4]))
    ∧ (∀ j a b c d,
         y0 !! (4 * j) = Some a → y0 !! (4 * j + 1) = Some b →
         y0 !! (4 * j + 2) = Some c → y0 !! (4 * j + 3) = Some d →
         xanes !! j = Some (np2.mean [a; b; c; d])
         ∧ xmcd !! j = Some (np2.mean [a; d] - np2.mean [b; c])%fl).
Proof.
  intros Hbranch Hload Hlx Hly. unfold load_dichro.
  rewrite Hbranch. cbn [mbind result_bind]. rewrite Hload.
  cbn [mbind result_bind].
  assert (length x0 / 4 = k) as ->.
  { rewrite Hlx, Nat.mul_comm. by apply Nat.div_mul. }
  unfold np2.reshape. rewrite !decide_True by lia.
  cbn [mbind result_bind].
  destruct (take_columns_chunks k y0 [0; 3]) as (c03 & H03 & Hc03).
  { lia. } { repeat constructor; lia. }
  destruct (take_columns_chunks k y0 [1; 2]) as (c12 & H12 & Hc12).
  { lia. } { repeat constructor; lia. }
  rewrite H03, H12. cbn [mbind result_bind]. unfold np.sub, np2.mean_axis1.
  rewrite broadcast_same_length by (rewrite !length_map; lia).
  cbn [mbind result_bind].
  eexists _, _, _. split; [done|].
  assert (∀ (l : array) j a b c d,
            length l = 4 * k →
            l !! (4 * j) = Some a → l !! (4 * j + 1) = Some b →
            l !! (4 * j + 2) = Some c → l !! (4 * j + 3) = Some d →
            np2.chunks k 4 l !! j = Some [a; b; c; d]) as Hrow.
  { intros l j a b c d Hl Ha Hb Hc Hd.
    pose proof (lookup_lt_Some _ _ _ Hd).
    rewrite chunks_lookup by lia. f_equal.
    rewrite (Nat.mul_comm j 4). by apply take4_drop. }
  change (map ?g ?l) with (g <$> l). split.
  - intros j e1 e2 e3 e4 H1 H2 H3 H4.
    by rewrite list_lookup_fmap, (Hrow x0 j e1 e2 e3 e4).
  - intros j a b c d Ha Hb Hc Hd.
    pose proof (Hrow y0 j a b c d Hly Ha Hb Hc Hd) as Hj.
    split; [by rewrite list_lookup_fmap, Hj|].
    unfold np2.take_columns in H03, H12.
    destruct (mapM_Ok_lookup _ _ _ _ _ H03 Hj) as (r03 & Hr03 & Hl03).
    destruct (mapM_Ok_lookup _ _ _ _ _ H12 Hj) as (r12 & Hr12 & Hl12).
    injection Hr03 as <-. injection Hr12 as <-.
    by rewrite lookup_zip_with, !list_lookup_fmap, Hl03, Hl12.
Qed.

End dichro_facts.
(** ** Rows resampled by [interp1d] *)

Lemma interp1d_call_length x y k fill_value bounds_error f
    (grid row : array) :
  scipy.interp1d x y k fill_value bounds_error = Ok f →
  f grid = Ok row → length row = length grid.
Proof.
  unfold scipy.interp1d. intros Hf Hrow.
  repeat case_decide; try done. injection Hf as <-.
  unfold scipy.call_linear in Hrow.
  destruct (scipy.sort_points (zip x y)) as [|[x0 y0] rest]; [done|].
  destruct (last ((x0, y0) :: rest)) as [[xn yn]|]; [|done].
  destruct (bounds_error && _); [done|].
  injection Hrow as <-. by rewrite length_map.
Qed.

Lemma vstack_Ok (a : ndarray) (row : array) a' :
  np2.vstack a row = Ok a' →
  match a with
  | Arr1 r0 => length r0 = length row ∧ a' = Arr2 (length row) [r0; row]
  | Arr2 n rows => n = length row ∧ a' = Arr2 n (rows ++ [row])
  end.
Proof.
  unfold np2.vstack. destruct a as [r0|n rows]; case_decide; try done.
  - intros [= <-]. split; [done|]. by f_equal.
  - by intros [= <-].
Qed.

Lemma length_mean_axis0 ncols rows :
  length (np2.mean_axis0 ncols rows) = ncols.
Proof. unfold np2.mean_axis0. by rewrite length_map, length_seq. Qed.

Lemma length_std_axis0 ncols rows :
  length (np2.std_axis0 ncols rows) = ncols.
Proof. unfold np2.std_axis0. by rewrite length_map, length_seq. Qed.

Lemma length_div_scalar a v : length (np.div_scalar a v) = length a.
Proof. unfold np.div_scalar. by rewrite length_map. Qed.

(** ** Mean and standard error of two rows *)

Lemma mean_two (a b : R) : np2.mean [Fin a; Fin b] = Fin ((a + b) / 2).
Proof.
  unfold np2.mean, np2.sum. simpl.
  case_decide; [lra|]. f_equal. field.
Qed.

Lemma std_two (a b : R) : np2.std [Fin a; Fin b] = Fin (Rabs (a - b) / 2).
Proof.
  unfold np2.std. rewrite mean_two. unfold np2.mean, np2.sum. simpl.
  case_decide; [lra|]. unfold F.sqrt.
  replace ((0 + (a + - ((a + b) / 2)) * (a + - ((a + b) / 2))
            + (b + - ((a + b) / 2)) * (b + - ((a + b) / 2))) / (1 + 1))%R
    with (Rsqr ((a - b) / 2)) by (unfold Rsqr; field).
  case_decide as Hneg.
  - pose proof (Rle_0_sqr ((a - b) / 2)). lra.
  - f_equal. rewrite sqrt_Rsqr_abs.
    unfold Rdiv. rewrite Rabs_mult, (Rabs_pos_eq (/ 2)); [done | lra].
Qed.

Lemma column_two (xs ys : array) j x y :
  xs !! j = Some x → ys !! j = Some y → np2.column [xs; ys] j = [x; y].
Proof. intros Hx Hy. unfold np2.column. simpl. by rewrite Hx, Hy. Qed.

Lemma mean_axis0_two (xs ys : list R) :
  length ys = length xs →
  np2.mean_axis0 (length xs) [Fin <$> xs; Fin <$> ys]
  = zip_with (λ a b, Fin ((a + b) / 2)) xs ys.
Proof.
  intros Hlen. unfold np2.mean_axis0. apply list_eq. intros j.
  change (map ?g ?l) with (g <$> l).
  rewrite list_lookup_fmap, lookup_zip_with.
  destruct (xs !! j) as [x|] eqn:Hx.
  - destruct (lookup_lt_is_Some_2 ys j) as [y Hy].
    { rewrite Hlen. by eapply lookup_lt_Some. }
    rewrite lookup_seq_lt by (by eapply lookup_lt_Some).
    rewrite Hy. cbn [fmap option_fmap option_map Nat.add mbind option_bind].
    rewrite (column_two _ _ j (Fin x) (Fin y))
      by (by rewrite list_lookup_fmap, ?Hx, ?Hy).
    by rewrite mean_two.
  - rewrite lookup_seq_ge; [done|]. by apply lookup_ge_None.
Qed.

Lemma sqrt_of_nat_2 : F.sqrt (F.of_nat 2) = Fin (sqrt 2).
Proof.
  unfold F.sqrt, F.of_nat. simpl. case_decide; [lra|]. reflexivity.
Qed.

Lemma std_error_two (xs ys : list R) :
  length ys = length xs →
  np.div_scalar (np2.std_axis0 (length xs) [Fin <$> xs; Fin <$> ys])
                (F.sqrt (F.of_nat 2))
  = zip_with (λ a b, Fin (Rabs (a - b) / 2 / sqrt 2)) xs ys.
Proof.
  intros Hlen. rewrite sqrt_of_nat_2.
  assert (sqrt 2 ≠ 0)%R as Hsqrt.
  { intros Heq. apply sqrt_eq_0 in Heq; lra. }
  unfold np.div_scalar, np2.std_axis0. apply list_eq. intros j.
  change (map ?g ?l) with (g <$> l).
  rewrite !list_lookup_fmap, lookup_zip_with.
  destruct (xs !! j) as [x|] eqn:Hx.
  - destruct (lookup_lt_is_Some_2 ys j) as [y Hy].
    { rewrite Hlen. by eapply lookup_lt_Some. }
    rewrite lookup_seq_lt by (by eapply lookup_lt_Some).
    rewrite Hy. cbn [fmap option_fmap option_map Nat.add mbind option_bind].
    rewrite (column_two _ _ j (Fin x) (Fin y))
      by (by rewrite list_lookup_fmap, ?Hx, ?Hy).
    rewrite std_two. simpl. by rewrite decide_False.
  - rewrite lookup_seq_ge; [done|]. by apply lookup_ge_None.
Qed.

(** ** Further properties of the aggregation of absorption scans *)

Section multi_xas_more.

Context {scan_id kwargs SpecDataFile catalog : Type}.
Variable load_table :
  scan_id → @source SpecDataFile catalog → kwargs → result table.
Variable is_Bluesky_specfile :
  @source SpecDataFile catalog → kwargs → result bool.

Lemma stack_xas_loads s positioner detector monitor transmission kw scans
    state state' :
  stack_xas load_table is_Bluesky_specfile scans s positioner detector
            monitor transmission kw state = Ok state' →
  Forall (λ scan, is_Ok (load_absorption load_table is_Bluesky_specfile scan
                                         s positioner detector monitor
                                         transmission kw)) scans.
Proof.
  revert state. induction scans as [|scan scans IH]; intros state Hst.
  { constructor. }
  cbn [stack_xas] in Hst. apply bind_Ok in Hst as (st & Hstep & Hst).
  constructor; [|by eapply IH].
  destruct state as [[energy xanes]|];
    apply bind_Ok in Hstep as ([e x] & Hload & _); by eexists.
Qed.

(** X10: when [load_multi_xas] returns, every scan of the sequence was
    loaded by [load_absorption] without an exception: no scan is skipped,
    and a scan that fails to load is never replaced by a row of [NaN]. *)
Theorem load_multi_xas_loads_every_scan scans s return_mean positioner
    detector monitor transmission kw r :
  load_multi_xas load_table is_Bluesky_specfile scans s return_mean
                 positioner detector monitor transmission kw = Ok r →
  Forall (λ scan, is_Ok (load_absorption load_table is_Bluesky_specfile scan
                                         s positioner detector monitor
                                         transmission kw)) scans.
Proof.
  unfold load_multi_xas. intros Hr.
  apply bind_Ok in Hr as (state & Hst & _). by eapply stack_xas_loads.
Qed.

Lemma stack_xas_shape s positioner detector monitor transmission kw scans
    (energy : array) rows0 state' :
  stack_xas load_table is_Bluesky_specfile scans s positioner detector
            monitor transmission kw
            (Some (energy, Arr2 (length energy) rows0)) = Ok state' →
  ∃ rows, state' = Some (energy, Arr2 (length energy) (rows0 ++ rows))
          ∧ length rows = length scans
          ∧ Forall (λ row, length row = length energy) rows.
Proof.
  revert rows0. induction scans as [|scan scans IH]; intros rows0 Hst.
  { injection Hst as <-. exists []. by rewrite app_nil_r. }
  cbn [stack_xas] in Hst. apply bind_Ok in Hst as (st & Hstep & Hst).
  apply bind_Ok in Hstep as ([et xt] & _ & Hstep).
  apply bind_Ok in Hstep as (f & Hf & Hstep).
  apply bind_Ok in Hstep as (row & Hrow & Hstep).
  apply bind_Ok in Hstep as (xanes & Hv & [= <-]).
  apply vstack_Ok in Hv as [_ ->].
  apply IH in Hst as (rows & -> & Hlen & Hall).
  exists (row :: rows). split_and!.
  - by rewrite <-app_assoc.
  - simpl. by rewrite Hlen.
  - constructor; [by eapply interp1d_call_length | done].
Qed.

(** X11: the shapes of what [load_multi_xas] returns.  The energies are
    the positioner of the first scan.  For one scan the absorption is
    returned as loaded, with zeros of its length as the error when
    [return_mean] is set.  For more scans the absorption of the first
    scan has the length of the energies; without [return_mean] the result
    has one row per scan, the first scan first, every row of the length of
    the energies; with [return_mean] the mean and its error are arrays of
    one dimension of the length of the energies. *)
Theorem load_multi_xas_shapes scan0 scans s return_mean positioner detector
    monitor transmission kw energy xanes xanes_std :
  load_multi_xas load_table is_Bluesky_specfile (scan0 :: scans) s
                 return_mean positioner detector monitor transmission kw
  = Ok (energy, xanes, xanes_std) →
  ∃ xanes0,
    load_absorption load_table is_Bluesky_specfile scan0 s positioner
                    detector monitor transmission kw = Ok (energy, xanes0)
    ∧ match scans with
      | [] =>
          xanes = Arr1 xanes0
          ∧ xanes_std = (if return_mean
                         then Some (np.zeros (length xanes0)) else None)
      | _ :: _ =>
          length xanes0 = length energy
          ∧ if return_mean
            then ∃ mean error,
                   xanes = Arr1 mean ∧ xanes_std = Some error
                   ∧ length mean = length energy
                   ∧ length error = length energy
            else ∃ rows,
                   xanes = Arr2 (length energy) (xanes0 :: rows)
                   ∧ xanes_std = None
                   ∧ length rows = length scans
                   ∧ Forall (λ row, length row = length energy) rows
      end.
Proof.
  unfold load_multi_xas. intros Hr.
  apply bind_Ok in Hr as (state & Hst & Hr).
  cbn [stack_xas] in Hst. apply bind_Ok in Hst as ([e0 x0] & Hstep & Hst).
  apply bind_Ok in Hstep as ([e x] & Hload & [= <- <-]).
  destruct scans as [|scan1 scans].
  - injection Hst as <-. cbn [or_raise mbind result_bind] in Hr.
    exists x. destruct return_mean; injection Hr as <- <- <-; done.
  - cbn [stack_xas] in Hst. apply bind_Ok in Hst as (st & Hstep & Hst).
    apply bind_Ok in Hstep as ([et xt] & _ & Hstep).
    apply bind_Ok in Hstep as (f & Hf & Hstep).
    apply bind_Ok in Hstep as (row & Hrow & Hstep).
    apply bind_Ok in Hstep as (x2 & Hv & [= <-]).
    apply vstack_Ok in Hv as [Hlen ->].
    pose proof (interp1d_call_length _ _ _ _ _ _ _ _ Hf Hrow) as Hlrow.
    rewrite Hlrow in Hst.
    apply stack_xas_shape in Hst as (rows & -> & Hrows & Hall).
    cbn [or_raise mbind result_bind] in Hr.
    destruct return_mean; injection Hr as <- <- <-.
    + exists x. split; [done|]. split; [lia|].
      eexists _, _. split_and!; [done..| |].
      * by rewrite length_mean_axis0.
      * by rewrite length_div_scalar, length_std_axis0.
    + exists x. split; [done|]. split; [lia|].
      exists (row :: rows). split_and!; [done..| |].
      * simpl. by rewrite Hrows.
      * by constructor.
Qed.

(** X12: two scans taken at the same energies (finite and strictly
    increasing, at least two of them) with finite absorption values [a]
    and [b]: with [return_mean] set, [load_multi_xas] returns the
    energies, the mean [(a + b) / 2] at every energy, and as the error of
    the mean the population standard deviation [|a - b| / 2] divided by
    the square root of the number of scans. *)
Theorem load_multi_xas_two_scans_mean s positioner detector monitor
    transmission kw scan1 scan2 (es xs ys : list R) :
  load_absorption load_table is_Bluesky_specfile scan1 s positioner detector
                  monitor transmission kw = Ok (Fin <$> es, Fin <$> xs) →
  load_absorption load_table is_Bluesky_specfile scan2 s positioner detector
                  monitor transmission kw = Ok (Fin <$> es, Fin <$> ys) →
  increasing es → 2 ≤ length es →
  length xs = length es → length ys = length es →
  load_multi_xas load_table is_Bluesky_specfile [scan1; scan2] s true
                 positioner detector monitor transmission kw
  = Ok (Fin <$> es,
        Arr1 (zip_with (λ a b, Fin ((a + b) / 2)) xs ys),
        Some (zip_with (λ a b, Fin (Rabs (a - b) / 2 / sqrt 2)) xs ys)).
Proof.
  intros Hload1 Hload2 Hinc Hlen2 Hlx Hly.
  destruct (interp1d_resampled es (Fin <$> ys) (Fin <$> es) Hinc Hlen2)
    as (f & row & Hf & Hrow & Hres); [by rewrite length_fmap|].
  apply resampled_self in Hres as ->; [|done..].
  unfold load_multi_xas. cbn [stack_xas].
  rewrite Hload1. cbn [mbind result_bind]. rewrite Hload2.
  cbn [mbind result_bind]. rewrite Hf.
  cbn [mbind result_bind]. rewrite Hrow. cbn [mbind result_bind].
  unfold np2.vstack.
  rewrite decide_True by (rewrite !length_fmap; lia).
  cbn [mbind result_bind or_raise length].
  rewrite length_fmap, mean_axis0_two, std_error_two by lia. done.
Qed.

End multi_xas_more.
(** ** The aggregation of dichroism scans *)

Section stack_pair_facts.

Context {scan_id : Type}.
Variable load : scan_id → result (array * array * array).

Lemma stack_pair_shape scans (energy : array) rows0 rows0' state' :
  stack_pair load scans (Some (energy, Arr2 (length energy) rows0,
                               Arr2 (length energy) rows0')) = Ok state' →
  ∃ rows rows',
    state' = Some (energy, Arr2 (length energy) (rows0 ++ rows),
                   Arr2 (length energy) (rows0' ++ rows'))
    ∧ length rows = length scans ∧ length rows' = length scans
    ∧ Forall (λ row, length row = length energy) rows
    ∧ Forall (λ row, length row = length energy) rows'.
Proof.
  revert rows0 rows0'.
  induction scans as [|scan scans IH]; intros rows0 rows0' Hst.
  { injection Hst as <-. exists [], []. by rewrite !app_nil_r. }
  cbn [stack_pair] in Hst. apply bind_Ok in Hst as (st & Hstep & Hst).
  apply bind_Ok in Hstep as ([[et xt] mt] & _ & Hstep).
  apply bind_Ok in Hstep as (f & Hf & Hstep).
  apply bind_Ok in Hstep as (row & Hrow & Hstep).
  apply bind_Ok in Hstep as (xanes & Hv & Hstep).
  apply bind_Ok in Hstep as (g & Hg & Hstep).
  apply bind_Ok in Hstep as (row' & Hrow' & Hstep).
  apply bind_Ok in Hstep as (xmcd & Hv' & [= <-]).
  apply vstack_Ok in Hv as [_ ->]. apply vstack_Ok in Hv' as [_ ->].
  apply IH in Hst as (rows & rows' & -> & Hlen & Hlen' & Hall & Hall').
  exists (row :: rows), (row' :: rows'). split_and!.
  - by rewrite <-!app_assoc.
  - simpl. by rewrite Hlen.
  - simpl. by rewrite Hlen'.
  - constructor; [|done].
    exact (interp1d_call_length _ _ _ _ _ _ _ _ Hf Hrow).
  - constructor; [|done].
    exact (interp1d_call_length _ _ _ _ _ _ _ _ Hg Hrow').
Qed.

Lemma multi_pair_shapes scan0 scans return_mean energy xanes xmcd stds :
  multi_pair load (scan0 :: scans) return_mean
  = Ok (energy, xanes, xmcd, stds) →
  ∃ xanes0 xmcd0,
    load scan0 = Ok (energy, xanes0, xmcd0)
    ∧ pair_shapes (length scans) return_mean energy xanes0 xmcd0 xanes xmcd
                  stds.
Proof.
  unfold multi_pair. intros Hr.
  apply bind_Ok in Hr as (state & Hst & Hr).
  cbn [stack_pair] in Hst. apply bind_Ok in Hst as (st0 & Hstep & Hst).
  apply bind_Ok in Hstep as ([[e x] m] & Hload & [= <-]).
  exists x, m. destruct scans as [|scan1 scans].
  - injection Hst as <-. cbn [or_raise mbind result_bind] in Hr.
    destruct return_mean; injection Hr as <- <- <- <-; done.
  - cbn [stack_pair] in Hst. apply bind_Ok in Hst as (st & Hstep & Hst).
    apply bind_Ok in Hstep as ([[et xt] mt] & _ & Hstep).
    apply bind_Ok in Hstep as (f & Hf & Hstep).
    apply bind_Ok in Hstep as (row & Hrow & Hstep).
    apply bind_Ok in Hstep as (x2 & Hv & Hstep).
    apply bind_Ok in Hstep as (g & Hg & Hstep).
    apply bind_Ok in Hstep as (row' & Hrow' & Hstep).
    apply bind_Ok in Hstep as (m2 & Hv' & [= <-]).
    apply vstack_Ok in Hv as [Hlen ->]. apply vstack_Ok in Hv' as [Hlen' ->].
    pose proof (interp1d_call_length _ _ _ _ _ _ _ _ Hf Hrow) as Hlrow.
    pose proof (interp1d_call_length _ _ _ _ _ _ _ _ Hg Hrow') as Hlrow'.
    rewrite Hlrow, Hlrow' in Hst.
    apply stack_pair_shape in Hst
      as (rows & rows' & -> & Hrows & Hrows' & Hall & Hall').
    cbn [or_raise mbind result_bind] in Hr.
    destruct return_mean; injection Hr as <- <- <- <-.
    + split; [done|]. cbn [length pair_shapes]. split_and!; [lia..|].
      eexists _, _, _, _. split_and!; [done..| | | |].
      * by rewrite length_mean_axis0.
      * by rewrite length_mean_axis0.
      * by rewrite length_div_scalar, length_std_axis0.
      * by rewrite length_div_scalar, length_std_axis0.
    + split; [done|]. cbn [length pair_shapes]. split_and!; [lia..|].
      exists (row :: rows), (row' :: rows'). split_and!; [done..| | | |].
      * simpl. by rewrite Hrows.
      * simpl. by rewrite Hrows'.
      * by constructor.
      * by constructor.
Qed.

Lemma multi_pair_two_scans_mean scan1 scan2 (es xs ys ms ns : list R) :
  load scan1 = Ok (Fin <$> es, Fin <$> xs, Fin <$> ms) →
  load scan2 = Ok (Fin <$> es, Fin <$> ys, Fin <$> ns) →
  increasing es → 2 ≤ length es →
  length xs = length es → length ys = length es →
  length ms = length es → length ns = length es →
  multi_pair load [scan1; scan2] true
  = Ok (Fin <$> es,
        Arr1 (zip_with (λ a b, Fin ((a + b) / 2)) xs ys),
        Array (Arr1 (zip_with (λ a b, Fin ((a + b) / 2)) ms ns)),
        Some (zip_with (λ a b, Fin (Rabs (a - b) / 2 / sqrt 2)) xs ys,
              Array (Arr1 (zip_with (λ a b, Fin (Rabs (a - b) / 2 / sqrt 2))
                                    ms ns)))).
Proof.
  intros Hload1 Hload2 Hinc Hlen2 Hlx Hly Hlm Hln.
  destruct (interp1d_resampled es (Fin <$> ys) (Fin <$> es) Hinc Hlen2)
    as (f & row & Hf & Hrow & Hres); [by rewrite length_fmap|].
  apply resampled_self in Hres as ->; [|done..].
  destruct (interp1d_resampled es (Fin <$> ns) (Fin <$> es) Hinc Hlen2)
    as (g & row & Hg & Hrow' & Hres); [by rewrite length_fmap|].
  apply resampled_self in Hres as ->; [|done..].
  unfold multi_pair. cbn [stack_pair].
  rewrite Hload1. cbn [mbind result_bind]. rewrite Hload2.
  cbn [mbind result_bind]. rewrite Hf.
  cbn [mbind result_bind]. rewrite Hrow. cbn [mbind result_bind].
  unfold np2.vstack.
  rewrite decide_True by (rewrite !length_fmap; lia).
  cbn [mbind result_bind]. rewrite Hg.
  cbn [mbind result_bind]. rewrite Hrow'. cbn [mbind result_bind].
  rewrite decide_True by (rewrite !length_fmap; lia).
  cbn [mbind result_bind or_raise length nd.std_axis0 nd.mean_axis0
       nd.div_scalar].
  rewrite !length_fmap, !mean_axis0_two, !std_error_two by lia. done.
Qed.

End stack_pair_facts.

Section multi_pair_facts.

Context {scan_id kwargs SpecDataFile catalog : Type}.
Variable load_table :
  scan_id → @source SpecDataFile catalog → kwargs → result table.
Variable is_Bluesky_specfile :
  @source SpecDataFile catalog → kwargs → result bool.

Lemma stack_dichro_pair scans s positioner detector monitor transmission kw
    state :
  stack_dichro load_table is_Bluesky_specfile scans s positioner detector
               monitor transmission kw state
  = stack_pair (λ scan, load_dichro load_table is_Bluesky_specfile scan s
                                    positioner detector monitor transmission
                                    kw) scans state.
Proof.
  revert state. induction scans as [|scan scans IH]; intros state; [done|].
  cbn [stack_dichro stack_pair].
  match goal with |- ?m ≫= _ = _ => destruct m as [st|e] end; [|done].
  cbn [mbind result_bind]. apply IH.
Qed.

Lemma stack_lockin_pair scans s positioner dc_col ac_col acoff_col kw state :
  stack_lockin load_table is_Bluesky_specfile scans s positioner dc_col
               ac_col acoff_col kw state
  = stack_pair (λ scan, load_lockin load_table is_Bluesky_specfile scan s
                                    positioner dc_col ac_col acoff_col kw)
               scans state.
Proof.
  revert state. induction scans as [|scan scans IH]; intros state; [done|].
  cbn [stack_lockin stack_pair].
  match goal with |- ?m ≫= _ = _ => destruct m as [st|e] end; [|done].
  cbn [mbind result_bind]. apply IH.
Qed.

(** X9: on an empty sequence of scans the three aggregations raise
    [NameError] (an [UnboundLocalError]: the loop assigns nothing, and the
    end reads [xanes] or [energy]), whether [return_mean] is set or not,
    and they call neither the table loader nor the check of the origin. *)
Theorem load_multi_empty s (return_mean : bool) positioner detector monitor
    transmission dc_col ac_col acoff_col kw :
  load_multi_xas load_table is_Bluesky_specfile [] s return_mean positioner
                 detector monitor transmission kw = Raise NameError
  ∧ load_multi_dichro load_table is_Bluesky_specfile [] s return_mean
                      positioner detector monitor transmission kw
    = Raise NameError
  ∧ load_multi_lockin load_table is_Bluesky_specfile [] s return_mean
                      positioner dc_col ac_col acoff_col kw
    = Raise NameError.
Proof. done. Qed.

(** X13: the shapes of what [load_multi_dichro] returns.  The energies
    are the positioner of the first scan.  For one scan, [xanes] and
    [xmcd] are returned as loaded, and with [return_mean] both errors are
    zeros of the length of [xanes].  For more scans, [xanes] and [xmcd] of
    the first scan have the length of the energies; without [return_mean]
    each of the two results has one row per scan, the first scan first,
    every row of the length of the energies; with [return_mean] the two
    means and the two errors are arrays of one dimension of the length of
    the energies.  [xmcd] never comes out as a single number: it has the
    shape of [xanes]. *)
Theorem load_multi_dichro_shapes scan0 scans s return_mean positioner
    detector monitor transmission kw energy xanes xmcd stds :
  load_multi_dichro load_table is_Bluesky_specfile (scan0 :: scans) s
                    return_mean positioner detector monitor transmission kw
  = Ok (energy, xanes, xmcd, stds) →
  ∃ xanes0 xmcd0,
    load_dichro load_table is_Bluesky_specfile scan0 s positioner detector
                monitor transmission kw = Ok (energy, xanes0, xmcd0)
    ∧ pair_shapes (length scans) return_mean energy xanes0 xmcd0 xanes xmcd
                  stds.
Proof.
  intros Hr.
  apply (multi_pair_shapes
           (λ scan, load_dichro load_table is_Bluesky_specfile scan s
                                positioner detector monitor transmission kw)).
  unfold multi_pair. rewrite <-stack_dichro_pair. exact Hr.
Qed.

(** X14: the shapes of what [load_multi_lockin] returns, which are those
    of [load_multi_dichro] with [load_lockin] as the loader of one scan:
    the DC response in the place of [xanes], the AC response less its
    offset in the place of [xmcd]. *)
Theorem load_multi_lockin_shapes scan0 scans s return_mean positioner dc_col
    ac_col acoff_col kw energy xanes xmcd stds :
  load_multi_lockin load_table is_Bluesky_specfile (scan0 :: scans) s
                    return_mean positioner dc_col ac_col acoff_col kw
  = Ok (energy, xanes, xmcd, stds) →
  ∃ xanes0 xmcd0,
    load_lockin load_table is_Bluesky_specfile scan0 s positioner dc_col
                ac_col acoff_col kw = Ok (energy, xanes0, xmcd0)
    ∧ pair_shapes (length scans) return_mean energy xanes0 xmcd0 xanes xmcd
                  stds.
Proof.
  intros Hr.
  apply (multi_pair_shapes
           (λ scan, load_lockin load_table is_Bluesky_specfile scan s
                                positioner dc_col ac_col acoff_col kw)).
  unfold multi_pair. rewrite <-stack_lockin_pair. exact Hr.
Qed.

(** X23: two dichroism scans taken at the same energies (finite and
    strictly increasing, at least two of them) with finite values: with
    [return_mean] set, [load_multi_dichro] returns the energies, the mean
    of the two absorptions and the mean of the two dichroisms at every
    energy, and as the error of each mean the population standard
    deviation [|a - b| / 2] divided by the square root of the number of
    scans. *)
Theorem load_multi_dichro_two_scans_mean s positioner detector monitor
    transmission kw scan1 scan2 (es xs ys ms ns : list R) :
  load_dichro load_table is_Bluesky_specfile scan1 s positioner detector
              monitor transmission kw
  = Ok (Fin <$> es, Fin <$> xs, Fin <$> ms) →
  load_dichro load_table is_Bluesky_specfile scan2 s positioner detector
              monitor transmission kw
  = Ok (Fin <$> es, Fin <$> ys, Fin <$> ns) →
  increasing es → 2 ≤ length es →
  length xs = length es → length ys = length es →
  length ms = length es → length ns = length es →
  load_multi_dichro load_table is_Bluesky_specfile [scan1; scan2] s true
                    positioner detector monitor transmission kw
  = Ok (Fin <$> es,
        Arr1 (zip_with (λ a b, Fin ((a + b) / 2)) xs ys),
        Array (Arr1 (zip_with (λ a b, Fin ((a + b) / 2)) ms ns)),
        Some (zip_with (λ a b, Fin (Rabs (a - b) / 2 / sqrt 2)) xs ys,
              Array (Arr1 (zip_with (λ a b, Fin (Rabs (a - b) / 2 / sqrt 2))
                                    ms ns)))).
Proof.
  intros Hload1 Hload2 Hinc Hlen2 Hlx Hly Hlm Hln.
  rewrite <-(multi_pair_two_scans_mean
               (λ scan, load_dichro load_table is_Bluesky_specfile scan s
                                    positioner detector monitor transmission
                                    kw)
               scan1 scan2 es xs ys ms ns) by done.
  unfold load_multi_dichro, multi_pair. by rewrite stack_dichro_pair.
Qed.

(** X24: the same for two lock-in scans: [load_multi_lockin] with
    [return_mean] set returns the energies, the means of the two DC
    responses and of the two AC responses less their offsets, and the
    errors of the two means. *)
Theorem load_multi_lockin_two_scans_mean s positioner dc_col ac_col
    acoff_col kw scan1 scan2 (es xs ys ms ns : list R) :
  load_lockin load_table is_Bluesky_specfile scan1 s positioner dc_col
              ac_col acoff_col kw
  = Ok (Fin <$> es, Fin <$> xs, Fin <$> ms) →
  load_lockin load_table is_Bluesky_specfile scan2 s positioner dc_col
              ac_col acoff_col kw
  = Ok (Fin <$> es, Fin <$> ys, Fin <$> ns) →
  increasing es → 2 ≤ length es →
  length xs = length es → length ys = length es →
  length ms = length es → length ns = length es →
  load_multi_lockin load_table is_Bluesky_specfile [scan1; scan2] s true
                    positioner dc_col ac_col acoff_col kw
  = Ok (Fin <$> es,
        Arr1 (zip_with (λ a b, Fin ((a + b) / 2)) xs ys),
        Array (Arr1 (zip_with (λ a b, Fin ((a + b) / 2)) ms ns)),
        Some (zip_with (λ a b, Fin (Rabs (a - b) / 2 / sqrt 2)) xs ys,
              Array (Arr1 (zip_with (λ a b, Fin (Rabs (a - b) / 2 / sqrt 2))
                                    ms ns)))).
Proof.
  intros Hload1 Hload2 Hinc Hlen2 Hlx Hly Hlm Hln.
  rewrite <-(multi_pair_two_scans_mean
               (λ scan, load_lockin load_table is_Bluesky_specfile scan s
                                    positioner dc_col ac_col acoff_col kw)
               scan1 scan2 es xs ys ms ns) by done.
  unfold load_multi_lockin, multi_pair. by rewrite stack_lockin_pair.
Qed.

End multi_pair_facts.
(** ** [remove_nans2]: the pairs of finite values *)

Lemma unmasked_none {A} (mask : list bool) (l : list A) :
  existsb (λ b, b) mask = false → length mask = length l →
  unmasked mask l = l.
Proof.
  revert l. induction mask as [|b mask IH]; intros [|x l]; simpl; try done.
  destruct b; [done|]. intros Hex [= Hlen]. f_equal. by apply IH.
Qed.

Lemma length_unmasked {A B} (mask : list bool) (l : list A) (k : list B) :
  length mask = length l → length mask = length k →
  length (unmasked mask l) = length (unmasked mask k).
Proof.
  revert l k. induction mask as [|b mask IH]; intros [|x l] [|y k]; simpl;
    try done.
  intros [= Hl] [= Hk]. destruct b; simpl; auto.
Qed.

Lemma delete_where (x : array) (mask : list bool) :
  length mask = length x →
  np.delete x (np.where_ mask) = Ok (unmasked mask x).
Proof.
  intros Hlen. unfold np.delete.
  assert (forallb (λ i, bool_decide (i < length x)) (np.where_ mask) = true)
    as ->.
  { apply forallb_forall. intros k Hk%list_elem_of_In.
    apply elem_of_where_from in Hk as (j & -> & Hj).
    apply lookup_lt_Some in Hj. apply bool_decide_eq_true_2. lia. }
  f_equal.
  rewrite (imap_ext _ (λ i v, match mask !! i with
                              | Some true => None
                              | _ => Some v
                              end)).
  - revert mask Hlen.
    induction x as [|v x IH]; intros [|b mask] Hlen; simpl; try done.
    injection Hlen as Hlen. rewrite <-IH by done. by destruct b.
  - intros i v _. case_bool_decide as Hin.
    + apply elem_of_where_from in Hin as (j & -> & Hj). simpl. by rewrite Hj.
    + destruct (mask !! i) as [[]|] eqn:Hi; try done.
      destruct Hin. apply elem_of_where_from. by exists i.
Qed.

Lemma fix_bad_unmasked (mask : list bool) (x y : array) :
  length mask = length x → length mask = length y →
  larch.fix_bad mask x y = Ok (unmasked mask x, unmasked mask y).
Proof.
  intros Hx Hy. unfold larch.fix_bad.
  destruct (existsb _ mask) eqn:Hex.
  - by rewrite !delete_where.
  - by rewrite !unmasked_none.
Qed.

Lemma remove_nans2_finite_pairs (a b : array) :
  length a = length b →
  larch.remove_nans2 a b
  = Ok ((finite_pairs a b).*1, (finite_pairs a b).*2).
Proof.
  intros Hlen. unfold larch.remove_nans2.
  rewrite fix_bad_unmasked by (by rewrite length_map).
  cbn [mbind result_bind].
  rewrite fix_bad_unmasked.
  2,3: rewrite length_map; try done; apply length_unmasked;
       by rewrite length_map.
  f_equal. unfold finite_pairs. revert b Hlen.
  induction a as [|x a IH]; intros [|y b] Hlen; simpl; try done.
  injection Hlen as Hlen. specialize (IH b Hlen).
  injection IH as IH1 IH2. rewrite filter_cons.
  destruct x, y; simpl; rewrite ?IH1, ?IH2; done.
Qed.

Lemma finite_pairs_finite (a b : array) :
  Forall (λ x, F.isfinite x) (finite_pairs a b).*1
  ∧ Forall (λ y, F.isfinite y) (finite_pairs a b).*2.
Proof.
  unfold finite_pairs.
  induction (zip a b) as [|[x y] l [IH1 IH2]]; [by split|].
  rewrite filter_cons. case_decide as Hxy; [|by split].
  apply andb_True in Hxy as [Hx Hy]. split; by constructor.
Qed.
(** ** Polynomials with finite coefficients *)

Lemma sub_Fin_0 (n : float) (r : R) : r = 0%R → (n - Fin r)%fl = n.
Proof.
  intros ->. destruct n as [x| | |]; simpl; try done.
  unfold F.sub. simpl. f_equal. lra.
Qed.

Lemma polyval_fin (cs : list R) (e : R) :
  ∃ r, np.polyval (Fin <$> cs) (Fin e) = Fin r.
Proof.
  induction cs as [|c cs [r IH]]; [by eexists|].
  rewrite fmap_cons. unfold np.polyval in *. cbn [foldr]. rewrite IH.
  by eexists.
Qed.

(** ** Further properties of the flattening *)

Section flatten_more.

Context `{Lmfit}.
Context `{Float64}.
Variable preedge :
  array → array → option float → option float → option float → Z →
  option float → option float → option Z → result dict.

Lemma flatten_norm_finite (es : list R) norm e0 norm1 norm2 nnorm fpars
    ie0 p1 p2 enx mux (cs : list R) :
  length norm = length es →
  _flatten_indices (Fin <$> es) e0 norm1 norm2 = Ok (ie0, p1, p2) →
  larch.remove_nans2 (np.slice (np.copy (Fin <$> es)) p1 p2)
                     (np.slice (np.copy norm) p1 p2) = Ok (enx, mux) →
  _flatten_fit mux enx nnorm fpars = Ok (Fin <$> cs) →
  ∃ flat edge,
    _flatten_norm (Fin <$> es) norm e0 norm1 norm2 nnorm fpars = Ok flat
    ∧ length flat = length norm
    ∧ es !! ie0 = Some edge
    ∧ ∀ i n e, norm !! i = Some n → es !! i = Some e →
        flat !! i
        = Some (if decide (i < ie0) then n
                else n - (np.polyval (Fin <$> cs) (Fin e)
                          - np.polyval (Fin <$> cs) (Fin edge)))%fl.
Proof.
  intros Hlen Hidx Hnans Hfit.
  destruct (flatten_norm_returns (Fin <$> es) norm e0 norm1 norm2 nnorm fpars
              ie0 p1 p2 enx mux (Fin <$> cs))
    as (flat & Hflat & Hlflat & Hie0); [by rewrite length_fmap|done..|].
  rewrite length_fmap in Hie0.
  destruct (lookup_lt_is_Some_2 es ie0 Hie0) as [edge Hedge].
  exists flat, edge. split_and!; [done..|].
  destruct (flatten_norm_flattened _ _ _ _ _ _ _ _ Hflat)
    as (ie0' & p1' & p2' & enx' & mux' & best & at_edge
        & Hidx' & Hnans' & Hfit' & Hat & Hitems & _).
  rewrite Hidx in Hidx'. injection Hidx' as <- <- <-.
  rewrite Hnans in Hnans'. injection Hnans' as <- <-.
  rewrite Hfit in Hfit'. injection Hfit' as <-.
  rewrite list_lookup_fmap, Hedge in Hat. injection Hat as <-.
  intros i n e Hn He. apply Hitems; [done|].
  by rewrite list_lookup_fmap, He.
Qed.

(** X18: a fit that returns a constant with a finite value leaves the
    curve as it is: on finite energies the flattened curve is the
    normalised curve itself, at every index and whatever the values of
    the curve. *)
Theorem flatten_norm_constant_fit (es : list R) norm e0 norm1 norm2 nnorm
    fpars ie0 p1 p2 enx mux (c : R) :
  length norm = length es →
  _flatten_indices (Fin <$> es) e0 norm1 norm2 = Ok (ie0, p1, p2) →
  larch.remove_nans2 (np.slice (np.copy (Fin <$> es)) p1 p2)
                     (np.slice (np.copy norm) p1 p2) = Ok (enx, mux) →
  _flatten_fit mux enx nnorm fpars = Ok [Fin c] →
  _flatten_norm (Fin <$> es) norm e0 norm1 norm2 nnorm fpars = Ok norm.
Proof.
  intros Hlen Hidx Hnans Hfit.
  destruct (flatten_norm_finite es norm e0 norm1 norm2 nnorm fpars ie0 p1 p2
              enx mux [c] Hlen Hidx Hnans Hfit)
    as (flat & edge & -> & Hlflat & _ & Hitems).
  f_equal. apply list_eq. intros i.
  destruct (norm !! i) as [n|] eqn:Hn.
  - destruct (lookup_lt_is_Some_2 es i) as [e He].
    { rewrite <-Hlen. by eapply lookup_lt_Some. }
    rewrite (Hitems i n e Hn He). case_decide; [done|]. f_equal.
    unfold np.polyval. simpl. apply sub_Fin_0. lra.
  - apply lookup_ge_None. apply lookup_ge_None in Hn. lia.
Qed.

(** X19: the flattening puts no step at the edge: with finite energies
    and a fit with finite coefficients, the flattened curve equals the
    normalised curve at the edge index itself, as it does before it. *)
Theorem flatten_norm_edge_sample (es : list R) norm e0 norm1 norm2 nnorm
    fpars ie0 p1 p2 enx mux (cs : list R) :
  length norm = length es →
  _flatten_indices (Fin <$> es) e0 norm1 norm2 = Ok (ie0, p1, p2) →
  larch.remove_nans2 (np.slice (np.copy (Fin <$> es)) p1 p2)
                     (np.slice (np.copy norm) p1 p2) = Ok (enx, mux) →
  _flatten_fit mux enx nnorm fpars = Ok (Fin <$> cs) →
  ∃ flat,
    _flatten_norm (Fin <$> es) norm e0 norm1 norm2 nnorm fpars = Ok flat
    ∧ ie0 < length norm
    ∧ ∀ i, i ≤ ie0 → flat !! i = norm !! i.
Proof.
  intros Hlen Hidx Hnans Hfit.
  destruct (flatten_norm_finite es norm e0 norm1 norm2 nnorm fpars ie0 p1 p2
              enx mux cs Hlen Hidx Hnans Hfit)
    as (flat & edge & Hflat & Hlflat & Hedge & Hitems).
  exists flat. split_and!; [done| |].
  - rewrite Hlen. by eapply lookup_lt_Some.
  - intros i Hi.
    destruct (lookup_lt_is_Some_2 norm i) as [n Hn].
    { apply lookup_lt_Some in Hedge. lia. }
    destruct (lookup_lt_is_Some_2 es i) as [e He].
    { apply lookup_lt_Some in Hedge. lia. }
    rewrite (Hitems i n e Hn He), Hn. case_decide; [done|].
    assert (i = ie0) as -> by lia.
    rewrite Hedge in He. injection He as ->. f_equal.
    destruct (polyval_fin cs e) as [r ->]. unfold F.sub at 2. simpl.
    apply sub_Fin_0. lra.
Qed.

(** X20: the flattening removes the fitted trend.  With finite energies
    and a fit with finite coefficients, if from the edge index on the
    normalised curve lies on the fitted polynomial, the flattened curve
    is constant from the edge index on, with the value of the normalised
    curve at the edge index. *)
Theorem flatten_norm_removes_trend (es : list R) norm e0 norm1 norm2 nnorm
    fpars ie0 p1 p2 enx mux (cs : list R) :
  length norm = length es →
  _flatten_indices (Fin <$> es) e0 norm1 norm2 = Ok (ie0, p1, p2) →
  larch.remove_nans2 (np.slice (np.copy (Fin <$> es)) p1 p2)
                     (np.slice (np.copy norm) p1 p2) = Ok (enx, mux) →
  _flatten_fit mux enx nnorm fpars = Ok (Fin <$> cs) →
  (∀ i e, ie0 ≤ i → es !! i = Some e →
     norm !! i = Some (np.polyval (Fin <$> cs) (Fin e))) →
  ∃ flat,
    _flatten_norm (Fin <$> es) norm e0 norm1 norm2 nnorm fpars = Ok flat
    ∧ ∀ i, ie0 ≤ i → i < length es → flat !! i = norm !! ie0.
Proof.
  intros Hlen Hidx Hnans Hfit Htrend.
  destruct (flatten_norm_finite es norm e0 norm1 norm2 nnorm fpars ie0 p1 p2
              enx mux cs Hlen Hidx Hnans Hfit)
    as (flat & edge & Hflat & Hlflat & Hedge & Hitems).
  exists flat. split; [done|]. intros i Hi Hlt.
  destruct (lookup_lt_is_Some_2 es i Hlt) as [e He].
  rewrite (Hitems i _ e (Htrend i e Hi He) He).
  rewrite (Htrend ie0 edge (le_n _) Hedge).
  rewrite decide_False by lia. f_equal.
  destruct (polyval_fin cs e) as [r ->].
  destruct (polyval_fin cs edge) as [r' ->].
  unfold F.sub. simpl. f_equal. lra.
Qed.

(** X21: the polynomial is fitted to the window [energy[p1:p2]],
    [norm[p1:p2]] cleaned of every position at which the energy or the
    value is [NaN] or infinite: whenever the flattening returns, the fit
    has returned on exactly the finite pairs of the window, in their
    order, the values first and the energies as [x]. *)
Theorem flatten_norm_fit_sees_finite energy norm e0 norm1 norm2 nnorm fpars
    flat :
  length norm = length energy →
  _flatten_norm energy norm e0 norm1 norm2 nnorm fpars = Ok flat →
  ∃ ie0 p1 p2 best,
    _flatten_indices energy e0 norm1 norm2 = Ok (ie0, p1, p2)
    ∧ _flatten_fit
        (finite_pairs (np.slice energy p1 p2) (np.slice norm p1 p2)).*2
        (finite_pairs (np.slice energy p1 p2) (np.slice norm p1 p2)).*1
        nnorm fpars = Ok best
    ∧ Forall (λ y, F.isfinite y)
        (finite_pairs (np.slice energy p1 p2) (np.slice norm p1 p2)).*2
    ∧ Forall (λ x, F.isfinite x)
        (finite_pairs (np.slice energy p1 p2) (np.slice norm p1 p2)).*1.
Proof.
  intros Hlen Hflat. unfold _flatten_norm in Hflat.
  apply bind_Ok in Hflat as ([[ie0 p1] p2] & Hidx & Hflat).
  apply bind_Ok in Hflat as ([enx mux] & Hnans & Hflat).
  apply bind_Ok in Hflat as (best & Hfit & _).
  unfold np.copy in Hnans.
  rewrite remove_nans2_finite_pairs in Hnans.
  2: { unfold np.slice. rewrite !length_take, !length_drop. lia. }
  injection Hnans as <- <-.
  exists ie0, p1, p2, best. split_and!; [done..| |];
    apply finite_pairs_finite.
Qed.

(** X22: on a spectrum that is not empty, with finite energies, a finite
    edge energy and finite window bounds, and a curve of the length of
    the energies, nothing in the flattening but the fit can fail.  The
    three indices are found and are indices of samples; the flattening
    raises exactly what the fit to the finite pairs of the window raises,
    and returns a curve of the length of the input whenever that fit
    returns. *)
Theorem flatten_norm_only_fit_fails (es : list R) norm (e0 norm1 norm2 : R)
    nnorm fpars :
  es ≠ [] → length norm = length es →
  ∃ ie0 p1 p2,
    _flatten_indices (Fin <$> es) (Fin e0) (Fin norm1) (Fin norm2)
    = Ok (ie0, p1, p2)
    ∧ ie0 < length es ∧ p1 < length es ∧ p2 < length es
    ∧ (∀ e,
         _flatten_norm (Fin <$> es) norm (Fin e0) (Fin norm1) (Fin norm2)
                       nnorm fpars = Raise e
         ↔ _flatten_fit
             (finite_pairs (np.slice (Fin <$> es) p1 p2)
                           (np.slice norm p1 p2)).*2
             (finite_pairs (np.slice (Fin <$> es) p1 p2)
                           (np.slice norm p1 p2)).*1
             nnorm fpars = Raise e)
    ∧ (∀ best,
         _flatten_fit
           (finite_pairs (np.slice (Fin <$> es) p1 p2)
                         (np.slice norm p1 p2)).*2
           (finite_pairs (np.slice (Fin <$> es) p1 p2)
                         (np.slice norm p1 p2)).*1
           nnorm fpars = Ok best →
         ∃ flat,
           _flatten_norm (Fin <$> es) norm (Fin e0) (Fin norm1) (Fin norm2)
                         nnorm fpars = Ok flat
           ∧ length flat = length norm).
Proof.
  intros Hne Hlen.
  destruct (flatten_indices_total es e0 norm1 norm2 Hne)
    as (ie0 & p1 & p2 & Hidx & Hie0 & Hp1 & Hp2).
  exists ie0, p1, p2. split_and!; [done..| |].
  all: pose proof (remove_nans2_finite_pairs
                     (np.slice (np.copy (Fin <$> es)) p1 p2)
                     (np.slice (np.copy norm) p1 p2)) as Hnans.
  all: unfold np.copy in Hnans.
  all: specialize (Hnans ltac:(unfold np.slice;
         rewrite !length_take, !length_drop, length_fmap; lia)).
  - intros e.
    destruct (_flatten_fit _ _ nnorm fpars) as [best|e'] eqn:Hfit.
    + destruct (flatten_norm_returns (Fin <$> es) norm (Fin e0) (Fin norm1)
                  (Fin norm2) nnorm fpars ie0 p1 p2 _ _ best
                  ltac:(by rewrite length_fmap) Hidx Hnans Hfit)
        as (flat & -> & _). done.
    + unfold _flatten_norm. rewrite Hidx. cbn [mbind result_bind].
      unfold np.copy. rewrite Hnans. cbn [mbind result_bind].
      by rewrite Hfit.
  - intros best Hfit.
    destruct (flatten_norm_returns (Fin <$> es) norm (Fin e0) (Fin norm1)
                (Fin norm2) nnorm fpars ie0 p1 p2 _ _ best
                ltac:(by rewrite length_fmap) Hidx Hnans Hfit)
      as (flat & -> & Hl & _).
    by exists flat.
Qed.

(** ** Further properties of [normalize_absorption] *)

(** X15: [normalize_absorption] returns the dictionary of the pre-edge
    collaborator, called with the first two items of each range, with
    three entries written over it: ['energy'] and ['raw'] hold the two
    inputs, ['flat'] an array; every other entry is the one the
    collaborator returned, and no entry is removed. *)
Theorem normalize_absorption_entries energy xanes e0 pre_range post_range
    pre_exponent post_order fpars results :
  normalize_absorption preedge energy xanes e0 pre_range post_range
                       pre_exponent post_order fpars = Ok results →
  ∃ pre1 pre2 norm1 norm2 returned flat,
    range_or_default pre_range !! 0 = Some pre1
    ∧ range_or_default pre_range !! 1 = Some pre2
    ∧ range_or_default post_range !! 0 = Some norm1
    ∧ range_or_default post_range !! 1 = Some norm2
    ∧ preedge energy xanes e0 pre1 pre2 pre_exponent norm1 norm2 post_order
      = Ok returned
    ∧ results !! "energy" = Some (VArray energy)
    ∧ results !! "raw" = Some (VArray xanes)
    ∧ results !! "flat" = Some (VArray flat)
    ∧ (∀ key, key ≠ "energy" → key ≠ "raw" → key ≠ "flat" →
         results !! key = returned !! key)
    ∧ dom results = dom returned ∪ {["energy"; "raw"; "flat"]}.
Proof.
  unfold normalize_absorption. intros Hres.
  apply bind_Ok in Hres as (pre1 & Hpre1 & Hres).
  apply bind_Ok in Hres as (pre2 & Hpre2 & Hres).
  apply bind_Ok in Hres as (n1 & Hn1 & Hres).
  apply bind_Ok in Hres as (n2 & Hn2 & Hres).
  apply bind_Ok in Hres as (returned & Hret & Hres). cbv zeta in Hres.
  apply bind_Ok in Hres as (norm & _ & Hres).
  apply bind_Ok in Hres as (edge & _ & Hres).
  apply bind_Ok in Hres as (norm1 & _ & Hres).
  apply bind_Ok in Hres as (norm2 & _ & Hres).
  apply bind_Ok in Hres as (nnorm & _ & Hres).
  apply bind_Ok in Hres as (flat & _ & [= <-]).
  exists pre1, pre2, n1, n2, returned, flat.
  assert (∀ {A} (o : option A) a e, or_raise o e = Ok a → o = Some a) as Hor.
  { intros A [a'|] a e; simpl; congruence. }
  split_and!; [by eapply Hor..|done| | | | |].
  - rewrite !lookup_insert_ne by done. by rewrite lookup_insert_eq.
  - rewrite lookup_insert_ne by done. by rewrite lookup_insert_eq.
  - by rewrite lookup_insert_eq.
  - intros key He Hr Hf. by rewrite !lookup_insert_ne by done.
  - rewrite !dom_insert_L. apply set_eq. intros key.
    rewrite !elem_of_union, !elem_of_singleton. tauto.
Qed.

(** X16: a range of exactly one item, given as [pre_range] or as
    [post_range], makes [normalize_absorption] raise [IndexError] when it
    reads the second item, before the pre-edge collaborator is called:
    the result does not depend on that collaborator. *)
Theorem normalize_absorption_short_range energy xanes e0 pre_range post_range
    pre_exponent post_order fpars bound :
  normalize_absorption preedge energy xanes e0 (Some [bound]) post_range
                       pre_exponent post_order fpars = Raise IndexError
  ∧ normalize_absorption preedge energy xanes e0 pre_range (Some [bound])
                         pre_exponent post_order fpars = Raise IndexError.
Proof.
  split; [done|]. unfold normalize_absorption.
  destruct pre_range as [[|a [|b l]]|]; done.
Qed.

(** X17: on an empty array of energies the flattening raises
    [ValueError] at the search of the edge index, so that
    [normalize_absorption] never returns: it raises, whatever the
    collaborators return. *)
Theorem normalize_absorption_empty_energy xanes e0 pre_range post_range
    pre_exponent post_order fpars :
  (∀ norm edge norm1 norm2 nnorm,
     _flatten_norm [] norm edge norm1 norm2 nnorm fpars = Raise ValueError)
  ∧ ∃ e, normalize_absorption preedge [] xanes e0 pre_range post_range
                              pre_exponent post_order fpars = Raise e.
Proof.
  split; [done|]. unfold normalize_absorption.
  repeat match goal with
         | |- ∃ e, ?m ≫= _ = Raise e =>
             lazymatch m with
             | _flatten_norm _ _ _ _ _ _ _ => fail
             | _ => destruct m; cbn [mbind result_bind]; [|by eexists]
             end
         | _ => progress cbv zeta
         end.
  by exists ValueError.
Qed.

End flatten_more.
(** ** Runs of the loaders *)

Lemma load_absorption_missing_column_witness :
  load_absorption table_loader no_spec_file no_detector_table
                  (SourceStr "csv") None None None true ()
  = Raise KeyError.
Proof.
  apply (load_absorption_missing_column table_loader no_spec_file
           no_detector_table (SourceStr "csv") None None None true ()
           _bluesky_default_cols no_detector_table
           "monochromator_energy" "Ion Ch 5" "Ion Ch 4");
    [reflexivity..|].
  right. left. reflexivity.
Defined.

Lemma load_lockin_columns_witness :
  load_lockin table_loader spec_origin lockin_table (SourceStr "scans.spec")
              None None None None ()
  = Ok ([Fin 1; Fin 2], [Fin 5; Fin 6],
        zip_with F.sub [Fin 3; Fin 4] [Fin 1; Fin 1]).
Proof.
  apply (load_lockin_columns table_loader spec_origin lockin_table
           (SourceStr "scans.spec") None None None None ()
           _spec_default_cols lockin_table
           "Energy" "Lock DC" "Lock AC" "Lock ACoff");
    reflexivity.
Defined.

Lemma load_lockin_default_names_witness :
  load_lockin table_loader spec_origin lockin_table (SourceStr "scans.spec")
              None None None None ()
  = Ok ([Fin 1; Fin 2], [Fin 5; Fin 6],
        zip_with F.sub [Fin 3; Fin 4] [Fin 1; Fin 1]).
Proof.
  apply (load_lockin_default_names table_loader spec_origin lockin_table
           (SourceStr "scans.spec") () false lockin_table);
    reflexivity.
Defined.

Lemma load_dichro_origin_check_raises_witness :
  load_dichro table_loader no_spec_file dichro_table (SourceStr "scans.spec")
              None None None true ()
  = Raise NotASpecDataFile.
Proof.
  apply (load_dichro_origin_check_raises table_loader no_spec_file
           dichro_table (SourceStr "scans.spec") None None None true ()
           NotASpecDataFile);
    reflexivity.
Defined.

Lemma load_dichro_spec_columns_witness :
  load_dichro table_loader spec_origin dichro_table (SourceStr "scans.spec")
              None None None false ()
  = Ok ([Fin 1; Fin 2],
        zip_with (λ plus minus, (plus + minus) / Fin 2)%fl
                 (absorption false [Fin 1; Fin 1] [Fin 2; Fin 4])
                 (absorption false [Fin 1; Fin 1] [Fin 4; Fin 2]),
        zip_with F.sub (absorption false [Fin 1; Fin 1] [Fin 2; Fin 4])
                 (absorption false [Fin 1; Fin 1] [Fin 4; Fin 2])).
Proof.
  apply (load_dichro_spec_columns table_loader spec_origin dichro_table
           (SourceStr "scans.spec") None None None false () dichro_table
           "Energy" "IC5" "IC4");
    reflexivity.
Defined.

Lemma load_dichro_groups_witness :
  ∃ x xanes xmcd,
    load_dichro table_loader no_spec_file four_samples (SourceStr "csv")
                None None None false () = Ok (x, xanes, xmcd)
    ∧ (∀ j e1 e2 e3 e4,
         [Fin 1; Fin 2; Fin 3; Fin 4] !! (4 * j) = Some e1 →
         [Fin 1; Fin 2; Fin 3; Fin 4] !! (4 * j + 1) = Some e2 →
         [Fin 1; Fin 2; Fin 3; Fin 4] !! (4 * j + 2) = Some e3 →
         [Fin 1; Fin 2; Fin 3; Fin 4] !! (4 * j + 3) = Some e4 →
         x !! j = Some (np2.mean [e1; e2; e3; e4]))
    ∧ (∀ j a b c d,
         zip_with F.div [Fin 1; Fin 2; Fin 3; Fin 4]
                  [Fin 1; Fin 1; Fin 1; Fin 1] !! (4 * j) = Some a →
         zip_with F.div [Fin 1; Fin 2; Fin 3; Fin 4]
                  [Fin 1; Fin 1; Fin 1; Fin 1] !! (4 * j + 1) = Some b →
         zip_with F.div [Fin 1; Fin 2; Fin 3; Fin 4]
                  [Fin 1; Fin 1; Fin 1; Fin 1] !! (4 * j + 2) = Some c →
         zip_with F.div [Fin 1; Fin 2; Fin 3; Fin 4]
                  [Fin 1; Fin 1; Fin 1; Fin 1] !! (4 * j + 3) = Some d →
         xanes !! j = Some (np2.mean [a; b; c; d])
         ∧ xmcd !! j = Some (np2.mean [a; d] - np2.mean [b; c])%fl).
Proof.
  apply (load_dichro_groups table_loader no_spec_file four_samples
           (SourceStr "csv") None None None false ()
           [Fin 1; Fin 2; Fin 3; Fin 4]
           (zip_with F.div [Fin 1; Fin 2; Fin 3; Fin 4]
                     [Fin 1; Fin 1; Fin 1; Fin 1]) 1);
    reflexivity.
Defined.

(** ** Runs of the aggregations *)

Lemma load_scan_246 :
  load_absorption table_loader no_spec_file scan_246 (SourceStr "csv")
                  None None None false ()
  = Ok (Fin <$> [1; 2; 3]%R, Fin <$> [2 / 1; 4 / 1; 6 / 1]%R).
Proof.
  transitivity (Ok ([Fin 1; Fin 2; Fin 3],
                    [Fin 2 / Fin 1; Fin 4 / Fin 1; Fin 6 / Fin 1]%fl));
    [reflexivity|].
  by rewrite !div_Fin by lra.
Qed.

Lemma load_multi_xas_loads_every_scan_witness :
  Forall (λ scan, is_Ok (load_absorption table_loader no_spec_file scan
                                         (SourceStr "csv") None None None
                                         false ()))
         [scan_123; scan_24].
Proof.
  exact (load_multi_xas_loads_every_scan table_loader no_spec_file
           [scan_123; scan_24] (SourceStr "csv") false None None None false
           () _ load_multi_xas_123_24).
Defined.

Lemma load_multi_xas_shapes_witness :
  ∃ xanes0,
    load_absorption table_loader no_spec_file scan_123 (SourceStr "csv")
                    None None None false ()
    = Ok ([Fin 1; Fin 2; Fin 3], xanes0)
    ∧ length xanes0 = 3
    ∧ ∃ rows,
        Arr2 3 [[Fin 1; Fin 2; Fin 3]; [NaN; Fin 2; Fin 3]]
        = Arr2 3 (xanes0 :: rows)
        ∧ @None array = None
        ∧ length rows = 1
        ∧ Forall (λ row, length row = 3) rows.
Proof.
  exact (load_multi_xas_shapes table_loader no_spec_file scan_123 [scan_24]
           (SourceStr "csv") false None None None false ()
           _ _ _ load_multi_xas_123_24).
Defined.

Lemma load_multi_xas_two_scans_mean_witness :
  load_multi_xas table_loader no_spec_file [scan_123; scan_246]
                 (SourceStr "csv") true None None None false ()
  = Ok (Fin <$> [1; 2; 3]%R,
        Arr1 (zip_with (λ a b, Fin ((a + b) / 2))
                       [1 / 1; 2 / 1; 3 / 1]%R [2 / 1; 4 / 1; 6 / 1]%R),
        Some (zip_with (λ a b, Fin (Rabs (a - b) / 2 / sqrt 2))
                       [1 / 1; 2 / 1; 3 / 1]%R [2 / 1; 4 / 1; 6 / 1]%R)).
Proof.
  apply (load_multi_xas_two_scans_mean table_loader no_spec_file
           (SourceStr "csv") None None None false () scan_123 scan_246
           [1; 2; 3]%R [1 / 1; 2 / 1; 3 / 1]%R [2 / 1; 4 / 1; 6 / 1]%R
           load_scan_123 load_scan_246).
  - apply StronglySorted_increasing. repeat constructor; lra.
  - simpl. lia.
  - reflexivity.
  - reflexivity.
Defined.
Lemma load_lockin_scan :
  load_lockin table_loader spec_origin lockin_table (SourceStr "scans.spec")
              None None None None ()
  = Ok ([Fin 1; Fin 2], [Fin 5; Fin 6], [Fin 2; Fin 3]).
Proof.
  transitivity (Ok ([Fin 1; Fin 2], [Fin 5; Fin 6],
                    zip_with F.sub [Fin 3; Fin 4] [Fin 1; Fin 1]));
    [reflexivity|].
  feval. fin_eq.
Qed.

Lemma load_dichro_scan :
  load_dichro table_loader spec_origin dichro_table (SourceStr "scans.spec")
              None None None false ()
  = Ok ([Fin 1; Fin 2], [Fin 3; Fin 3], [Fin (-2); Fin 2]).
Proof.
  transitivity
    (Ok ([Fin 1; Fin 2],
         zip_with (λ plus minus, (plus + minus) / Fin 2)%fl
                  (absorption false [Fin 1; Fin 1] [Fin 2; Fin 4])
                  (absorption false [Fin 1; Fin 1] [Fin 4; Fin 2]),
         zip_with F.sub (absorption false [Fin 1; Fin 1] [Fin 2; Fin 4])
                  (absorption false [Fin 1; Fin 1] [Fin 4; Fin 2])));
    [reflexivity|].
  unfold absorption. feval. fin_eq.
Qed.

(** Two copies of the lock-in scan, and two of the dichroism scan, stacked
    without averaging. *)
Example load_multi_lockin_twice :
  load_multi_lockin table_loader spec_origin [lockin_table; lockin_table]
                    (SourceStr "scans.spec") false None None None None ()
  = Ok ([Fin 1; Fin 2], Arr2 2 [[Fin 5; Fin 6]; [Fin 5; Fin 6]],
        Array (Arr2 2 [[Fin 2; Fin 3]; [Fin 2; Fin 3]]), None).
Proof.
  unfold load_multi_lockin. cbn [stack_lockin].
  rewrite load_lockin_scan. cbn [mbind result_bind].
  unfold scipy.interp1d, scipy.call_linear, scipy.sort_points. feval.
  unfold np2.vstack, scipy.chord. feval. fin_eq.
Qed.

Example load_multi_dichro_twice :
  load_multi_dichro table_loader spec_origin [dichro_table; dichro_table]
                    (SourceStr "scans.spec") false None None None false ()
  = Ok ([Fin 1; Fin 2], Arr2 2 [[Fin 3; Fin 3]; [Fin 3; Fin 3]],
        Array (Arr2 2 [[Fin (-2); Fin 2]; [Fin (-2); Fin 2]]), None).
Proof.
  unfold load_multi_dichro. cbn [stack_dichro].
  rewrite load_dichro_scan. cbn [mbind result_bind].
  unfold scipy.interp1d, scipy.call_linear, scipy.sort_points. feval.
  unfold np2.vstack, scipy.chord. feval. fin_eq.
Qed.

Lemma load_multi_dichro_shapes_witness :
  ∃ xanes0 xmcd0,
    load_dichro table_loader spec_origin dichro_table
                (SourceStr "scans.spec") None None None false ()
    = Ok ([Fin 1; Fin 2], xanes0, xmcd0)
    ∧ pair_shapes 1 false [Fin 1; Fin 2] xanes0 xmcd0
        (Arr2 2 [[Fin 3; Fin 3]; [Fin 3; Fin 3]])
        (Array (Arr2 2 [[Fin (-2); Fin 2]; [Fin (-2); Fin 2]])) None.
Proof.
  exact (load_multi_dichro_shapes table_loader spec_origin dichro_table
           [dichro_table] (SourceStr "scans.spec") false None None None
           false () _ _ _ _ load_multi_dichro_twice).
Defined.

Lemma load_multi_lockin_shapes_witness :
  ∃ xanes0 xmcd0,
    load_lockin table_loader spec_origin lockin_table
                (SourceStr "scans.spec") None None None None ()
    = Ok ([Fin 1; Fin 2], xanes0, xmcd0)
    ∧ pair_shapes 1 false [Fin 1; Fin 2] xanes0 xmcd0
        (Arr2 2 [[Fin 5; Fin 6]; [Fin 5; Fin 6]])
        (Array (Arr2 2 [[Fin 2; Fin 3]; [Fin 2; Fin 3]])) None.
Proof.
  exact (load_multi_lockin_shapes table_loader spec_origin lockin_table
           [lockin_table] (SourceStr "scans.spec") false None None None
           None () _ _ _ _ load_multi_lockin_twice).
Defined.

Lemma load_lockin_scan_2 :
  load_lockin table_loader spec_origin lockin_table_2
              (SourceStr "scans.spec") None None None None ()
  = Ok ([Fin 1; Fin 2], [Fin 7; Fin 6], [Fin 4; Fin 3]).
Proof.
  transitivity (Ok ([Fin 1; Fin 2], [Fin 7; Fin 6],
                    zip_with F.sub [Fin 5; Fin 4] [Fin 1; Fin 1]));
    [reflexivity|].
  feval. fin_eq.
Qed.

Lemma load_dichro_scan_2 :
  load_dichro table_loader spec_origin dichro_table_2
              (SourceStr "scans.spec") None None None false ()
  = Ok ([Fin 1; Fin 2], [Fin 4; Fin 5], [Fin 0; Fin (-2)]).
Proof.
  transitivity
    (Ok ([Fin 1; Fin 2],
         zip_with (λ plus minus, (plus + minus) / Fin 2)%fl
                  (absorption false [Fin 1; Fin 1] [Fin 4; Fin 4])
                  (absorption false [Fin 1; Fin 1] [Fin 4; Fin 6]),
         zip_with F.sub (absorption false [Fin 1; Fin 1] [Fin 4; Fin 4])
                  (absorption false [Fin 1; Fin 1] [Fin 4; Fin 6])));
    [reflexivity|].
  unfold absorption. feval. fin_eq.
Qed.

Lemma load_multi_dichro_two_scans_mean_witness :
  load_multi_dichro table_loader spec_origin [dichro_table; dichro_table_2]
                    (SourceStr "scans.spec") true None None None false ()
  = Ok (Fin <$> [1; 2]%R,
        Arr1 (zip_with (λ a b, Fin ((a + b) / 2)) [3; 3]%R [4; 5]%R),
        Array (Arr1 (zip_with (λ a b, Fin ((a + b) / 2))
                              [-2; 2]%R [0; -2]%R)),
        Some (zip_with (λ a b, Fin (Rabs (a - b) / 2 / sqrt 2))
                       [3; 3]%R [4; 5]%R,
              Array (Arr1 (zip_with (λ a b, Fin (Rabs (a - b) / 2 / sqrt 2))
                                    [-2; 2]%R [0; -2]%R)))).
Proof.
  apply (load_multi_dichro_two_scans_mean table_loader spec_origin
           (SourceStr "scans.spec") None None None false ()
           dichro_table dichro_table_2 [1; 2]%R [3; 3]%R [4; 5]%R
           [-2; 2]%R [0; -2]%R load_dichro_scan load_dichro_scan_2).
  - apply StronglySorted_increasing. repeat constructor; lra.
  - simpl. lia.
  - reflexivity.
  - reflexivity.
  - reflexivity.
  - reflexivity.
Defined.

Lemma load_multi_lockin_two_scans_mean_witness :
  load_multi_lockin table_loader spec_origin [lockin_table; lockin_table_2]
                    (SourceStr "scans.spec") true None None None None ()
  = Ok (Fin <$> [1; 2]%R,
        Arr1 (zip_with (λ a b, Fin ((a + b) / 2)) [5; 6]%R [7; 6]%R),
        Array (Arr1 (zip_with (λ a b, Fin ((a + b) / 2))
                              [2; 3]%R [4; 3]%R)),
        Some (zip_with (λ a b, Fin (Rabs (a - b) / 2 / sqrt 2))
                       [5; 6]%R [7; 6]%R,
              Array (Arr1 (zip_with (λ a b, Fin (Rabs (a - b) / 2 / sqrt 2))
                                    [2; 3]%R [4; 3]%R)))).
Proof.
  apply (load_multi_lockin_two_scans_mean table_loader spec_origin
           (SourceStr "scans.spec") None None None None ()
           lockin_table lockin_table_2 [1; 2]%R [5; 6]%R [7; 6]%R
           [2; 3]%R [4; 3]%R load_lockin_scan load_lockin_scan_2).
  - apply StronglySorted_increasing. repeat constructor; lra.
  - simpl. lia.
  - reflexivity.
  - reflexivity.
  - reflexivity.
  - reflexivity.
Defined.
(** ** Runs of the flattening and of the normalisation *)

Lemma flatten_norm_constant_fit_witness :
  _flatten_norm (H := least_squares_lmfit) ramp_energy ramp_norm
                (Fin 1) (Fin 1) (Fin 2) 0 None
  = Ok ramp_norm.
Proof.
  apply (flatten_norm_constant_fit (H := least_squares_lmfit)
           [0; 1; 2; 3]%R ramp_norm (Fin 1) (Fin 1) (Fin 2) 0 None
           1 2 3 [Fin 2] [Fin 2] 2);
    [reflexivity | exact one_sample_indices | reflexivity
     | exact one_sample_fit].
Defined.

Lemma flatten_norm_edge_sample_witness :
  ∃ flat,
    _flatten_norm (H := least_squares_lmfit) ramp_energy ramp_norm
                  (Fin 1) (Fin 0.6) (Fin 2) 1 None = Ok flat
    ∧ 1 < length ramp_norm
    ∧ ∀ i, i ≤ 1 → flat !! i = ramp_norm !! i.
Proof.
  apply (flatten_norm_edge_sample (H := least_squares_lmfit)
           [0; 1; 2; 3]%R ramp_norm (Fin 1) (Fin 0.6) (Fin 2) 1 None
           1 1 3 [Fin 1; Fin 2] [Fin 1; Fin 2] [0; 1]%R);
    [reflexivity | exact ramp_indices_edge | reflexivity | exact ramp_fit].
Defined.

Lemma flatten_norm_removes_trend_witness :
  ∃ flat,
    _flatten_norm (H := least_squares_lmfit) ramp_energy ramp_norm
                  (Fin 1) (Fin 0.6) (Fin 2) 1 None = Ok flat
    ∧ ∀ i, 1 ≤ i → i < 4 → flat !! i = ramp_norm !! 1.
Proof.
  apply (flatten_norm_removes_trend (H := least_squares_lmfit)
           [0; 1; 2; 3]%R ramp_norm (Fin 1) (Fin 0.6) (Fin 2) 1 None
           1 1 3 [Fin 1; Fin 2] [Fin 1; Fin 2] [0; 1]%R);
    [reflexivity | exact ramp_indices_edge | reflexivity | exact ramp_fit |].
  intros [|[|[|[|i]]]] e Hi [= <-]; try lia; simpl; do 2 f_equal; lra.
Defined.

Lemma flatten_norm_fit_sees_finite_witness :
  ∃ ie0 p1 p2 best,
    _flatten_indices ramp_energy (Fin 1) (Fin 0.6) (Fin 2) = Ok (ie0, p1, p2)
    ∧ _flatten_fit (H := least_squares_lmfit)
        (finite_pairs (np.slice ramp_energy p1 p2)
                      (np.slice ramp_norm p1 p2)).*2
        (finite_pairs (np.slice ramp_energy p1 p2)
                      (np.slice ramp_norm p1 p2)).*1
        1 None = Ok best
    ∧ Forall (λ y, F.isfinite y)
        (finite_pairs (np.slice ramp_energy p1 p2)
                      (np.slice ramp_norm p1 p2)).*2
    ∧ Forall (λ x, F.isfinite x)
        (finite_pairs (np.slice ramp_energy p1 p2)
                      (np.slice ramp_norm p1 p2)).*1.
Proof.
  exact (flatten_norm_fit_sees_finite (H := least_squares_lmfit)
           ramp_energy ramp_norm (Fin 1) (Fin 0.6) (Fin 2) 1 None
           [Fin 0; Fin 1; Fin 1; Fin 1] eq_refl ramp_flat).
Defined.

Lemma flatten_norm_only_fit_fails_witness :
  ∃ ie0 p1 p2,
    _flatten_indices ramp_energy (Fin 1) (Fin 0.6) (Fin 2) = Ok (ie0, p1, p2)
    ∧ ie0 < 4 ∧ p1 < 4 ∧ p2 < 4
    ∧ (∀ e,
         _flatten_norm (H := least_squares_lmfit) ramp_energy ramp_norm
                       (Fin 1) (Fin 0.6) (Fin 2) 1 None = Raise e
         ↔ _flatten_fit (H := least_squares_lmfit)
             (finite_pairs (np.slice ramp_energy p1 p2)
                           (np.slice ramp_norm p1 p2)).*2
             (finite_pairs (np.slice ramp_energy p1 p2)
                           (np.slice ramp_norm p1 p2)).*1
             1 None = Raise e)
    ∧ (∀ best,
         _flatten_fit (H := least_squares_lmfit)
           (finite_pairs (np.slice ramp_energy p1 p2)
                         (np.slice ramp_norm p1 p2)).*2
           (finite_pairs (np.slice ramp_energy p1 p2)
                         (np.slice ramp_norm p1 p2)).*1
           1 None = Ok best →
         ∃ flat,
           _flatten_norm (H := least_squares_lmfit) ramp_energy ramp_norm
                         (Fin 1) (Fin 0.6) (Fin 2) 1 None = Ok flat
           ∧ length flat = length ramp_norm).
Proof.
  apply (flatten_norm_only_fit_fails (H := least_squares_lmfit)
           [0; 1; 2; 3]%R ramp_norm 1 0.6 2 1 None);
    [discriminate | reflexivity].
Defined.

Lemma normalize_absorption_entries_witness :
  ∃ pre1 pre2 norm1 norm2 returned flat,
    range_or_default None !! 0 = Some pre1
    ∧ range_or_default None !! 1 = Some pre2
    ∧ range_or_default (Some [Some (Fin 0.6); Some (Fin 2)]) !! 0
      = Some norm1
    ∧ range_or_default (Some [Some (Fin 0.6); Some (Fin 2)]) !! 1
      = Some norm2
    ∧ given_preedge ramp_energy ramp_norm (Some (Fin 1)) pre1 pre2 0 norm1
                    norm2 (Some 1%Z) = Ok returned
    ∧ ramp_results !! "energy" = Some (VArray ramp_energy)
    ∧ ramp_results !! "raw" = Some (VArray ramp_norm)
    ∧ ramp_results !! "flat" = Some (VArray flat)
    ∧ (∀ key, key ≠ "energy" → key ≠ "raw" → key ≠ "flat" →
         ramp_results !! key = returned !! key)
    ∧ dom ramp_results = dom returned ∪ {["energy"; "raw"; "flat"]}.
Proof.
  exact (normalize_absorption_entries (H := least_squares_lmfit)
           given_preedge ramp_energy ramp_norm (Some (Fin 1)) None
           (Some [Some (Fin 0.6); Some (Fin 2)]) 0 (Some 1%Z) None
           ramp_results ramp_normalized).
Defined.
